(** * django-commcare: schema scraping and table reconciliation

    A shallow embedding of [management/commands/scrape.py] (tree
    normalisation, sheet-name shortening, form flattening) and of [utils.py]
    (table creation and column reconciliation), with the properties the
    design document states about them. *)

From Stdlib Require Import String Ascii ZArith List Lia Bool.
From stdpp Require Import base option list strings gmap fin_maps.

#[local] Set Warnings "-register-all".
Local Open Scope string_scope.
Local Open Scope list_scope.

(** ** Python [str] operations

    Strings are byte strings; the identifiers handled by the program are
    ASCII. [lower] folds the ASCII letters only. *)

Definition py_len (s : string) : nat := String.length s.

(** [c in "..."] for a one-character test. *)
Definition ascii_eqb (a b : ascii) : bool := Ascii.eqb a b.

(** [s.startswith(p)] *)
Fixpoint startswith (p s : string) : bool :=
  match p, s with
  | EmptyString, _ => true
  | String a p', String b s' => ascii_eqb a b && startswith p' s'
  | String _ _, EmptyString => false
  end.

(** [sub in s] *)
Fixpoint contains (sub s : string) : bool :=
  startswith sub s ||
  match s with
  | EmptyString => false
  | String _ s' => contains sub s'
  end.

(** [s.endswith(p)] *)
Fixpoint endswith (p s : string) : bool :=
  String.eqb p s ||
  match s with
  | EmptyString => false
  | String _ s' => endswith p s'
  end.

(** The scan of [s.replace(old, new)] for a non-empty [old]: [skip] counts
    the characters of a match still to be consumed. *)
Fixpoint replace_scan (old new : string) (skip : nat) (s : string) : string :=
  match s with
  | EmptyString => EmptyString
  | String c s' =>
      match skip with
      | S k => replace_scan old new k s'
      | O =>
          if startswith old s
          then new +:+ replace_scan old new (py_len old - 1) s'
          else String c (replace_scan old new 0 s')
      end
  end.

(** With an empty [old], Python puts [new] before every character and at
    the end. *)
Fixpoint replace_empty (new s : string) : string :=
  match s with
  | EmptyString => new
  | String c s' => new +:+ String c (replace_empty new s')
  end.

(** [s.replace(old, new)] *)
Definition replace (old new s : string) : string :=
  match old with
  | EmptyString => replace_empty new s
  | String _ _ => replace_scan old new 0 s
  end.

(** [s.split(sep)] for a one-character separator: always at least one
    field. *)
Fixpoint split (sep : ascii) (s : string) : list string :=
  match s with
  | EmptyString => [EmptyString]
  | String c s' =>
      if ascii_eqb c sep then EmptyString :: split sep s'
      else match split sep s' with
           | w :: ws => String c w :: ws
           | [] => [String c EmptyString]
           end
  end.

(** [sep.join(words)] *)
Fixpoint join (sep : string) (words : list string) : string :=
  match words with
  | [] => EmptyString
  | [w] => w
  | w :: ws => w +:+ sep +:+ join sep ws
  end.

Definition lower_ascii (c : ascii) : ascii :=
  let n := nat_of_ascii c in
  if (65 <=? n)%nat && (n <=? 90)%nat then ascii_of_nat (n + 32) else c.

(** [s.lower()] *)
Fixpoint lower (s : string) : string :=
  match s with
  | EmptyString => EmptyString
  | String c s' => String (lower_ascii c) (lower s')
  end.

(** [s[:-1]] *)
Fixpoint drop_last (s : string) : string :=
  match s with
  | EmptyString => EmptyString
  | String c EmptyString => EmptyString
  | String c s' => String c (drop_last s')
  end.

(** [s[0]] as a string, for a non-empty [s]. *)
Definition first_char (s : string) : string :=
  match s with
  | EmptyString => EmptyString
  | String c _ => String c EmptyString
  end.

Definition digit_char (d : nat) : ascii := ascii_of_nat (48 + d).

(** [str(n)] for a natural number: the digits are produced from the least
    significant one; [fuel] bounds the number of digits. *)
Fixpoint str_digits (fuel n : nat) (acc : string) : string :=
  match fuel with
  | O => acc
  | S f =>
      let acc' := String (digit_char (n mod 10)) acc in
      if (n / 10 =? 0)%nat then acc' else str_digits f (n / 10) acc'
  end.

Definition str_of_nat (n : nat) : string := str_digits (S n) n EmptyString.

(** [x in names] for a list of strings. *)
Definition str_in (x : string) (names : list string) : bool :=
  existsb (String.eqb x) names.

(** ** Sheet-name shortening ([strip_sheet_name]) *)

(** One pass of the [for] loop of [strip_sheet_name] over
    [range(0, len(words) - 1)]: the first word, the last one excepted, that
    is longer than one character is cut to its first character. *)
Fixpoint chop_first_long (words : list string) : list string :=
  match words with
  | [] => []
  | [w] => [w]
  | w :: ws =>
      if (1 <? py_len w)%nat then first_char w :: ws
      else w :: chop_first_long ws
  end.

Definition chop_pass (sheet_name : string) : string :=
  join "_" (chop_first_long (split "_" sheet_name)).

(** The characters of the words of a name. *)
Definition total_len (words : list string) : nat :=
  list_sum (map py_len words).

(** The [while len(sheet_name) > 31 and sheet_name != last_name] loop. *)
Fixpoint chop_loop (fuel : nat) (sheet_name : string) (last_name : option string)
  : string :=
  match fuel with
  | O => sheet_name
  | S f =>
      if (31 <? py_len sheet_name)%nat
         && negb (bool_decide (Some sheet_name = last_name))
      then chop_loop f (chop_pass sheet_name) (Some sheet_name)
      else sheet_name
  end.

(** The four unconditional replacements at the head of [strip_sheet_name]. *)
Definition replace_and (s : string) : string := replace "and" "&" s.
Definition remove_parens (s : string) : string := replace ")" "" (replace "(" "" s).
Definition replace_enrollment (s : string) : string := replace "enrollment" "enroll" s.
Definition replace_change (s : string) : string := replace "change" "chng" s.

Definition strip_replacements (sheet_name : string) : string :=
  replace_change (replace_enrollment (remove_parens (replace_and sheet_name))).

Definition strip_sheet_name (sheet_name : string) : string :=
  let sheet_name := strip_replacements sheet_name in
  chop_loop (S (S (py_len sheet_name))) sheet_name None.

(** ** Failures

    The exceptions the modelled code raises, and [SystemExit] for [exit()]. *)

Inductive error : Type :=
  | SystemExit
  | ValueError
  | AttributeError
  | TypeError
  | IndexError
  | DatabaseError.

Inductive result (A : Type) : Type :=
  | OK (a : A)
  | Err (e : error).
Arguments OK {A} a.
Arguments Err {A} e.

Definition bind {A B : Type} (r : result A) (k : A -> result B) : result B :=
  match r with
  | OK a => k a
  | Err e => Err e
  end.

Notation "'let*' x ':=' r 'in' k" := (bind r (fun x => k))
  (at level 10, x pattern, r at level 100, k at level 200).

(** ** Length-bounded names

    The block [if len(sheet_name) > 31: ...] shared by
    [create_form_spreadsheet] and [generate_case_spreadsheet]: [fallback] is
    the simpler name tried second ([form_name], resp. the case name without
    underscores), [too_long] the failure of the last resort ([exit()], resp.
    [ValueError]). *)

Definition compress (sheet_name fallback : string) (too_long : error)
  : result string :=
  if (31 <? py_len sheet_name)%nat then
    let sheet_name := strip_sheet_name sheet_name in
    if (31 <? py_len sheet_name)%nat then
      let sheet_name := strip_sheet_name fallback in
      if (31 <? py_len sheet_name)%nat then Err too_long
      else OK sheet_name
    else OK sheet_name
  else OK sheet_name.

(** The "standard replacements" applied to every candidate before
    [compress]. *)
Definition standard_replacements (sheet_name : string) : string :=
  replace "-" "" (replace ")" "" (replace "(" "" sheet_name)).

(** ** The name registry ([self.database_table_names])

    [while sheet_name in self.database_table_names]: the last character is
    replaced by the counter. *)

Fixpoint rename_loop (fuel : nat) (names : list string) (sheet_name : string)
    (current_edition : nat) : string :=
  match fuel with
  | O => sheet_name
  | S f =>
      if str_in sheet_name names then
        let current_edition := S current_edition in
        rename_loop f names (drop_last sheet_name +:+ str_of_nat current_edition)
          current_edition
      else sheet_name
  end.

Definition longest (names : list string) : nat :=
  list_max (map py_len names).

(** The loop leaves after at most [longest names + 10] renamings (see
    [reserve_fresh]). *)
Definition reserve (names : list string) (sheet_name : string) : string :=
  rename_loop (longest names + 11) names sheet_name 0.

(** ** Questions and forms

    The scalar entries of a question dictionary as [get_all_forms] fills them
    from the XML: [None] is Python's [None]. Every question element is taken
    to carry its [hashtagValue] and [type] tags, as the platform emits them. *)

Record question : Type := mkQuestion {
  q_id : string;
  q_value : option string;
  q_type : option string;
  q_text : option string;
  q_calculation : option string;
  q_group : bool;
  q_group_member : option string;
  q_loop_member : option string
}.

(** A node of the normalised tree (an entry of [ALL_FORMS.json]): the
    scalars and the three child lists ['groups'], ['loops'], ['questions']. *)
Inductive qnode : Type :=
  | QNode (q : question) (groups loops questions : list qnode).

Definition node_q (n : qnode) : question := let (q, _, _, _) := n in q.
Definition node_groups (n : qnode) : list qnode := let (_, g, _, _) := n in g.
Definition node_loops (n : qnode) : list qnode := let (_, _, l, _) := n in l.
Definition node_questions (n : qnode) : list qnode := let (_, _, _, q) := n in q.

(** The root dictionary of a form: [value] is [None], and so is everything
    else but the child lists. *)
Definition form_obj_question : question :=
  mkQuestion "" None None None None false None None.

Record form : Type := mkForm {
  form_name : string;
  form_xmlns : string;
  form_root : qnode
}.

(** ** Flattening

    An entry of ['columns'] and the dictionary [spreadsheet_relationships].
    The workbook written alongside is left out, the data source of its cell
    [A2] excepted. *)

Record column_spec : Type := mkColumn {
  question_id : string;
  question_text : option string;
  question_type : option string;
  calculation : option string;
  database_column : string
}.

Inductive sheet : Type :=
  | Sheet (sheet_form_name spreadsheet_file table_target : string)
          (columns : list column_spec) (children : list sheet).

Definition sheet_name_of (s : sheet) : string := let (n, _, _, _, _) := s in n.
Definition sheet_file (s : sheet) : string := let (_, f, _, _, _) := s in f.
Definition sheet_target (s : sheet) : string := let (_, _, t, _, _) := s in t.
Definition sheet_columns (s : sheet) : list column_spec := let (_, _, _, c, _) := s in c.
Definition sheet_children (s : sheet) : list sheet := let (_, _, _, _, c) := s in c.

Definition auto_column (qid dbcol : string) : column_spec :=
  mkColumn qid (Some "") (Some "Hidden") (Some "auto-generated") dbcol.

(** The columns every sheet starts with. *)
Definition system_columns (is_loop : bool) : list column_spec :=
  [ auto_column "id" "id";
    auto_column "recieved_on" "received_on";
    auto_column "case_id" "case_id";
    auto_column "username" "meta_username";
    auto_column "app_id" "meta_app_id";
    auto_column "device_id" "meta_device_id";
    auto_column "gps_location" "meta_gps" ]
  ++ (if is_loop
      then [ auto_column "parent_form_id" "parent_form_id" ]
      else [ auto_column "started_time" "meta_started_time";
             auto_column "completed_time" "meta_completed_time" ]).

(** [s.split('.')[-1]] *)
Definition last_field (sep : ascii) (s : string) : string :=
  List.last (split sep s) EmptyString.

Definition db_column_name (qid : string) : string :=
  let n := replace "-" "_" (replace "/" "." (lower qid)) in
  if contains "." n then last_field "." n else n.

Definition question_column (q : question) : column_spec :=
  mkColumn (q_id q) (q_text q) (q_type q) (q_calculation q)
           (db_column_name (q_id q)).

(** The data source written to cell [A2]. *)
Definition data_source (is_loop : bool) (qid : string) : string :=
  if is_loop then
    let updated_sources :=
      map (fun source => if contains "loop" source then source +:+ "[*]" else source)
          (split "." (replace "/" "." qid)) in
    "form.form." +:+ join "." updated_sources +:+ "[*]"
  else "form".

(** [get_group_questions]: the questions of a group and of the groups below
    it; a loop below a group is handed to [self.generate_spreadsheets], a
    method the class does not have. The ['form_column'] entries go to the
    workbook only. *)
Fixpoint get_group_questions (group_object : qnode)
  : result (list column_spec * list sheet) :=
  match group_object with
  | QNode _ groups loops questions =>
      let question_list := map (fun n => question_column (node_q n)) questions in
      let* (question_list, children) :=
        (fix each_group (gs : list qnode) (acc : list column_spec * list sheet) :=
           match gs with
           | [] => OK acc
           | g :: gs' =>
               let* group_info := get_group_questions g in
               each_group gs' (fst acc ++ fst group_info, snd acc ++ snd group_info)
           end) groups (question_list, []) in
      match loops with
      | [] => OK (question_list, children)
      | _ :: _ => Err AttributeError
      end
  end.

(** The columns the groups of a scope add to its sheet. *)
Fixpoint groups_columns (groups : list qnode) (acc : list column_spec * list sheet)
  : result (list column_spec * list sheet) :=
  match groups with
  | [] => OK acc
  | g :: gs =>
      let* group_info := get_group_questions g in
      groups_columns gs (fst acc ++ fst group_info, snd acc ++ snd group_info)
  end.

(** [create_form_spreadsheet]: the sheet of one scope, and the registry
    with its name added. *)
Definition create_form_spreadsheet (form_information : qnode) (name : string)
    (is_loop : bool) (parent_name : string) (database_table_names : list string)
  : result (sheet * list string) :=
  let form_name := lower (replace "/" "_" (replace " " "_" name)) in
  let parent_name :=
    if bool_decide (parent_name = "") then parent_name else parent_name +:+ "_" in
  let sheet_name := standard_replacements (parent_name +:+ form_name) in
  let* sheet_name := compress sheet_name form_name SystemExit in
  let sheet_name := reserve database_table_names sheet_name in
  let database_table_names := database_table_names ++ [sheet_name] in
  let columns :=
    system_columns is_loop
    ++ map (fun n => question_column (node_q n)) (node_questions form_information) in
  let* (columns, children) :=
    groups_columns (node_groups form_information) (columns, []) in
  OK (Sheet name (form_name +:+ ".xlsx") sheet_name columns children,
      database_table_names).

(** [generate_form_spreadsheet]: the sheet of a scope, then one child sheet
    per loop of the scope, named after the loop's id. *)
Fixpoint generate_form_spreadsheet (form_information : qnode) (name : string)
    (is_loop : bool) (parent_name : string) (database_table_names : list string)
  : result (sheet * list string) :=
  let* (spreadsheet_relationships, database_table_names) :=
    create_form_spreadsheet form_information name is_loop parent_name
      database_table_names in
  match spreadsheet_relationships with
  | Sheet fname file target columns children =>
      let* (children, database_table_names) :=
        (fix each_loop (ls : list qnode) (acc : list sheet * list string) :=
           match ls with
           | [] => OK acc
           | loop_member :: ls' =>
               let* (sheet_child, names) :=
                 generate_form_spreadsheet loop_member (q_id (node_q loop_member))
                   true target (snd acc) in
               each_loop ls' (fst acc ++ [sheet_child], names)
           end) (node_loops form_information) (children, database_table_names) in
      OK (Sheet fname file target columns children, database_table_names)
  end.

(** ** Cases *)

(** A module of the application structure, as far as [get_all_cases] reads
    it, and an entry of [ALL_CASES.json]. *)
Record app_module : Type := mkModule {
  case_type : string;
  case_properties : list string
}.

Record case_spec : Type := mkCase {
  case_name : string;
  properties : list string
}.

Definition case_known (name : string) (case_list : list case_spec) : bool :=
  existsb (fun case_obj => String.eqb (case_name case_obj) name) case_list.

(** The loop of [get_all_cases] over the modules. *)
Fixpoint collect_cases (modules : list app_module) (case_list : list case_spec)
  : list case_spec :=
  match modules with
  | [] => case_list
  | module :: modules' =>
      if String.eqb (case_type module) "" then collect_cases modules' case_list
      else if case_known (case_type module) case_list
      then collect_cases modules' case_list
      else
        let new_case :=
          mkCase (case_type module)
                 (List.filter (fun case_property => negb (startswith "parent/" case_property))
                         (case_properties module)) in
        collect_cases modules' (case_list ++ [new_case])
  end.

Definition get_all_cases (modules : list app_module) : list case_spec :=
  collect_cases modules [].

(** [generate_case_spreadsheet], as far as the registry goes: the sheet name
    of a case and the registry with it appended. *)
Definition generate_case_spreadsheet (case_information : case_spec)
    (database_table_names : list string) : result (string * list string) :=
  let case_name := "case_" +:+ lower (case_name case_information) in
  let sheet_name := standard_replacements case_name in
  let* sheet_name := compress sheet_name (replace "_" "" case_name) ValueError in
  OK (sheet_name, database_table_names ++ [sheet_name]).

(** ** A run ([handle])

    The cases first, then the forms, over one registry. *)

Fixpoint each_case (cases : list case_spec) (database_table_names : list string)
  : result (list string) :=
  match cases with
  | [] => OK database_table_names
  | case_obj :: cases' =>
      let* (_, names) := generate_case_spreadsheet case_obj database_table_names in
      each_case cases' names
  end.

Fixpoint each_form (forms : list form) (form_relations : list sheet)
    (database_table_names : list string) : result (list sheet * list string) :=
  match forms with
  | [] => OK (form_relations, database_table_names)
  | f :: forms' =>
      let* (sheet_relationships, names) :=
        generate_form_spreadsheet (form_root f) (form_name f) false ""
          database_table_names in
      each_form forms' (form_relations ++ [sheet_relationships]) names
  end.

(** The sheets ([SHEET_RELS.json]) and the registry ([DB_TABLES.json]) of a
    run. *)
Definition handle (cases : list case_spec) (forms : list form)
  : result (list sheet * list string) :=
  let* names := each_case cases [] in
  each_form forms [] names.

(** ** Tree normalisation ([get_all_forms])

    The question dictionaries are shared objects: [find_parent] returns a
    reference into the tree under construction and the [append]s go through
    it. The objects live in a store, a child list holds addresses; address
    [0] is the form's own dictionary. *)

Record hnode : Type := mkHnode {
  h_q : question;
  h_groups : list nat;
  h_loops : list nat;
  h_questions : list nat
}.

Definition store : Type := list hnode.

Definition first_some {A B : Type} (f : A -> option B) : list A -> option B :=
  fix go (l : list A) : option B :=
    match l with
    | [] => None
    | x :: l' => match f x with
                 | Some y => Some y
                 | None => go l'
                 end
    end.

(** [find_parent]: the object itself, then its groups, then its loops.
    [fuel] bounds the depth of the descent; a child is always younger than
    its parent, so the size of the store is enough. *)
Fixpoint find_parent (fuel : nat) (h : store) (form_obj : nat)
    (parent_name : option string) : option nat :=
  match fuel with
  | O => None
  | S f =>
      match h !! form_obj with
      | None => None
      | Some n =>
          if bool_decide (q_value (h_q n) = parent_name) then Some form_obj
          else
            match first_some (fun g => find_parent f h g parent_name) (h_groups n) with
            | Some obj => Some obj
            | None => first_some (fun l => find_parent f h l parent_name) (h_loops n)
            end
      end
  end.

(** [if new_question['group_member']: group_name = ...]: [None] and the
    empty string leave the name at [None]. *)
Definition hint (member : option string) : option string :=
  match member with
  | Some s => if bool_decide (s = "") then None else Some s
  | None => None
  end.

(** "now figure out which parent to look for..." *)
Definition resolve_parent_name (group_name loop_name : option string)
  : option string :=
  match group_name with
  | Some g =>
      match loop_name with
      | Some l =>
          if contains l g && (py_len l <? py_len g)%nat then Some g else Some l
      | None => Some g
      end
  | None => None
  end.

Definition append_group (child : nat) (n : hnode) : hnode :=
  mkHnode (h_q n) (h_groups n ++ [child]) (h_loops n) (h_questions n).
Definition append_loop (child : nat) (n : hnode) : hnode :=
  mkHnode (h_q n) (h_groups n) (h_loops n ++ [child]) (h_questions n).
Definition append_question (child : nat) (n : hnode) : hnode :=
  mkHnode (h_q n) (h_groups n) (h_loops n) (h_questions n ++ [child]).

Definition is_type (t : string) (q : question) : bool :=
  bool_decide (q_type q = Some t).

(** The body of the loop over the questions of a form, from "find the parent
    object" on: the three [if]s follow one another. The new object gets the
    next free address. *)
Definition place_question (h : store) (new_question : question) : result store :=
  let group_name := hint (q_group_member new_question) in
  let loop_name := hint (q_loop_member new_question) in
  let parent_name := resolve_parent_name group_name loop_name in
  let parent_group := find_parent (S (length h)) h 0 parent_name in
  if is_type "Trigger" new_question then OK h
  else
    match parent_group with
    | None => Err TypeError
    | Some p =>
        let child := length h in
        let h := h ++ [mkHnode new_question [] [] []] in
        let h :=
          if q_group new_question && negb (is_type "Repeat" new_question)
          then alter (append_group child) p h else h in
        let h :=
          if is_type "Repeat" new_question
          then alter (append_loop child) p h else h in
        let h :=
          if negb (q_group new_question)
          then alter (append_question child) p h else h in
        OK h
    end.

Fixpoint place_questions (h : store) (questions : list question) : result store :=
  match questions with
  | [] => OK h
  | q :: questions' =>
      let* h := place_question h q in
      place_questions h questions'
  end.

(** The store of a form after all its questions. *)
Definition normalize (questions : list question) : result store :=
  place_questions [mkHnode form_obj_question [] [] []] questions.

(** No object of type "Trigger". *)
Definition not_trigger (n : hnode) : Prop := q_type (h_q n) <> Some "Trigger".

(** Every group and loop of an object is younger than the object: its
    address is larger. *)
Definition younger (h : store) : Prop :=
  forall i n, h !! i = Some n ->
    forall c, In c (h_groups n ++ h_loops n) -> i < c.

(** The tree that [json.dumps] writes for the object at an address. *)
Fixpoint dump (fuel : nat) (h : store) (obj : nat) : option qnode :=
  match fuel with
  | O => None
  | S f =>
      n ← h !! obj;
      groups ← mapM (dump f h) (h_groups n);
      loops ← mapM (dump f h) (h_loops n);
      questions ← mapM (dump f h) (h_questions n);
      Some (QNode (h_q n) groups loops questions)
  end.

Definition dump_form (h : store) : option qnode := dump (S (length h)) h 0.

(** ** Storage

    The database as the reconciler sees it: a table is its columns with
    their declared types, of the four kinds the program creates. The order
    in which a catalog query without [ORDER BY] lists them is not fixed by
    SQL; the model takes the order of [map_to_list]. Catalog rows of
    PostgreSQL's own system columns are not modelled. *)

Inductive sqltype : Type :=
  | CharacterVarying (n : Z)
  | Text
  | Timestamp
  | Boolean.

#[global] Instance sqltype_eq_dec : EqDecision sqltype.
Proof. solve_decision. Defined.

Abbreviation table := (gmap string sqltype).
Abbreviation database := (gmap string (gmap string sqltype)).

(** The schema-changing statements. *)
Inductive ddl : Type :=
  | CreateTable (t : string) (cols : list (string * sqltype))
  | AddColumn (t c : string) (ty : sqltype)
  | AlterIdType (t : string) (n : Z)
  | DropColumn (t c : string).

(** A connection: what its cursor sees, what has been committed, and the
    schema-changing statements sent so far. A connection that is dropped
    leaves the committed state behind. *)
Record session : Type := mkSession {
  live : database;
  durable : database;
  issued : list ddl
}.

Definition connect (db : database) : session := mkSession db db [].

Definition commit (s : session) : session :=
  mkSession (live s) (live s) (issued s).

Definition sent (op : ddl) (s : session) (db : database) : session :=
  mkSession db (durable s) (issued s ++ [op]).

Definition no_dup_names (names : list string) : bool :=
  bool_decide (NoDup names).

(** What the server does with a statement; a rejected statement changes
    nothing. *)
Definition execute (op : ddl) (s : session) : result session :=
  match op with
  | CreateTable t cols =>
      match live s !! t with
      | Some _ => Err DatabaseError
      | None =>
          if no_dup_names (map fst cols)
          then OK (sent op s (<[t := list_to_map cols]> (live s)))
          else Err DatabaseError
      end
  | AddColumn t c ty =>
      match live s !! t with
      | None => Err DatabaseError
      | Some tb =>
          match tb !! c with
          | Some _ => Err DatabaseError
          | None => OK (sent op s (<[t := <[c := ty]> tb]> (live s)))
          end
      end
  | AlterIdType t n =>
      match live s !! t with
      | None => Err DatabaseError
      | Some tb =>
          match tb !! "id" with
          | None => Err DatabaseError
          | Some _ => OK (sent op s (<[t := <["id" := CharacterVarying n]> tb]> (live s)))
          end
      end
  | DropColumn t c =>
      match live s !! t with
      | None => Err DatabaseError
      | Some tb =>
          match tb !! c with
          | None => Err DatabaseError
          | Some _ => OK (sent op s (<[t := delete c tb]> (live s)))
          end
      end
  end.

(** What a call leaves behind: how it ended, the committed database, the
    statements it sent. *)
Record run : Type := mkRun {
  outcome : result unit;
  db_after : database;
  statements : list ddl
}.

Definition finish (r : result unit) (s : session) : run :=
  mkRun r (durable s) (issued s).

(** [l[1:-1]] *)
Definition inner {A : Type} (l : list A) : list A :=
  removelast (tail l).

(** [l.remove(x)] for an [x] known to occur. *)
Fixpoint remove_first (x : string) (l : list string) : list string :=
  match l with
  | [] => []
  | y :: l' => if String.eqb x y then l' else y :: remove_first x l'
  end.

(** The rows of [SELECT attname FROM pg_attribute ...] for a table, the
    names in [excluded] left out; no row at all for a table that does not
    exist. *)
Definition column_names (db : database) (t : string) (excluded : list string)
  : list string :=
  match db !! t with
  | None => []
  | Some tb =>
      List.filter (fun c => negb (str_in c excluded)) (map_to_list tb).*1
  end.

Definition column_type (db : database) (t c : string) : option sqltype :=
  tb ← db !! t; tb !! c.

(** [character_maximum_length] of a column: [NULL] unless the type is
    [character varying(n)]. *)
Definition character_maximum_length (ty : sqltype) : option Z :=
  match ty with
  | CharacterVarying n => Some n
  | _ => None
  end.

(** Comparing a column with [''] makes the server read [''] at the column's
    type, which fails for a timestamp or a boolean. *)
Definition comparable_with_text (ty : sqltype) : bool :=
  match ty with
  | CharacterVarying _ | Text => true
  | Timestamp | Boolean => false
  end.

(** [if column in existing_column_list: existing_column_list.remove(column)] *)
Definition strike (column : string) (existing_column_list : list string)
  : list string :=
  if str_in column existing_column_list
  then remove_first column existing_column_list
  else existing_column_list.

(** What is left of the existing columns after the loop over the columns
    of the sheet. *)
Definition legacy_columns (columns existing : list string) : list string :=
  fold_left (fun existing column => strike column existing) columns existing.

Section Reconciler.

(** [settings.MAX_CHARVAR_LENGTH] *)
Variable MAX_CHARVAR_LENGTH : Z.

(** The column list of the [CREATE TABLE] statement of [create_table]:
    [columns[-1]] fails on an empty list. *)
Definition create_statement (t : string) (id_type : sqltype)
    (columns : list string) : result ddl :=
  match columns with
  | [] => Err IndexError
  | _ :: _ =>
      OK (CreateTable t
            ([("id", id_type); ("imported_on", Timestamp)]
             ++ map (fun column => (column, Text)) (inner columns)
             ++ [(List.last columns "", Text)]))
  end.

Definition create_table (table_target : string) (columns : list string)
    (s : session) : result session :=
  let* create_sql :=
    create_statement table_target (CharacterVarying MAX_CHARVAR_LENGTH) columns in
  execute create_sql s.

(** [confirm_table_schema], for either kind of table: [create] is
    [create_table] or [create_case_table]. *)
Definition confirm_schema (create : session -> result session)
    (t : string) (db : database) : run :=
  let s := connect db in
  match live s !! t with
  | Some _ => finish (OK tt) s
  | None =>
      match create s with
      | OK s' => finish (OK tt) (commit s')
      | Err e => finish (Err e) s
      end
  end.

Definition confirm_table_schema (table_target : string) (columns : list string)
    (db : database) : run :=
  confirm_schema (create_table table_target columns) table_target db.

(** The body of the loop of [confirm_table_columns] over the columns of the
    sheet, for one column. *)
Definition confirm_column (t : string) (column : string)
    (st : list string * session) : result (list string) * session :=
  let (existing_column_list, s) := st in
  let existing_column_list := strike column existing_column_list in
  match column_type (live s) t column with
  | Some ty =>
      let widened :=
        if String.eqb column "id" then
          match character_maximum_length ty with
          | None => Err TypeError
          | Some max_length =>
              if (max_length <? MAX_CHARVAR_LENGTH)%Z
              then execute (AlterIdType t MAX_CHARVAR_LENGTH) s
              else OK s
          end
        else OK s in
      match widened with
      | Err e => (Err e, s)
      | OK s' =>
          match column_type (live s') t column with
          | Some ty' =>
              if comparable_with_text ty' then (OK existing_column_list, s')
              else (Err DatabaseError, s')
          | None => (Err DatabaseError, s')
          end
      end
  | None =>
      match execute (AddColumn t column Text) s with
      | Err e => (Err e, s)
      | OK s' => (OK existing_column_list, commit s')
      end
  end.

Fixpoint confirm_columns (t : string) (columns : list string)
    (st : list string * session) : result (list string) * session :=
  match columns with
  | [] => (OK (fst st), snd st)
  | column :: columns' =>
      match confirm_column t column st with
      | (OK existing_column_list, s) =>
          confirm_columns t columns' (existing_column_list, s)
      | (Err e, s) => (Err e, s)
      end
  end.

(** "anything left in existing_column_list should only be legacy columns" *)
Fixpoint drop_columns (t : string) (legacy : list string) (s : session)
  : result unit * session :=
  match legacy with
  | [] => (OK tt, s)
  | c :: legacy' =>
      match execute (DropColumn t c) s with
      | Err e => (Err e, s)
      | OK s' => drop_columns t legacy' s'
      end
  end.

Definition confirm_table_columns (table_target : string) (columns : list string)
    (db : database) : run :=
  let s := connect db in
  let existing_column_list := column_names (live s) table_target ["imported_on"] in
  match confirm_columns table_target columns (existing_column_list, s) with
  | (Err e, s) => finish (Err e) s
  | (OK legacy, s) =>
      match drop_columns table_target legacy s with
      | (Err e, s) => finish (Err e) s
      | (OK _, s) => finish (OK tt) (commit s)
      end
  end.

(** Reconciling a sheet, as [generate_form_model] does: the second call is
    not reached when the first fails. *)
Definition reconcile (table_target : string) (columns : list string)
    (db : database) : run :=
  let r := confirm_table_schema table_target columns db in
  match outcome r with
  | Err e => r
  | OK _ =>
      let r' := confirm_table_columns table_target columns (db_after r) in
      mkRun (outcome r') (db_after r') (statements r ++ statements r')
  end.

Definition reconcile_sheet (form_data : sheet) (db : database) : run :=
  reconcile (sheet_target form_data)
    (map database_column (sheet_columns form_data)) db.

(** The key column, when it is a [character varying], is as wide as the
    configured bound. *)
Definition wide_enough (tb : table) : Prop :=
  forall m, tb !! "id" = Some (CharacterVarying m) -> (MAX_CHARVAR_LENGTH <= m)%Z.

(** A table is in step with a sheet when it has every column of the sheet,
    no other column but [imported_on], and a key that is wide enough. *)
Definition in_step (columns : list string) (tb : table) : Prop :=
  (forall c, In c columns -> is_Some (tb !! c))
  /\ (forall x, is_Some (tb !! x) -> x = "imported_on" \/ In x columns)
  /\ (In "id" columns -> wide_enough tb).

End Reconciler.

(** [create_case_table]: the key column is always [CHARACTER VARYING(255)]. *)
Definition create_case_table (t : string) (properties : list string)
    (s : session) : result session :=
  let* create_sql := create_statement t (CharacterVarying 255) properties in
  execute create_sql s.

Definition confirm_case_table_schema (t : string) (case_data : case_spec)
    (db : database) : run :=
  confirm_schema (create_case_table t (properties case_data)) t db.

(** ** Sample nodes *)

Definition text_question (qid : string) : qnode :=
  QNode (mkQuestion qid (Some ("/data/" +:+ qid)) (Some "Text") (Some qid) None
           false None None) [] [] [].

Definition repeat_node (qid : string) (questions : list qnode) : qnode :=
  QNode (mkQuestion qid (Some ("/data/" +:+ qid)) (Some "Repeat") None None
           true None None) [] [] questions.

Definition group_node (qid : string) (loops questions : list qnode) : qnode :=
  QNode (mkQuestion qid (Some ("/data/" +:+ qid)) (Some "Group") None None
           true None None) [] loops questions.

(** ** Characters of names *)

(** An upper-case ASCII letter. *)
Definition is_upper (c : ascii) : bool :=
  (65 <=? nat_of_ascii c)%nat && (nat_of_ascii c <=? 90)%nat.

(** The characters of a string. *)
Definition chars (s : string) : list ascii := list_ascii_of_string s.

(** The replacements that make a file name of a model name. *)
Definition model_file_of (name : string) : string :=
  replace ")" ""
    (replace "(" ""
       (replace "&" "and"
          (replace "-" "_" (replace " " "_" (replace "/" "_" name))))).

(** [generate_form_model]: the name of the module file of a form. *)
Definition model_file_name (form_name : string) : string :=
  model_file_of (lower form_name +:+ ".py").

(** [generate_case_model]: the name of the module file of a case. *)
Definition case_model_file_name (case_name : string) : string :=
  model_file_of ("case_" +:+ lower case_name +:+ ".py").

(** Names that Python and the model read alike: [len] counts characters
    and [lower] follows Unicode, the model counts bytes and folds [A-Z]. *)
Definition is_ascii (s : string) : bool :=
  forallb (fun c => (nat_of_ascii c <? 128)%nat) (chars s).

(** ** Where a case comes from *)

(** The properties [get_all_cases] keeps of a module. *)
Definition own_properties (module : app_module) : list string :=
  List.filter (fun case_property => negb (startswith "parent/" case_property))
              (case_properties module).

(** Where a case comes from: the first module of its type. *)
Definition first_module_of (modules : list app_module) (c : case_spec) : Prop :=
  exists before m after,
    modules = before ++ m :: after
    /\ case_type m = case_name c
    /\ ~ In (case_name c) (map case_type before)
    /\ properties c = own_properties m.

(** ** The shape of a normalised form *)

(** What the three [if]s of [get_all_forms] make of the parent of a new
    question stored at [child]. *)
Definition adopt (new_question : question) (child : nat) (n : hnode) : hnode :=
  mkHnode (h_q n)
    (h_groups n ++ if q_group new_question && negb (is_type "Repeat" new_question)
                   then [child] else [])
    (h_loops n ++ if is_type "Repeat" new_question then [child] else [])
    (h_questions n ++ if negb (q_group new_question) then [child] else []).

(** The child lists keep to their kinds. *)
Definition sorted_children (h : store) : Prop :=
  forall i n, h !! i = Some n ->
    (forall c, In c (h_groups n) ->
       exists m, h !! c = Some m
                 /\ q_group (h_q m) = true /\ is_type "Repeat" (h_q m) = false)
    /\ (forall c, In c (h_loops n) ->
          exists m, h !! c = Some m /\ is_type "Repeat" (h_q m) = true)
    /\ (forall c, In c (h_questions n) ->
          exists m, h !! c = Some m /\ q_group (h_q m) = false).

(** How often an address is held by the child lists of an object, and of
    the whole store. *)
Definition node_refs (n : hnode) (c : nat) : nat :=
  count_occ Nat.eq_dec (h_groups n ++ h_loops n ++ h_questions n) c.

Definition refs (h : store) (c : nat) : nat :=
  list_sum (map (fun n => node_refs n c) h).

(** The objects the search of [find_parent] can come to from an object: the
    object itself, its groups and loops, and theirs. *)
Inductive below (h : store) : nat -> nat -> Prop :=
  | below_refl (i : nat) : below h i i
  | below_step (i c j : nat) (n : hnode) :
      h !! i = Some n -> In c (h_groups n ++ h_loops n) -> below h c j ->
      below h i j.

(** How many child lists a kept question is appended to. *)
Definition placements (q : question) : nat :=
  if is_type "Repeat" q && negb (q_group q) then 2 else 1.

(** What the count of an address is to be. *)
Definition held (h : store) (c : nat) : nat :=
  if (c =? 0)%nat then 0
  else match h !! c with
       | Some n => placements (h_q n)
       | None => 0
       end.

(** An object that the search can be asked for: the form's own dictionary,
    a group or a repeat. *)
Definition searchable (j : nat) (n : hnode) : Prop :=
  j = 0 \/ q_group (h_q n) = true \/ is_type "Repeat" (h_q n) = true.

(** Every searchable object of the store is below the form's dictionary. *)
Definition all_below (h : store) : Prop :=
  forall j n, h !! j = Some n -> searchable j n -> below h 0 j.

(** Every child of an object is an object of the store, younger than its
    parent: the store holds no cycle. *)
Definition acyclic (h : store) : Prop :=
  forall i n, h !! i = Some n ->
    forall c, In c (h_groups n ++ h_loops n ++ h_questions n) ->
      i < c /\ c < length h.

(** ** Scopes, loops and the registry *)

(** A repeat in a group, at any depth below it. *)
Fixpoint has_loop (group_object : qnode) : bool :=
  match group_object with
  | QNode _ groups loops _ =>
      existsb has_loop groups || match loops with [] => false | _ :: _ => true end
  end.

(** The columns of the questions of a scope and of its groups, at any
    depth: the questions first, then group by group. *)
Fixpoint scope_columns (n : qnode) : list column_spec :=
  match n with
  | QNode _ groups _ questions =>
      map (fun m => question_column (node_q m)) questions
      ++ flat_map scope_columns groups
  end.

(** The loop of [generate_form_spreadsheet] over the loops of a scope. *)
Definition each_loop (target : string)
  : list qnode -> list sheet * list string -> result (list sheet * list string) :=
  fix each_loop (ls : list qnode) (acc : list sheet * list string) :=
    match ls with
    | [] => OK acc
    | loop_member :: ls' =>
        let* (sheet_child, names) :=
          generate_form_spreadsheet loop_member (q_id (node_q loop_member))
            true target (snd acc) in
        each_loop ls' (fst acc ++ [sheet_child], names)
    end.

(** The table names of a sheet and of the sheets below it. *)
Fixpoint sheet_targets (s : sheet) : list string :=
  match s with
  | Sheet _ _ target _ children => target :: flat_map sheet_targets children
  end.

(** Names that are new to a registry, and distinct. *)
Definition fresh_names (names new : list string) : Prop :=
  NoDup new /\ forall t, In t new -> ~ In t names.

(** The names a scope and the loops below it add to the registry. *)
Definition registers (node : qnode) : Prop :=
  forall name is_loop parent_name names sh names',
    generate_form_spreadsheet node name is_loop parent_name names = OK (sh, names') ->
    names' = names ++ sheet_targets sh /\ fresh_names names (sheet_targets sh).

(** ** Duplicate columns ([find_duplicate_columns]) *)

(** An entry [{'id': ..., 'text': ...}]. *)
Record column_ref : Type := mkRef {
  ref_id : string;
  ref_text : option string
}.

(** The body of the loop over the columns of a sheet: the dictionaries
    [existing_columns] and [duplicate_columns]. *)
Definition note_column
    (st : gmap string column_ref * gmap string (list column_ref))
    (column : column_spec)
  : gmap string column_ref * gmap string (list column_ref) :=
  let (existing_columns, duplicate_columns) := st in
  let entry := mkRef (database_column column) (question_text column) in
  match existing_columns !! database_column column with
  | Some first_seen =>
      let duplicate_columns :=
        match duplicate_columns !! database_column column with
        | Some _ => duplicate_columns
        | None => <[database_column column := [first_seen]]> duplicate_columns
        end in
      (existing_columns,
       alter (fun l => l ++ [entry]) (database_column column) duplicate_columns)
  | None =>
      (<[database_column column := entry]> existing_columns, duplicate_columns)
  end.

(** [duplicate_columns.update(...)] child by child: an entry of a child
    replaces one of the same name. *)
Fixpoint find_duplicate_columns (form : sheet) : gmap string (list column_ref) :=
  match form with
  | Sheet _ _ _ columns children =>
      fold_left
        (fun duplicate_columns child =>
           find_duplicate_columns child ∪ duplicate_columns)
        children
        (snd (fold_left note_column columns (∅, ∅)))
  end.

(** ** Looking a sheet up ([get_form_info], [get_form_table]) *)

Fixpoint get_form_info (sheet_name : string) (form_data : sheet) : option sheet :=
  match form_data with
  | Sheet _ file _ _ children =>
      if String.eqb file sheet_name then Some form_data
      else first_some (get_form_info sheet_name) children
  end.

(** [get_form_table], from the list read from [SHEET_RELS.json] on. *)
Definition get_form_table (rels_json : list sheet) (sheet_name : string)
  : option sheet :=
  first_some (get_form_info sheet_name) rels_json.

(** A sheet and the sheets below it, parents before children. *)
Fixpoint sheets_of (s : sheet) : list sheet :=
  match s with
  | Sheet _ _ _ _ children => s :: flat_map sheets_of children
  end.

(** How often a name is among the database columns of a sheet. *)
Definition occurrences (c : string) (s : sheet) : nat :=
  count_occ string_dec (map database_column (sheet_columns s)) c.

(** ** Case tables ([confirm_case_table_columns]) *)

(** [case_info['properties']] after the four [append]s. *)
Definition case_columns (properties : list string) : list string :=
  properties ++ ["imported_on"; "opened_date"; "closed"; "owner_id"].

(** The type a missing column of a case table is added with. *)
Definition case_column_type (case_property : string) : sqltype :=
  if String.eqb case_property "closed" then Boolean else Text.

(** The body of the loop over the properties, for one property. *)
Definition confirm_case_column (t : string) (case_property : string)
    (st : list string * session) : result (list string) * session :=
  let (existing_column_list, s) := st in
  let existing_column_list := strike case_property existing_column_list in
  match column_type (live s) t case_property with
  | Some _ => (OK existing_column_list, s)
  | None =>
      match execute (AddColumn t case_property (case_column_type case_property)) s with
      | Err e => (Err e, s)
      | OK s' => (OK existing_column_list, commit s')
      end
  end.

Fixpoint confirm_case_columns (t : string) (case_properties : list string)
    (st : list string * session) : result (list string) * session :=
  match case_properties with
  | [] => (OK (fst st), snd st)
  | case_property :: case_properties' =>
      match confirm_case_column t case_property st with
      | (OK existing_column_list, s) =>
          confirm_case_columns t case_properties' (existing_column_list, s)
      | (Err e, s) => (Err e, s)
      end
  end.

Definition confirm_case_table_columns (t : string) (properties : list string)
    (db : database) : run :=
  let s := connect db in
  let existing_column_list :=
    column_names (live s) t ["imported_on"; "id"; "closed"] in
  match confirm_case_columns t (case_columns properties) (existing_column_list, s) with
  | (Err e, s) => finish (Err e) s
  | (OK legacy, s) =>
      match drop_columns t legacy s with
      | (Err e, s) => finish (Err e) s
      | (OK _, s) => finish (OK tt) (commit s)
      end
  end.

(** The table a pass over a case table leaves: a column of the case is kept
    as it is or added, the key is kept, anything else is dropped. *)
Definition case_table_after (properties : list string) (tb : table) (x : string)
  : option sqltype :=
  if str_in x (case_columns properties) then
    match tb !! x with
    | Some ty => Some ty
    | None => Some (case_column_type x)
    end
  else if String.eqb x "id" then tb !! x
  else None.

(** What one property does to the table. *)
Definition ensure_case_column (x : string) (tb : table) : table :=
  match tb !! x with
  | Some _ => tb
  | None => <[x := case_column_type x]> tb
  end.

(** ** Created tables and kept columns *)

(** The columns of the [CREATE TABLE] statement for a sheet whose first
    column is the key: the key, [imported_on], and the other columns of the
    sheet as [TEXT]. *)
Definition created_columns (id_type : sqltype) (rest : list string)
  : list (string * sqltype) :=
  ("id", id_type) :: ("imported_on", Timestamp) :: map (fun c => (c, Text)) rest.

(** What [columns[1:-1]] and [columns[-1]] keep of a list: all but the
    first, or the only one. *)
Definition after_first (columns : list string) : list string :=
  match columns with
  | [] => []
  | [c] => [c]
  | _ :: rest => rest
  end.

(** A table keeps the columns of another: each is still there, with its
    type, the key apart, whose type may have changed. *)
Definition keeps (tb tb' : table) : Prop :=
  forall x ty, tb !! x = Some ty ->
    exists ty', tb' !! x = Some ty' /\ (x <> "id" -> ty' = ty).

(** What a table has beyond another is [TEXT], the key apart. *)
Definition adds_text (tb tb' : table) : Prop :=
  forall x ty, tb' !! x = Some ty -> x <> "id" ->
    tb !! x = Some ty \/ (tb !! x = None /\ ty = Text).

(** ** Identifiers as PostgreSQL reads them

    The storage model above takes a name as the program spells it. The
    server does not: it keeps the first 63 bytes of an identifier
    ([NAMEDATALEN - 1]), in a statement and in a comparison with a catalog
    column of type [name] alike, whereas Python's [in] and [==] compare
    whole strings. The catalog queries of the column passes find the table
    by [relname] alone, in whatever schema, and a subquery used as a value
    fails when it has more than one row. An unqualified ["table"] in a
    statement is looked up on the search path, [pg_catalog] before
    [public]. A table has, beside its columns, rows in [pg_attribute] for
    its six system columns, which no column may be named after. This is
    PostgreSQL 12 and later.

    The module has the storage functions of [utils.py] once more, over a
    server that follows these rules. A cluster is the tables of [public],
    as before, and the other relations its catalog knows: those of other
    schemas, and the views and indexes of [public]. The SQL text itself is
    not modelled: a name is taken to hold no quote character. On a table
    name that no other relation bears and on column names that fit, the
    two servers do the same (section "The two servers" below). *)

Module Pg.

Definition NAMEDATALEN : nat := 64.

(** What the server keeps of an identifier. *)
Definition ident (name : string) : string :=
  String.substring 0 (NAMEDATALEN - 1) name.

Inductive relkind : Type :=
  | OrdinaryTable
  | View
  | Index.

(** A row of [pg_class], with the rows of [pg_attribute] that have
    [attnum > 0]. *)
Record relation : Type := mkRelation {
  relnamespace : string;
  relname : string;
  kind : relkind;
  attributes : table
}.

(** [tableoid], [xmin] and the like: [attnum < 0]. *)
Definition hidden_columns : list string :=
  ["tableoid"; "cmax"; "xmax"; "cmin"; "xmin"; "ctid"].

Definition is_table (r : relation) : bool :=
  match kind r with
  | OrdinaryTable => true
  | _ => false
  end.

(** Tables and views have rows in [information_schema.columns], and can
    be selected from. *)
Definition has_rows (r : relation) : bool :=
  match kind r with
  | Index => false
  | _ => true
  end.

Definition in_namespace (schema : string) (r : relation) : bool :=
  String.eqb (relnamespace r) schema.

Section Cluster.

(** [settings.MAX_CHARVAR_LENGTH] *)
Variable MAX_CHARVAR_LENGTH : Z.

(** The relations that are not tables of [public]: in any cluster those of
    [pg_catalog] and of [information_schema], then those of further
    schemas, and the views and indexes of [public]. *)
Variable others : list relation.

Definition public_table (db : database) (t : string) : list relation :=
  match db !! ident t with
  | Some tb => [mkRelation "public" (ident t) OrdinaryTable tb]
  | None => []
  end.

Definition others_named (t : string) : list relation :=
  List.filter (fun r => String.eqb (relname r) (ident t)) others.

(** [SELECT oid FROM pg_class WHERE relname = '...'], as rows. *)
Definition pg_class (db : database) (t : string) : list relation :=
  public_table db t ++ others_named t.

(** The same as the value of [attrelid = (...)]: no row is [NULL], more
    than one row is an error. *)
Definition attrelid (db : database) (t : string) : result (option relation) :=
  match pg_class db t with
  | [] => OK None
  | [r] => OK (Some r)
  | _ :: _ :: _ => Err DatabaseError
  end.

(** The first query of a column pass. *)
Definition column_names (db : database) (t : string) (excluded : list string)
  : result (list string) :=
  let* rel := attrelid db t in
  OK (match rel with
      | None => []
      | Some r =>
          List.filter (fun c => negb (str_in c excluded))
            (map_to_list (attributes r)).*1
      end).

(** [... AND attname = '...'] followed by [fetchone()]: the query has no
    [attnum > 0]. *)
Definition column_exists (db : database) (t c : string) : result bool :=
  let* rel := attrelid db t in
  OK (match rel with
      | None => false
      | Some r =>
          bool_decide (is_Some (attributes r !! ident c))
          || (is_table r && str_in (ident c) hidden_columns)
      end).

(** [SELECT character_maximum_length FROM information_schema.columns WHERE
    table_name = '...' and column_name = 'id'], then [fetchone()[0]] and
    the comparison with the bound: the view has the columns of tables and
    views of every schema. *)
Definition id_max_length (db : database) (t : string) : result Z :=
  match List.filter (fun r => bool_decide (is_Some (attributes r !! "id")))
          (List.filter has_rows (pg_class db t)) with
  | [] => Err TypeError
  | r :: _ =>
      match attributes r !! "id" ≫= character_maximum_length with
      | Some max_length => OK max_length
      | None => Err TypeError
      end
  end.

(** The relation an unqualified ["t"] stands for. *)
Definition regclass (db : database) (t : string) : option relation :=
  head (List.filter (in_namespace "pg_catalog") (others_named t)
        ++ public_table db t
        ++ List.filter (in_namespace "public") (others_named t)).

(** The table an [ALTER TABLE "t"] of the program can change. *)
Definition alterable (db : database) (t : string) : option table :=
  match regclass db t with
  | Some r =>
      if in_namespace "public" r && is_table r then db !! ident t else None
  | None => None
  end.

(** A name a new column can have. *)
Definition column_name_allowed (c : string) : bool :=
  negb (String.eqb c "") && negb (str_in c hidden_columns).

(** [character varying(n)] takes a length from 1 to 10485760. *)
Definition type_allowed (ty : sqltype) : bool :=
  match ty with
  | CharacterVarying n => (1 <=? n)%Z && (n <=? 10485760)%Z
  | _ => true
  end.

(** What the server does with a statement; a rejected statement changes
    nothing. A new table goes to [public]. *)
Definition execute (op : ddl) (s : session) : result session :=
  match op with
  | CreateTable t cols =>
      let cols := map (fun col => (ident (fst col), snd col)) cols in
      match public_table (live s) t
            ++ List.filter (in_namespace "public") (others_named t) with
      | _ :: _ => Err DatabaseError
      | [] =>
          if negb (String.eqb (ident t) "")
             && forallb column_name_allowed (map fst cols)
             && forallb type_allowed (map snd cols)
             && no_dup_names (map fst cols)
          then OK (sent op s (<[ident t := list_to_map cols]> (live s)))
          else Err DatabaseError
      end
  | AddColumn t c ty =>
      match alterable (live s) t with
      | None => Err DatabaseError
      | Some tb =>
          match tb !! ident c with
          | Some _ => Err DatabaseError
          | None =>
              if column_name_allowed (ident c) && type_allowed ty
              then OK (sent op s (<[ident t := <[ident c := ty]> tb]> (live s)))
              else Err DatabaseError
          end
      end
  | AlterIdType t n =>
      match alterable (live s) t with
      | None => Err DatabaseError
      | Some tb =>
          match tb !! "id" with
          | None => Err DatabaseError
          | Some _ =>
              if type_allowed (CharacterVarying n)
              then OK (sent op s (<[ident t := <["id" := CharacterVarying n]> tb]> (live s)))
              else Err DatabaseError
          end
      end
  | DropColumn t c =>
      match alterable (live s) t with
      | None => Err DatabaseError
      | Some tb =>
          match tb !! ident c with
          | None => Err DatabaseError
          | Some _ => OK (sent op s (<[ident t := delete (ident c) tb]> (live s)))
          end
      end
  end.

(** [SELECT COUNT( * ) FROM "t" WHERE "c" IS NOT NULL AND "c" != '']: the
    comparison fails for a column that is no text, a system column
    included. *)
Definition count_filled (db : database) (t c : string) : result unit :=
  match regclass db t with
  | None => Err DatabaseError
  | Some r =>
      match attributes r !! ident c with
      | Some ty =>
          if has_rows r && comparable_with_text ty then OK tt
          else Err DatabaseError
      | None => Err DatabaseError
      end
  end.

(** [SELECT EXISTS (SELECT 1 FROM pg_tables WHERE schemaname = 'public' AND
    tablename = '...')] *)
Definition table_exists (db : database) (t : string) : bool :=
  bool_decide (is_Some (db !! ident t)).

Definition create_table (table_target : string) (columns : list string)
    (s : session) : result session :=
  let* create_sql :=
    create_statement table_target (CharacterVarying MAX_CHARVAR_LENGTH) columns in
  execute create_sql s.

Definition confirm_schema (create : session -> result session)
    (t : string) (db : database) : run :=
  let s := connect db in
  if table_exists (live s) t then finish (OK tt) s
  else
    match create s with
    | OK s' => finish (OK tt) (commit s')
    | Err e => finish (Err e) s
    end.

Definition confirm_table_schema (table_target : string) (columns : list string)
    (db : database) : run :=
  confirm_schema (create_table table_target columns) table_target db.

(** The body of the loop of [confirm_table_columns], for one column. *)
Definition confirm_column (t : string) (column : string)
    (st : list string * session) : result (list string) * session :=
  let (existing_column_list, s) := st in
  let existing_column_list := strike column existing_column_list in
  match column_exists (live s) t column with
  | Err e => (Err e, s)
  | OK true =>
      let widened :=
        if String.eqb column "id" then
          match id_max_length (live s) t with
          | Err e => Err e
          | OK max_length =>
              if (max_length <? MAX_CHARVAR_LENGTH)%Z
              then execute (AlterIdType t MAX_CHARVAR_LENGTH) s
              else OK s
          end
        else OK s in
      match widened with
      | Err e => (Err e, s)
      | OK s' =>
          match count_filled (live s') t column with
          | OK _ => (OK existing_column_list, s')
          | Err e => (Err e, s')
          end
      end
  | OK false =>
      match execute (AddColumn t column Text) s with
      | Err e => (Err e, s)
      | OK s' => (OK existing_column_list, commit s')
      end
  end.

Fixpoint confirm_columns (t : string) (columns : list string)
    (st : list string * session) : result (list string) * session :=
  match columns with
  | [] => (OK (fst st), snd st)
  | column :: columns' =>
      match confirm_column t column st with
      | (OK existing_column_list, s) =>
          confirm_columns t columns' (existing_column_list, s)
      | (Err e, s) => (Err e, s)
      end
  end.

Fixpoint drop_columns (t : string) (legacy : list string) (s : session)
  : result unit * session :=
  match legacy with
  | [] => (OK tt, s)
  | c :: legacy' =>
      match execute (DropColumn t c) s with
      | Err e => (Err e, s)
      | OK s' => drop_columns t legacy' s'
      end
  end.

Definition confirm_table_columns (table_target : string) (columns : list string)
    (db : database) : run :=
  let s := connect db in
  match column_names (live s) table_target ["imported_on"] with
  | Err e => finish (Err e) s
  | OK existing_column_list =>
      match confirm_columns table_target columns (existing_column_list, s) with
      | (Err e, s) => finish (Err e) s
      | (OK legacy, s) =>
          match drop_columns table_target legacy s with
          | (Err e, s) => finish (Err e) s
          | (OK _, s) => finish (OK tt) (commit s)
          end
      end
  end.

(** Reconciling a sheet, as [generate_form_model] does. *)
Definition reconcile (table_target : string) (columns : list string)
    (db : database) : run :=
  let r := confirm_table_schema table_target columns db in
  match outcome r with
  | Err e => r
  | OK _ =>
      let r' := confirm_table_columns table_target columns (db_after r) in
      mkRun (outcome r') (db_after r') (statements r ++ statements r')
  end.

Definition create_case_table (t : string) (properties : list string)
    (s : session) : result session :=
  let* create_sql := create_statement t (CharacterVarying 255) properties in
  execute create_sql s.

Definition confirm_case_table_schema (t : string) (case_data : case_spec)
    (db : database) : run :=
  confirm_schema (create_case_table t (properties case_data)) t db.

(** The body of the loop of [confirm_case_table_columns], for one
    property. *)
Definition confirm_case_column (t : string) (case_property : string)
    (st : list string * session) : result (list string) * session :=
  let (existing_column_list, s) := st in
  let existing_column_list := strike case_property existing_column_list in
  match column_exists (live s) t case_property with
  | Err e => (Err e, s)
  | OK true => (OK existing_column_list, s)
  | OK false =>
      match execute (AddColumn t case_property (case_column_type case_property)) s with
      | Err e => (Err e, s)
      | OK s' => (OK existing_column_list, commit s')
      end
  end.

Fixpoint confirm_case_columns (t : string) (case_properties : list string)
    (st : list string * session) : result (list string) * session :=
  match case_properties with
  | [] => (OK (fst st), snd st)
  | case_property :: case_properties' =>
      match confirm_case_column t case_property st with
      | (OK existing_column_list, s) =>
          confirm_case_columns t case_properties' (existing_column_list, s)
      | (Err e, s) => (Err e, s)
      end
  end.

Definition confirm_case_table_columns (t : string) (properties : list string)
    (db : database) : run :=
  let s := connect db in
  match column_names (live s) t ["imported_on"; "id"; "closed"] with
  | Err e => finish (Err e) s
  | OK existing_column_list =>
      match confirm_case_columns t (case_columns properties)
              (existing_column_list, s) with
      | (Err e, s) => finish (Err e) s
      | (OK legacy, s) =>
          match drop_columns t legacy s with
          | (Err e, s) => finish (Err e) s
          | (OK _, s) => finish (OK tt) (commit s)
          end
      end
  end.

End Cluster.

(** Names on which the two servers agree: not empty, at most 63 bytes, of
    printable ASCII characters other than the two quotes (34, 39) and the
    backslash (92). *)
Definition plain_char (c : ascii) : bool :=
  let n := nat_of_ascii c in
  (32 <=? n)%nat && (n <? 127)%nat
  && negb (n =? 34)%nat && negb (n =? 39)%nat && negb (n =? 92)%nat.

Definition ordinary_name (name : string) : bool :=
  negb (String.eqb name "")
  && (py_len name <=? NAMEDATALEN - 1)%nat
  && forallb plain_char (chars name).

(** Before PostgreSQL 12 a column could not be named [oid] either. *)
Definition ordinary_column (c : string) : bool :=
  ordinary_name c && negb (str_in c ("oid" :: hidden_columns)).

(** A table name that no other relation of the cluster bears. *)
Definition ordinary_table (others : list relation) (t : string) : bool :=
  ordinary_name t
  && forallb (fun r => negb (String.eqb (relname r) t)) others.

(** A table as a server can hold it: no name is longer than 63 bytes. *)
Definition stored (tb : table) : Prop :=
  map_Forall (fun x _ => (py_len x <= NAMEDATALEN - 1)%nat) tb.

End Pg.

(** Two of the views every cluster has. *)
Definition information_schema : list Pg.relation :=
  [Pg.mkRelation "information_schema" "tables" Pg.View
     {[ "table_schema" := Text; "table_name" := Text ]};
   Pg.mkRelation "information_schema" "columns" Pg.View
     {[ "table_name" := Text; "column_name" := Text ]}].

(** A column name of seventy characters. *)
Definition long_column : string :=
  "number_of_household_members_who_slept_under_a_bed_net_the_night_before".

(** * Properties *)

(** ** Strings *)

Lemma py_len_app (a b : string) : py_len (a +:+ b) = py_len a + py_len b.
Proof. unfold py_len. induction a as [|c a IH]; simpl; [reflexivity | now rewrite IH]. Qed.

Lemma split_nonempty (sep : ascii) (s : string) : split sep s <> [].
Proof.
  induction s as [|c s IH]; simpl; [discriminate |].
  destruct (ascii_eqb c sep); [discriminate |].
  destruct (split sep s); discriminate.
Qed.

(** Joining the fields of a split gives the string back. *)
Lemma join_split (sep : ascii) (s : string) :
  join (String sep EmptyString) (split sep s) = s.
Proof.
  induction s as [|c s IH]; simpl; [reflexivity |].
  destruct (ascii_eqb c sep) eqn:E.
  - apply Ascii.eqb_eq in E. subst c.
    pose proof (split_nonempty sep s) as Hne.
    destruct (split sep s) as [|w ws]; [contradiction |].
    simpl in *. now rewrite IH.
  - pose proof (split_nonempty sep s) as Hne.
    destruct (split sep s) as [|w ws]; [contradiction |].
    destruct ws as [|w' ws]; simpl in *; now rewrite <- IH.
Qed.

Lemma py_len_join (sep : string) (words : list string) :
  py_len (join sep words) = total_len words + py_len sep * (length words - 1).
Proof.
  unfold total_len.
  induction words as [|w ws IH]; simpl; [lia |].
  destruct ws as [|w' ws].
  - simpl. lia.
  - rewrite !py_len_app, IH. cbn [length].
    rewrite Nat.sub_0_r.
    replace (S (length ws) - 1) with (length ws) by lia.
    rewrite Nat.mul_succ_r. lia.
Qed.

Lemma first_char_len (w : string) : 1 < py_len w -> py_len (first_char w) = 1.
Proof. destruct w; simpl; [lia | reflexivity]. Qed.

Lemma chop_first_long_cons (w w' : string) (ws : list string) :
  chop_first_long (w :: w' :: ws)
  = if (1 <? py_len w)%nat then first_char w :: w' :: ws
    else w :: chop_first_long (w' :: ws).
Proof. reflexivity. Qed.

(** A pass either changes nothing or shortens one word. *)
Lemma chop_first_long_cases (words : list string) :
  chop_first_long words = words
  \/ (length (chop_first_long words) = length words
      /\ total_len (chop_first_long words) < total_len words).
Proof.
  unfold total_len.
  induction words as [|w ws IH]; [now left |].
  destruct ws as [|w' ws]; [now left |].
  rewrite chop_first_long_cons.
  destruct (1 <? py_len w)%nat eqn:E.
  - right. apply Nat.ltb_lt in E. split; [reflexivity |].
    unfold list_sum. cbn [map fold_right].
    rewrite first_char_len by assumption. lia.
  - destruct IH as [IH | [IHl IHt]].
    + left. now rewrite IH.
    + right. split; [simpl in *; lia |].
      unfold list_sum in *. cbn [map fold_right] in *. lia.
Qed.

Lemma chop_pass_cases (s : string) :
  chop_pass s = s \/ py_len (chop_pass s) < py_len s.
Proof.
  unfold chop_pass.
  destruct (chop_first_long_cases (split "_" s)) as [E | [El Et]].
  - left. rewrite E. apply join_split.
  - right. rewrite <- (join_split "_" s) at 2.
    rewrite !py_len_join, El. lia.
Qed.

Lemma chop_pass_le (s : string) : py_len (chop_pass s) <= py_len s.
Proof. destruct (chop_pass_cases s) as [E | E]; [rewrite E |]; lia. Qed.

(** ** The shortening loop *)

(** The loop of [strip_sheet_name], entered with the previous name at hand:
    it returns an iterate of the pass, every earlier iterate is too long,
    and it leaves because the name fits or the pass no longer changes it.
    The fuel of the model is never the reason. *)
Lemma chop_loop_spec (fuel : nat) :
  forall s prev,
    s = chop_pass prev ->
    py_len s < fuel \/ (s = prev /\ 0 < fuel) ->
    exists n,
      chop_loop fuel s (Some prev) = Nat.iter n chop_pass s
      /\ (forall m, m < n -> 31 < py_len (Nat.iter m chop_pass s))
      /\ (py_len (chop_loop fuel s (Some prev)) <= 31
          \/ chop_pass (chop_loop fuel s (Some prev)) = chop_loop fuel s (Some prev)).
Proof.
  induction fuel as [|f IH]; intros s prev Hs Hfuel; [lia |].
  cbn [chop_loop].
  destruct (31 <? py_len s)%nat eqn:Elen; cbn [andb].
  - apply Nat.ltb_lt in Elen.
    destruct (bool_decide (Some s = Some prev)) eqn:Eprev; cbn [negb].
    + apply bool_decide_eq_true in Eprev. injection Eprev as Eprev.
      exists 0. split; [reflexivity |]. split; [intros m Hm; lia |].
      right. rewrite Eprev at 1. now rewrite <- Hs.
    + apply bool_decide_eq_false in Eprev.
      assert (Hne : s <> prev) by congruence.
      assert (Hlt : py_len s < S f) by (destruct Hfuel as [H | [H _]]; [exact H | contradiction]).
      destruct (IH (chop_pass s) s eq_refl) as (n & Hn & Hbefore & Hexit).
      { destruct (chop_pass_cases s) as [E | E]; [right; split; [exact E | lia] | left; lia]. }
      exists (S n). rewrite Nat.iter_succ_r. split; [exact Hn |].
      split; [| exact Hexit].
      intros [|m] Hm; [exact Elen |].
      rewrite Nat.iter_succ_r. apply Hbefore. lia.
  - apply Nat.ltb_ge in Elen.
    exists 0. split; [reflexivity |]. split; [intros m Hm; lia | now left].
Qed.

Lemma strip_sheet_name_spec (s : string) :
  exists n,
    strip_sheet_name s = Nat.iter n chop_pass (strip_replacements s)
    /\ (forall m, m < n -> 31 < py_len (Nat.iter m chop_pass (strip_replacements s)))
    /\ (py_len (strip_sheet_name s) <= 31
        \/ chop_pass (strip_sheet_name s) = strip_sheet_name s).
Proof.
  unfold strip_sheet_name. set (r := strip_replacements s).
  cbn [chop_loop].
  destruct (31 <? py_len r)%nat eqn:Elen; cbn [andb].
  - apply Nat.ltb_lt in Elen.
    replace (bool_decide (Some r = None)) with false
      by (symmetry; apply bool_decide_eq_false; discriminate).
    cbn [negb].
    destruct (chop_loop_spec (S (py_len r)) (chop_pass r) r eq_refl)
      as (n & Hn & Hbefore & Hexit).
    { left. pose proof (chop_pass_le r). lia. }
    exists (S n). rewrite Nat.iter_succ_r. split; [exact Hn |].
    split; [| exact Hexit].
    intros [|m] Hm; [exact Elen |].
    rewrite Nat.iter_succ_r. apply Hbefore. lia.
  - apply Nat.ltb_ge in Elen.
    exists 0. split; [reflexivity |]. split; [intros m Hm; lia | now left].
Qed.

(** When the replacements already bring the name within the bound, no word
    is cut. *)
Lemma strip_sheet_name_short (s : string) :
  py_len (strip_replacements s) <= 31 ->
  strip_sheet_name s = strip_replacements s.
Proof.
  intros H. unfold strip_sheet_name. cbn [chop_loop].
  apply Nat.ltb_ge in H. now rewrite H.
Qed.

(** ** The registry *)

Lemma str_digits_len (fuel : nat) :
  forall n acc,
    0 < fuel ->
    py_len acc + 1 <= py_len (str_digits fuel n acc).
Proof.
  induction fuel as [|f IH]; intros n acc Hf; [lia |].
  cbn [str_digits].
  destruct (n / 10 =? 0)%nat eqn:E; [simpl; lia |].
  destruct f as [|f]; [simpl; lia |].
  specialize (IH (n / 10) (String (digit_char (n mod 10)) acc)).
  simpl py_len in IH at 1. lia.
Qed.

Lemma str_of_nat_len (n : nat) : 1 <= py_len (str_of_nat n).
Proof.
  unfold str_of_nat. pose proof (str_digits_len (S n) n EmptyString). simpl in *. lia.
Qed.

Lemma str_of_nat_len_two (n : nat) : 10 <= n -> 2 <= py_len (str_of_nat n).
Proof.
  intros Hn. unfold str_of_nat. cbn [str_digits].
  destruct (n / 10 =? 0)%nat eqn:E.
  - apply Nat.eqb_eq in E. apply Nat.div_small_iff in E; lia.
  - pose proof (str_digits_len n (n / 10) (String (digit_char (n mod 10)) EmptyString)).
    simpl py_len in H at 1. lia.
Qed.

Lemma drop_last_len (s : string) : py_len (drop_last s) = py_len s - 1.
Proof.
  induction s as [|c s IH]; [reflexivity |].
  destruct s as [|c' s]; [reflexivity |].
  change (drop_last (String c (String c' s))) with (String c (drop_last (String c' s))).
  simpl py_len in *. lia.
Qed.

Lemma str_in_true (x : string) (names : list string) :
  str_in x names = true <-> In x names.
Proof.
  unfold str_in. rewrite existsb_exists. split.
  - intros (y & Hy & E). apply String.eqb_eq in E. now subst.
  - intros H. exists x. split; [exact H | apply String.eqb_refl].
Qed.

Lemma str_in_longest (x : string) (names : list string) :
  str_in x names = true -> py_len x <= longest names.
Proof.
  rewrite str_in_true. unfold longest.
  induction names as [|y names IH]; simpl; [tauto |].
  intros [-> | H]; [lia |]. apply IH in H. lia.
Qed.

(** The renaming loop leaves with a name that is not in the registry: from
    the counter [10] on every renaming makes the name longer. *)
Lemma rename_loop_fresh (fuel : nat) :
  forall names s e,
    (9 - e) + (longest names + 1 - py_len s) < fuel ->
    str_in (rename_loop fuel names s e) names = false.
Proof.
  induction fuel as [|f IH]; intros names s e Hfuel; [lia |].
  cbn [rename_loop].
  destruct (str_in s names) eqn:E; [| exact E].
  apply IH. apply str_in_longest in E.
  rewrite py_len_app, drop_last_len.
  pose proof (str_of_nat_len (S e)).
  destruct (le_lt_dec 9 e) as [He | He].
  - pose proof (str_of_nat_len_two (S e)). lia.
  - lia.
Qed.

Lemma reserve_fresh (names : list string) (s : string) :
  str_in (reserve names s) names = false.
Proof. unfold reserve. apply rename_loop_fresh. lia. Qed.

Lemma reserve_free (names : list string) (s : string) :
  str_in s names = false -> reserve names s = s.
Proof.
  intros H. unfold reserve. rewrite Nat.add_comm. cbn [Nat.add rename_loop].
  now rewrite H.
Qed.

(** ** Names within the bound *)

(** C7, as the code has it. The chain is run on a candidate only when the
    candidate is longer than 31 characters; when what it returns is still
    longer than 31, it is run once more, on the fallback name, whatever the
    length of the fallback, and when that result is longer than 31 too the
    name is refused. Inside [strip_sheet_name], for the candidate and for
    the fallback alike, the four replacements ("and", the parentheses,
    "enrollment", "change") are all applied, once each and in that order,
    whatever the length in between; only the cutting of words depends on
    the length: the result is the first iterate of the cutting pass that
    fits in 31 characters or that a further pass leaves unchanged. *)
Theorem strip_sheet_name_chain (s fallback : string) (too_long : error) :
  compress s fallback too_long
  = (if (py_len s <=? 31)%nat then OK s
     else if (py_len (strip_sheet_name s) <=? 31)%nat then OK (strip_sheet_name s)
     else if (py_len (strip_sheet_name fallback) <=? 31)%nat
          then OK (strip_sheet_name fallback)
          else Err too_long)
  /\ forall x,
       strip_replacements x
       = replace "change" "chng"
           (replace "enrollment" "enroll"
              (replace ")" "" (replace "(" "" (replace "and" "&" x))))
       /\ exists n,
            strip_sheet_name x = Nat.iter n chop_pass (strip_replacements x)
            /\ (forall m, m < n ->
                  31 < py_len (Nat.iter m chop_pass (strip_replacements x)))
            /\ (py_len (strip_sheet_name x) <= 31
                \/ chop_pass (strip_sheet_name x) = strip_sheet_name x).
Proof.
  split; [| intros x; split; [reflexivity | apply strip_sheet_name_spec]].
  unfold compress. rewrite !Nat.ltb_antisym.
  destruct (py_len s <=? 31)%nat; cbn [negb]; [reflexivity |].
  destruct (py_len (strip_sheet_name s) <=? 31)%nat; cbn [negb]; [reflexivity |].
  now destruct (py_len (strip_sheet_name fallback) <=? 31)%nat.
Qed.

(** C7, as stated, fails. As stated, a candidate longer than 31 characters
    that the first replacement brings within the bound would come out with
    that replacement alone. A name of 32 characters that the replacement
    of "and" brings down to 26 still has "change" replaced. *)
Lemma later_replacement_after_bound :
  ~ (forall s fallback too_long,
       31 < py_len s -> py_len (replace_and s) <= 31 ->
       compress s fallback too_long = OK (replace_and s)).
Proof.
  intros H.
  specialize (H "change_and_more_and_more_and_xyz" "" SystemExit).
  assert (Hlong : 31 < py_len "change_and_more_and_more_and_xyz")
    by (vm_compute; lia).
  assert (Hlen : py_len (replace_and "change_and_more_and_more_and_xyz") <= 31)
    by (vm_compute; lia).
  specialize (H Hlong Hlen). vm_compute in H. discriminate H.
Qed.

(** The fallback goes through the chain even when it is short: a form
    "change" under a parent whose name the chain cannot bring within the
    bound gets the sheet "chng". *)
Remark short_fallback_is_rewritten :
  let form_name := "change" in
  let parent := "a_b_c_d_e_f_g_h_i_j_k_l_m_n_o_p" in
  py_len form_name <= 31
  /\ compress (standard_replacements (parent +:+ "_" +:+ form_name)) form_name
       SystemExit
     = OK "chng".
Proof. vm_compute. split; [lia | reflexivity]. Qed.

Example strip_sheet_name_words :
  strip_sheet_name "compound_and_structure_enrollment_form_change"
  = "c_&_structure_enroll_form_chng".
Proof. vm_compute. reflexivity. Qed.

Lemma compress_outcome (x fallback : string) (too_long : error) :
  match compress x fallback too_long with
  | OK y => py_len y <= 31
  | Err e => e = too_long
  end.
Proof.
  unfold compress.
  repeat match goal with
         | |- context [(31 <? ?n)%nat] =>
             let E := fresh "E" in
             destruct (31 <? n)%nat eqn:E; [| apply Nat.ltb_ge in E]
         end; auto.
Qed.

Lemma compress_short (y fallback : string) (too_long : error) :
  py_len y <= 31 -> compress y fallback too_long = OK y.
Proof. intros H. unfold compress. apply Nat.ltb_ge in H. now rewrite H. Qed.

(** C8. Shortening a shortened name changes nothing, and a name that is
    returned has at most 31 characters; the only other outcome is the
    failure for a name that cannot be shortened. *)
Theorem compress_idempotent (x fallback : string) (too_long : error) :
  (let* y := compress x fallback too_long in compress y fallback too_long)
  = compress x fallback too_long
  /\ match compress x fallback too_long with
     | OK y => py_len y <= 31
     | Err e => e = too_long
     end.
Proof.
  pose proof (compress_outcome x fallback too_long) as H.
  destruct (compress x fallback too_long) as [y | e]; cbn [bind].
  - split; [now apply compress_short | exact H].
  - split; [reflexivity | exact H].
Qed.

(** The fallback name does not go through the standard replacements: a dash
    in a form name survives into the table name, and the whole derivation
    (replacements, then shortening) applied to its own result removes it. *)
Remark fallback_keeps_dash :
  let form_name := "abcdefghij-klmnopqrstuvwxyzabcd" in
  compress (standard_replacements ("p_" +:+ form_name)) form_name SystemExit
  = OK form_name
  /\ compress (standard_replacements form_name) form_name SystemExit
     = OK "abcdefghijklmnopqrstuvwxyzabcd".
Proof. vm_compute. split; reflexivity. Qed.

(** ** Issuing names *)

(** A name issued for a sheet of a form is appended to the registry and was
    not in it. *)
Lemma create_form_spreadsheet_fresh node name is_loop parent_name names sh names' :
  create_form_spreadsheet node name is_loop parent_name names = OK (sh, names') ->
  names' = names ++ [sheet_target sh] /\ ~ In (sheet_target sh) names.
Proof.
  unfold create_form_spreadsheet.
  destruct (compress _ _ _) as [sheet_name |]; cbn [bind]; [| discriminate].
  destruct (groups_columns _ _) as [[columns children] |]; cbn [bind]; [| discriminate].
  intros H. injection H as <- <-. cbn [sheet_target].
  split; [reflexivity |].
  rewrite <- str_in_true, reserve_fresh. discriminate.
Qed.

(** C9. "patient_visit" issued twice, the registry empty at first: the second
    sheet is named "patient_visi1". *)
Theorem patient_visit_twice :
  let f := mkForm "patient_visit" "http://openrosa.org/formdesigner/visit"
             (QNode form_obj_question [] [] []) in
  reserve [] "patient_visit" = "patient_visit"
  /\ reserve ["patient_visit"] "patient_visit" = "patient_visi1"
  /\ exists sheets,
       handle [] [f; f] = OK (sheets, ["patient_visit"; "patient_visi1"])
       /\ map sheet_target sheets = ["patient_visit"; "patient_visi1"].
Proof.
  split; [reflexivity |]. split; [reflexivity |].
  eexists. split; [vm_compute; reflexivity | reflexivity].
Qed.

(** C6. The name of a case sheet is appended to the registry without the
    test the form sheets get: two case types that differ in case only are
    both kept by [get_all_cases] and both issued "case_patient". *)
Theorem case_names_not_disambiguated :
  let modules := [mkModule "Patient" ["name"]; mkModule "patient" ["name"]] in
  get_all_cases modules = [mkCase "Patient" ["name"]; mkCase "patient" ["name"]]
  /\ handle (get_all_cases modules) [] = OK ([], ["case_patient"; "case_patient"])
  /\ generate_case_spreadsheet (mkCase "patient" ["name"]) ["case_patient"]
     = OK ("case_patient", ["case_patient"; "case_patient"]).
Proof. vm_compute. repeat split; reflexivity. Qed.

(** ** Loops *)

(** A loop directly in the scope of a form gives one child sheet. *)
Example loop_in_scope_one_child :
  exists root child names,
    generate_form_spreadsheet
      (QNode form_obj_question [] [repeat_node "items" [text_question "items/qty"]] [])
      "Visit" false "" [] = OK (root, names)
    /\ sheet_children root = [child]
    /\ sheet_target child = "visit_items"
    /\ names = ["visit"; "visit_items"].
Proof. do 3 eexists. vm_compute. repeat split; reflexivity. Qed.

(** C3. A loop inside a group is handed to [self.generate_spreadsheets],
    which the class does not define: [get_group_questions] raises for every
    group that holds a loop, and so does the flattening of a form with such
    a group; no sheet is produced. *)
Theorem loop_in_group_raises :
  (forall q l ls qs,
      get_group_questions (QNode q [] (l :: ls) qs) = Err AttributeError)
  /\ generate_form_spreadsheet
       (QNode form_obj_question
          [group_node "household"
             [repeat_node "household/members" [text_question "household/members/age"]]
             [text_question "household/address"]]
          [] [])
       "Visit" false "" [] = Err AttributeError.
Proof. split; [intros; reflexivity | vm_compute; reflexivity]. Qed.

(** ** Placing questions *)

(** The cases of the parent name that come out as the design describes
    them. *)
Lemma resolve_parent_name_both (g l : string) :
  resolve_parent_name (Some g) (Some l)
  = if contains l g && (py_len l <? py_len g)%nat then Some g else Some l.
Proof. reflexivity. Qed.

Lemma resolve_parent_name_group_only (g : string) :
  resolve_parent_name (Some g) None = Some g.
Proof. reflexivity. Qed.

Lemma resolve_parent_name_neither :
  resolve_parent_name None None = None.
Proof. reflexivity. Qed.

(** Without a parent name the search stops at the form's own dictionary,
    whose [value] is [None]. *)
Lemma find_parent_root (h : store) (n : hnode) :
  h !! 0 = Some n -> q_value (h_q n) = None ->
  find_parent (S (length h)) h 0 None = Some 0.
Proof.
  intros H0 Hv. cbn [find_parent]. rewrite H0.
  rewrite bool_decide_eq_true_2 by exact Hv. reflexivity.
Qed.

Lemma first_some_ext {A B : Type} (f g : A -> option B) (l : list A) :
  (forall x, In x l -> f x = g x) -> first_some f l = first_some g l.
Proof.
  induction l as [|x l IH]; intros H; cbn [first_some]; [reflexivity |].
  rewrite <- (H x (or_introl eq_refl)).
  destruct (f x); [reflexivity |]. apply IH. intros y Hy. apply H. now right.
Qed.

Lemma first_some_Some {A B : Type} (f : A -> option B) (l : list A) (y : B) :
  first_some f l = Some y -> exists x, In x l /\ f x = Some y.
Proof.
  induction l as [|x l IH]; cbn [first_some]; [discriminate |].
  destruct (f x) as [y' |] eqn:E.
  - intros [= <-]. exists x. split; [now left | exact E].
  - intros H. destruct (IH H) as (x' & Hx' & E'). exists x'. split; [now right | exact E'].
Qed.

(** The fuel of [find_parent] does not matter once it covers the objects
    between the start and the end of the store. *)
Lemma find_parent_fuel (h : store) (parent_name : option string) :
  younger h ->
  forall k f1 f2 i,
    length h - i <= k -> k <= f1 -> k <= f2 ->
    find_parent f1 h i parent_name = find_parent f2 h i parent_name.
Proof.
  intros Hy. induction k as [|k IH]; intros f1 f2 i Hk H1 H2.
  - assert (Hnone : h !! i = None) by (apply lookup_ge_None; lia).
    destruct f1, f2; cbn [find_parent]; rewrite ?Hnone; reflexivity.
  - destruct f1 as [|f1]; [lia |]. destruct f2 as [|f2]; [lia |].
    cbn [find_parent]. destruct (h !! i) as [n |] eqn:Hn; [| reflexivity].
    destruct (bool_decide _); [reflexivity |].
    assert (Hsame : forall c, In c (h_groups n ++ h_loops n) ->
                              find_parent f1 h c parent_name
                              = find_parent f2 h c parent_name).
    { intros c Hc. apply IH; [| lia | lia].
      pose proof (Hy i n Hn c Hc). lia. }
    rewrite (first_some_ext _ (fun g => find_parent f2 h g parent_name) (h_groups n))
      by (intros c Hc; apply Hsame, in_or_app; now left).
    destruct (first_some _ (h_groups n)); [reflexivity |].
    apply first_some_ext. intros c Hc. apply Hsame, in_or_app. now right.
Qed.

(** In particular the fuel that [place_question] gives, the size of the
    store plus one, finds what any larger fuel finds. *)
Lemma find_parent_enough_fuel (h : store) (parent_name : option string) (k : nat) :
  younger h ->
  find_parent (S (length h) + k) h 0 parent_name
  = find_parent (S (length h)) h 0 parent_name.
Proof.
  intros Hy. apply (find_parent_fuel h parent_name Hy (length h)); lia.
Qed.

(** What [find_parent] returns is an object of the store. *)
Lemma find_parent_in_store (h : store) (parent_name : option string) (fuel : nat) :
  forall i j, find_parent fuel h i parent_name = Some j -> j < length h.
Proof.
  induction fuel as [|f IH]; intros i j; cbn [find_parent]; [discriminate |].
  destruct (h !! i) as [n |] eqn:Hn; [| discriminate].
  destruct (bool_decide _).
  - intros [= <-]. now apply lookup_lt_Some in Hn.
  - destruct (first_some _ (h_groups n)) as [o |] eqn:Eg.
    + intros [= <-]. apply first_some_Some in Eg as (c & _ & Hc). now apply IH in Hc.
    + intros El. apply first_some_Some in El as (c & _ & Hc). now apply IH in Hc.
Qed.

Lemma younger_append (h : store) (q : question) :
  younger h -> younger (h ++ [mkHnode q [] [] []]).
Proof.
  intros Hy i n Hn c Hc. unfold store in *.
  destruct (decide (i < length h)) as [Hi | Hi].
  - rewrite lookup_app_l in Hn by exact Hi. now apply (Hy i n Hn).
  - rewrite lookup_app_r in Hn by lia.
    destruct (i - length h) as [|k]; [| destruct k; discriminate].
    injection Hn as <-. destruct Hc.
Qed.

Lemma younger_alter (h : store) (p child : nat) (f : hnode -> hnode) :
  p < child ->
  (forall n c, In c (h_groups (f n) ++ h_loops (f n)) ->
               In c (h_groups n ++ h_loops n) \/ c = child) ->
  younger h -> younger (alter f p h).
Proof.
  intros Hp Hf Hy i n Hn c Hc. unfold store in *.
  destruct (decide (p = i)) as [<- | Hne].
  - rewrite list_lookup_alter_eq in Hn.
    destruct (h !! p) as [n0 |] eqn:Hn0; [| discriminate].
    injection Hn as <-. destruct (Hf n0 c Hc) as [Hold | ->]; [| exact Hp].
    now apply (Hy p n0 Hn0).
  - rewrite list_lookup_alter_ne in Hn by exact Hne. now apply (Hy i n Hn).
Qed.

Lemma place_question_younger (h h' : store) (q : question) :
  younger h -> place_question h q = OK h' -> younger h'.
Proof.
  intros Hy. unfold place_question.
  destruct (is_type "Trigger" q); [intros [= <-]; exact Hy |].
  destruct (find_parent _ _ _ _) as [p |] eqn:Ep; [| discriminate].
  apply find_parent_in_store in Ep.
  intros [= <-].
  pose proof (younger_append h q Hy) as Hnew.
  repeat match goal with
         | |- younger (if ?b then _ else _) => destruct b
         | |- younger (alter _ _ _) =>
             apply (younger_alter _ p (length h)); [exact Ep | |]
         end; try exact Hnew.
  all: intros n c; unfold append_group, append_loop, append_question;
       cbn [h_groups h_loops]; rewrite ?in_app_iff; simpl;
       intuition congruence.
Qed.

(** The store of a normalised form keeps children younger than their
    parents, so the search of [find_parent] never runs out of fuel. *)
Lemma normalize_younger (questions : list question) (h : store) :
  normalize questions = OK h -> younger h.
Proof.
  unfold normalize.
  assert (H0 : younger [mkHnode form_obj_question [] [] []]).
  { intros [|i] n Hn c Hc; [injection Hn as <-; destruct Hc | discriminate]. }
  revert H0. generalize [mkHnode form_obj_question [] [] []] as h0.
  induction questions as [|q qs IH]; intros h0 H0; cbn [place_questions].
  - intros [= <-]. exact H0.
  - destruct (place_question h0 q) as [h1 |] eqn:E; cbn [bind]; [| discriminate].
    apply IH. eapply place_question_younger; eassumption.
Qed.

Lemma place_question_no_trigger (h h' : store) (q : question) :
  Forall not_trigger h -> place_question h q = OK h' -> Forall not_trigger h'.
Proof.
  intros Hh. unfold place_question.
  destruct (is_type "Trigger" q) eqn:Et; [intros [= <-]; exact Hh |].
  destruct (find_parent _ _ _ _) as [p |]; [| discriminate].
  intros [= <-].
  assert (Hnew : Forall not_trigger (h ++ [mkHnode q [] [] []])).
  { apply Forall_app. split; [exact Hh |]. constructor; [| constructor].
    unfold not_trigger. cbn [h_q]. unfold is_type in Et.
    now apply bool_decide_eq_false in Et. }
  repeat match goal with
         | |- Forall _ (if ?b then _ else _) => destruct b
         | |- Forall _ (alter _ _ _) => apply Forall_alter; [| intros x _ Hx; exact Hx]
         end; exact Hnew.
Qed.

(** No question of type "Trigger" is in the store of a normalised form. *)
Lemma normalize_no_trigger (questions : list question) (h : store) :
  normalize questions = OK h -> Forall not_trigger h.
Proof.
  unfold normalize.
  assert (H0 : Forall not_trigger [mkHnode form_obj_question [] [] []]).
  { constructor; [| constructor]. unfold not_trigger. discriminate. }
  revert H0. generalize [mkHnode form_obj_question [] [] []] as h0.
  induction questions as [|q qs IH]; intros h0 H0; cbn [place_questions].
  - intros [= <-]. exact H0.
  - destruct (place_question h0 q) as [h1 |] eqn:E; cbn [bind]; [| discriminate].
    apply IH. eapply place_question_no_trigger; eassumption.
Qed.

(** C1. A question that names a loop and no group gets no parent name: it
    is placed under the form itself, not under its loop. *)
Theorem loop_hint_alone_is_dropped :
  (forall l, resolve_parent_name None (Some l) = None)
  /\ let items := mkQuestion "items" (Some "/data/items") (Some "Repeat")
                    None None true None None in
     let qty := mkQuestion "items/qty" (Some "/data/items/qty") (Some "Int")
                  None None false None (Some "/data/items") in
     normalize [items; qty]
     = OK [ mkHnode form_obj_question [] [1] [2];
            mkHnode items [] [] [];
            mkHnode qty [] [] [] ].
Proof. split; [intros; reflexivity | vm_compute; reflexivity]. Qed.

(** C2. The three tests follow one another without [else]: a question of
    type "Repeat" that is not flagged as a group passes the second and the
    third, and is appended to the loops and to the questions of its
    parent. *)
Theorem repeat_without_group_flag_placed_twice :
  let items := mkQuestion "items" (Some "/data/items") (Some "Repeat")
                 None None false None None in
  normalize [items]
  = OK [ mkHnode form_obj_question [] [1] [1];
         mkHnode items [] [] [] ].
Proof. vm_compute. reflexivity. Qed.

(** ** Reconciliation *)

Lemma str_in_false (x : string) (names : list string) :
  str_in x names = false <-> ~ In x names.
Proof.
  rewrite <- str_in_true. destruct (str_in x names); split; congruence.
Qed.

Lemma remove_first_In (x y : string) (l : list string) :
  NoDup l -> (In y (remove_first x l) <-> In y l /\ y <> x).
Proof.
  induction l as [|z l IH]; intros Hnd; cbn [remove_first]; [simpl; tauto |].
  apply NoDup_cons in Hnd as [Hz Hl].
  rewrite list_elem_of_In in Hz.
  destruct (String.eqb x z) eqn:E.
  - apply String.eqb_eq in E. subst z. simpl. split.
    + intros H. split; [now right |]. intros ->. contradiction.
    + intros [[H | H] Hne]; [congruence | exact H].
  - apply String.eqb_neq in E. simpl. rewrite IH by exact Hl. split.
    + intros [H | [H Hne]]; [subst; split; [now left | congruence] | split; [now right | exact Hne]].
    + intros [[H | H] Hne]; [now left | right; now split].
Qed.

Lemma remove_first_NoDup (x : string) (l : list string) :
  NoDup l -> NoDup (remove_first x l).
Proof.
  induction l as [|z l IH]; intros Hnd; cbn [remove_first]; [exact Hnd |].
  apply NoDup_cons in Hnd as [Hz Hl].
  destruct (String.eqb x z); [exact Hl |].
  apply NoDup_cons_2; [| now apply IH].
  rewrite list_elem_of_In in *. rewrite remove_first_In by exact Hl. tauto.
Qed.

Lemma strike_In (x y : string) (l : list string) :
  NoDup l -> (In y (strike x l) <-> In y l /\ y <> x).
Proof.
  intros Hnd. unfold strike. destruct (str_in x l) eqn:E.
  - now apply remove_first_In.
  - apply str_in_false in E. split; [| tauto].
    intros H. split; [exact H |]. intros ->. contradiction.
Qed.

Lemma strike_NoDup (x : string) (l : list string) :
  NoDup l -> NoDup (strike x l).
Proof.
  intros Hnd. unfold strike. destruct (str_in x l); [now apply remove_first_NoDup | exact Hnd].
Qed.

Lemma legacy_columns_spec (columns : list string) :
  forall existing,
    NoDup existing ->
    NoDup (legacy_columns columns existing)
    /\ forall x, In x (legacy_columns columns existing)
                 <-> In x existing /\ ~ In x columns.
Proof.
  unfold legacy_columns.
  induction columns as [|c cs IH]; intros ex Hnd; cbn [fold_left].
  - split; [exact Hnd |]. intros x. simpl. tauto.
  - destruct (IH (strike c ex) (strike_NoDup c ex Hnd)) as [Hnd' Hin].
    split; [exact Hnd' |]. intros x. rewrite Hin, strike_In by exact Hnd.
    simpl. split.
    + intros [[H1 H2] H3]. split; [exact H1 |]. intros [-> | H]; tauto.
    + intros [H1 H2]. split; [split; [exact H1 |] |]; intuition congruence.
Qed.

Lemma column_names_In (db : database) (t x : string) (excluded : list string)
    (tb : table) :
  db !! t = Some tb ->
  (In x (column_names db t excluded) <-> is_Some (tb !! x) /\ ~ In x excluded).
Proof.
  intros Hdb. unfold column_names. rewrite Hdb, filter_In.
  rewrite negb_true_iff, str_in_false, <- list_elem_of_In, list_elem_of_fmap.
  split.
  - intros [([y ty] & -> & Hy) Hex]. apply elem_of_map_to_list in Hy.
    split; [now exists ty | exact Hex].
  - intros [[ty Hty] Hex]. split; [| exact Hex].
    exists (x, ty). split; [reflexivity | now apply elem_of_map_to_list].
Qed.

Lemma column_names_NoDup (db : database) (t : string) (excluded : list string) :
  NoDup (column_names db t excluded).
Proof.
  unfold column_names. destruct (db !! t) as [tb |]; [| constructor].
  apply NoDup_ListNoDup, List.NoDup_filter, NoDup_ListNoDup, NoDup_fst_map_to_list.
Qed.

Section ReconcilerProperties.

Variable MAX_CHARVAR_LENGTH : Z.

Lemma column_type_live (s : session) (t c : string) (tb : table) :
  live s !! t = Some tb -> column_type (live s) t c = tb !! c.
Proof. intros H. unfold column_type. now rewrite H. Qed.

(** One column of the sheet, when the step succeeds: the column is there
    afterwards, nothing else changed but the width of the key. *)
Lemma confirm_column_ok t c ex s ex' s' tb :
  confirm_column MAX_CHARVAR_LENGTH t c (ex, s) = (OK ex', s') ->
  live s !! t = Some tb ->
  exists tb',
    live s' !! t = Some tb'
    /\ ex' = strike c ex
    /\ is_Some (tb' !! c)
    /\ (forall x, is_Some (tb !! x) -> is_Some (tb' !! x))
    /\ (forall x, is_Some (tb' !! x) -> is_Some (tb !! x) \/ x = c)
    /\ (wide_enough MAX_CHARVAR_LENGTH tb -> wide_enough MAX_CHARVAR_LENGTH tb')
    /\ (c = "id" -> wide_enough MAX_CHARVAR_LENGTH tb').
Proof.
  intros H Htb. unfold confirm_column in H.
  rewrite (column_type_live s t c tb Htb) in H.
  destruct (tb !! c) as [ty |] eqn:Hc.
  - (* the column exists *)
    destruct (String.eqb c "id") eqn:Eid.
    + apply String.eqb_eq in Eid. subst c.
      destruct ty as [n | | |]; cbn [character_maximum_length] in H;
        try (injection H; discriminate).
      destruct (n <? MAX_CHARVAR_LENGTH)%Z eqn:En.
      * (* widened *)
        cbn [execute] in H. rewrite Htb, Hc in H.
        unfold column_type in H. cbn [sent live] in H.
        rewrite lookup_insert_eq in H. cbn [mbind option_bind] in H.
        rewrite lookup_insert_eq in H. cbn [comparable_with_text] in H.
        injection H as <- <-. cbn [sent live].
        exists (<["id" := CharacterVarying MAX_CHARVAR_LENGTH]> tb).
        rewrite lookup_insert_eq.
        repeat split; try reflexivity.
        -- rewrite lookup_insert_eq. eauto.
        -- intros x Hx. destruct (decide ("id" = x)) as [<- | Hne];
             [rewrite lookup_insert_eq; eauto | now rewrite lookup_insert_ne].
        -- intros x Hx. destruct (decide ("id" = x)) as [<- | Hne];
             [now right | left; now rewrite lookup_insert_ne in Hx].
        -- intros _ m Hm. rewrite lookup_insert_eq in Hm. injection Hm as <-. lia.
        -- intros _ m Hm. rewrite lookup_insert_eq in Hm. injection Hm as <-. lia.
      * rewrite (column_type_live s t "id" tb Htb), Hc in H.
        cbn [comparable_with_text] in H. injection H as <- <-.
        exists tb. apply Z.ltb_ge in En.
        repeat split; try reflexivity; try assumption; eauto.
        all: intros _ m Hm; rewrite Hc in Hm; injection Hm as <-; exact En.
    + apply String.eqb_neq in Eid.
      rewrite (column_type_live s t c tb Htb), Hc in H.
      destruct (comparable_with_text ty); [| injection H; discriminate].
      injection H as <- <-. exists tb.
      repeat split; try reflexivity; try assumption; eauto.
      intros ->. contradiction.
  - (* the column is added *)
    cbn [execute] in H. rewrite Htb, Hc in H.
    injection H as <- <-. cbn [commit sent live].
    exists (<[c := Text]> tb). rewrite lookup_insert_eq.
    repeat split; try reflexivity.
    + rewrite lookup_insert_eq. eauto.
    + intros x Hx. destruct (decide (c = x)) as [<- | Hne];
        [rewrite lookup_insert_eq; eauto | now rewrite lookup_insert_ne].
    + intros x Hx. destruct (decide (c = x)) as [<- | Hne];
        [now right | left; now rewrite lookup_insert_ne in Hx].
    + intros Hw m Hm. destruct (decide (c = "id")) as [-> | Hne].
      * rewrite lookup_insert_eq in Hm. discriminate.
      * rewrite lookup_insert_ne in Hm by exact Hne. now apply Hw.
    + intros -> m Hm. rewrite lookup_insert_eq in Hm. discriminate.
Qed.

(** The loop over the columns, when it succeeds. *)
Lemma confirm_columns_ok t columns :
  forall ex s legacy s' tb,
    confirm_columns MAX_CHARVAR_LENGTH t columns (ex, s) = (OK legacy, s') ->
    live s !! t = Some tb ->
    exists tb',
      live s' !! t = Some tb'
      /\ legacy = legacy_columns columns ex
      /\ (forall c, In c columns -> is_Some (tb' !! c))
      /\ (forall x, is_Some (tb !! x) -> is_Some (tb' !! x))
      /\ (forall x, is_Some (tb' !! x) -> is_Some (tb !! x) \/ In x columns)
      /\ (wide_enough MAX_CHARVAR_LENGTH tb -> wide_enough MAX_CHARVAR_LENGTH tb')
      /\ (In "id" columns -> wide_enough MAX_CHARVAR_LENGTH tb').
Proof.
  induction columns as [|c cs IH]; intros ex s legacy s' tb H Htb.
  - cbn [confirm_columns fst snd] in H. injection H as <- <-.
    exists tb. repeat split; try assumption; try reflexivity; simpl; tauto.
  - cbn [confirm_columns] in H.
    destruct (confirm_column MAX_CHARVAR_LENGTH t c (ex, s)) as [[ex1 | e] s1] eqn:E1;
      [| discriminate].
    destruct (confirm_column_ok _ _ _ _ _ _ _ E1 Htb)
      as (tb1 & Htb1 & -> & Hc & Hmono & Hdom & Hwide & Hid).
    destruct (IH _ _ _ _ _ H Htb1)
      as (tb' & Htb' & -> & Hcs & Hmono' & Hdom' & Hwide' & Hid').
    exists tb'. split; [exact Htb' |]. split; [reflexivity |].
    split; [| split; [| split; [| split]]].
    + intros x [<- | Hx]; [now apply Hmono' | now apply Hcs].
    + intros x Hx. now apply Hmono', Hmono.
    + intros x Hx. destruct (Hdom' x Hx) as [H1 | H1]; [| right; now right].
      destruct (Hdom x H1) as [H2 | ->]; [now left | right; now left].
    + intros Hw. now apply Hwide', Hwide.
    + intros [Hc' | Hx]; [now apply Hwide', Hid | now apply Hid'].
Qed.

(** Dropping the legacy columns, when it succeeds. *)
Lemma drop_columns_ok t legacy :
  forall s u s' tb,
    drop_columns t legacy s = (OK u, s') ->
    live s !! t = Some tb ->
    exists tb',
      live s' !! t = Some tb'
      /\ forall x, tb' !! x = if str_in x legacy then None else tb !! x.
Proof.
  induction legacy as [|c cs IH]; intros s u s' tb H Htb.
  - cbn [drop_columns] in H. injection H as <- <-. exists tb.
    split; [exact Htb | reflexivity].
  - cbn [drop_columns execute] in H. rewrite Htb in H.
    destruct (tb !! c) eqn:Hc; [| discriminate].
    destruct (IH _ _ _ (delete c tb) H) as (tb' & Htb' & Hlook).
    { cbn [sent live]. apply lookup_insert_eq. }
    exists tb'. split; [exact Htb' |]. intros x. rewrite Hlook.
    unfold str_in. cbn [existsb].
    destruct (String.eqb x c) eqn:E; cbn [orb].
    + apply String.eqb_eq in E. subst x. rewrite lookup_delete_eq.
      now destruct (existsb _ cs).
    + apply String.eqb_neq in E. rewrite lookup_delete_ne by congruence.
      reflexivity.
Qed.

(** After a pass of [confirm_table_columns] that ran to its end, the table
    is in step with the sheet. *)
Lemma confirm_table_columns_in_step t columns db tb :
  db !! t = Some tb ->
  outcome (confirm_table_columns MAX_CHARVAR_LENGTH t columns db) = OK tt ->
  exists tb',
    db_after (confirm_table_columns MAX_CHARVAR_LENGTH t columns db) !! t = Some tb'
    /\ in_step MAX_CHARVAR_LENGTH columns tb'.
Proof.
  intros Hdb. unfold confirm_table_columns.
  destruct (confirm_columns _ _ _ _) as [[legacy | e] s1] eqn:E1;
    [| cbn [finish outcome]; discriminate].
  destruct (confirm_columns_ok _ _ _ _ _ _ _ E1 Hdb)
    as (tb1 & Htb1 & -> & Hcs & Hmono & Hdom & Hwide & Hid).
  destruct (drop_columns _ _ _) as [[u | e] s2] eqn:E2;
    [| cbn [finish outcome]; discriminate].
  destruct (drop_columns_ok _ _ _ _ _ _ E2 Htb1) as (tb2 & Htb2 & Hlook).
  intros _. cbn [finish commit db_after durable live].
  exists tb2. split; [exact Htb2 |].
  pose proof (legacy_columns_spec columns _
                (column_names_NoDup (live (connect db)) t ["imported_on"]))
    as [_ Hleg].
  assert (Hkeep : forall c, In c columns -> tb2 !! c = tb1 !! c).
  { intros c Hc. rewrite Hlook.
    replace (str_in c _) with false; [reflexivity |].
    symmetry. apply str_in_false. rewrite Hleg. tauto. }
  split; [| split].
  - intros c Hc. rewrite Hkeep by exact Hc. now apply Hcs.
  - intros x Hx. rewrite Hlook in Hx.
    destruct (str_in x _) eqn:E; [destruct Hx; discriminate |].
    apply str_in_false in E. rewrite Hleg in E.
    destruct (Hdom x Hx) as [Hold | Hnew]; [| now right].
    destruct (decide (x = "imported_on")) as [-> | Hne]; [now left |].
    right. destruct (str_in x columns) eqn:Ein; [now apply str_in_true |].
    apply str_in_false in Ein.
    exfalso. apply E. split; [| exact Ein].
    rewrite (column_names_In _ _ _ _ _ Hdb). split; [exact Hold |].
    simpl. intros [? | []]. congruence.
  - intros Hin m Hm. rewrite (Hkeep _ Hin) in Hm. now apply (Hid Hin).
Qed.

(** On a table that is in step, the loop over the columns sends nothing. *)
Lemma confirm_columns_in_step t columns :
  forall ex s tb,
    live s !! t = Some tb ->
    (forall c, In c columns -> is_Some (tb !! c)) ->
    (In "id" columns -> wide_enough MAX_CHARVAR_LENGTH tb) ->
    exists r,
      confirm_columns MAX_CHARVAR_LENGTH t columns (ex, s) = (r, s)
      /\ forall legacy, r = OK legacy -> legacy = legacy_columns columns ex.
Proof.
  induction columns as [|c cs IH]; intros ex s tb Htb Hcs Hid.
  - exists (OK ex). split; [reflexivity |]. now intros legacy [= <-].
  - cbn [confirm_columns].
    assert (Hstep : exists r, confirm_column MAX_CHARVAR_LENGTH t c (ex, s) = (r, s)
                              /\ forall ex', r = OK ex' -> ex' = strike c ex).
    { unfold confirm_column. rewrite (column_type_live s t c tb Htb).
      destruct (Hcs c (or_introl eq_refl)) as [ty Hty]. rewrite Hty.
      destruct (String.eqb c "id") eqn:Eid.
      - apply String.eqb_eq in Eid. subst c.
        destruct ty as [n | | |]; cbn [character_maximum_length];
          try (eexists; split; [reflexivity | discriminate]).
        assert (Hn : (n <? MAX_CHARVAR_LENGTH)%Z = false).
        { apply Z.ltb_ge. apply (Hid (or_introl eq_refl)). exact Hty. }
        rewrite Hn, (column_type_live s t "id" tb Htb), Hty.
        cbn [comparable_with_text]. eexists. split; [reflexivity |].
        now intros ex' [= <-].
      - rewrite (column_type_live s t c tb Htb), Hty.
        destruct (comparable_with_text ty);
          eexists; (split; [reflexivity |]); [now intros ex' [= <-] | discriminate]. }
    destruct Hstep as ([ex1 | e] & -> & Hex1).
    + rewrite (Hex1 ex1 eq_refl).
      destruct (IH (strike c ex) s tb Htb) as (r & -> & Hr).
      * intros x Hx. apply Hcs. now right.
      * intros Hx. apply Hid. now right.
      * exists r. split; [reflexivity |]. exact Hr.
    + exists (Err e). split; [reflexivity | discriminate].
Qed.

(** A pass over a table that is in step sends no statement and leaves the
    database as it is. *)
Lemma confirm_table_columns_noop t columns db tb :
  db !! t = Some tb ->
  in_step MAX_CHARVAR_LENGTH columns tb ->
  statements (confirm_table_columns MAX_CHARVAR_LENGTH t columns db) = []
  /\ db_after (confirm_table_columns MAX_CHARVAR_LENGTH t columns db) = db.
Proof.
  intros Hdb (Hcs & Hdom & Hid). unfold confirm_table_columns.
  destruct (confirm_columns_in_step t columns
              (column_names (live (connect db)) t ["imported_on"]) (connect db) tb
              Hdb Hcs Hid) as (r & -> & Hr).
  destruct r as [legacy | e]; [| split; reflexivity].
  rewrite (Hr legacy eq_refl).
  assert (Hnil : legacy_columns columns
                   (column_names (live (connect db)) t ["imported_on"]) = []).
  { pose proof (legacy_columns_spec columns _
                  (column_names_NoDup (live (connect db)) t ["imported_on"]))
      as [_ Hleg].
    destruct (legacy_columns _ _) as [|x l]; [reflexivity |].
    exfalso. destruct (proj1 (Hleg x) (or_introl eq_refl)) as [Hx Hnin].
    apply (column_names_In _ _ _ _ _ Hdb) in Hx as [Hx Hex].
    destruct (Hdom x Hx) as [-> | Hin]; [apply Hex; now left | contradiction]. }
  rewrite Hnil. split; reflexivity.
Qed.

(** When [confirm_table_schema] ends well the table exists. *)
Lemma confirm_table_schema_exists t columns db :
  outcome (confirm_table_schema MAX_CHARVAR_LENGTH t columns db) = OK tt ->
  is_Some (db_after (confirm_table_schema MAX_CHARVAR_LENGTH t columns db) !! t).
Proof.
  unfold confirm_table_schema, confirm_schema. cbn [connect live].
  destruct (db !! t) as [tb |] eqn:Hdb.
  - intros _. cbn [finish db_after durable connect]. rewrite Hdb. eauto.
  - unfold create_table.
    destruct (create_statement _ _ _) as [op |] eqn:Eop; cbn [bind];
      [| cbn [finish outcome]; discriminate].
    destruct columns as [|c cs]; [discriminate |].
    injection Eop as <-. cbn [execute live connect]. rewrite Hdb.
    destruct (no_dup_names _); [| cbn [finish outcome]; discriminate].
    intros _. cbn [finish commit db_after durable sent live].
    rewrite lookup_insert_eq. eauto.
Qed.

Lemma confirm_table_schema_present t columns db tb :
  db !! t = Some tb ->
  confirm_table_schema MAX_CHARVAR_LENGTH t columns db = mkRun (OK tt) db [].
Proof.
  intros Hdb. unfold confirm_table_schema, confirm_schema. cbn [connect live].
  now rewrite Hdb.
Qed.

End ReconcilerProperties.

(** On a server that takes names as they are spelled: reconciling a second
    time after a run that ended well, the sheet and the table unchanged,
    sends no schema-changing statement and leaves the database as the first
    run left it. *)
Lemma reconcile_twice_plain (MAX_CHARVAR_LENGTH : Z) (t : string)
    (columns : list string) (db : database) :
  outcome (reconcile MAX_CHARVAR_LENGTH t columns db) = OK tt ->
  let db1 := db_after (reconcile MAX_CHARVAR_LENGTH t columns db) in
  statements (reconcile MAX_CHARVAR_LENGTH t columns db1) = []
  /\ db_after (reconcile MAX_CHARVAR_LENGTH t columns db1) = db1.
Proof.
  unfold reconcile at 1 2.
  destruct (outcome (confirm_table_schema MAX_CHARVAR_LENGTH t columns db))
    as [[] | e] eqn:E0.
  - cbn [outcome db_after]. intros E1.
    destruct (confirm_table_schema_exists _ _ _ _ E0) as [tb0 Htb0].
    destruct (confirm_table_columns_in_step _ _ _ _ _ Htb0 E1) as (tb1 & Htb1 & Hstep).
    cbv zeta. unfold reconcile.
    rewrite (confirm_table_schema_present _ _ _ _ _ Htb1).
    cbn [outcome db_after statements app].
    exact (confirm_table_columns_noop _ _ _ _ _ Htb1 Hstep).
  - intros E1. rewrite E0 in E1. discriminate.
Qed.

(** The second run can still fail, without sending anything: a key column
    that the first run had to add is a [TEXT] column, and the width test of
    the next run compares [None] with the bound. *)
Remark second_run_may_raise :
  let db : database := {[ "visit" := {[ "foo" := Text ]} ]} in
  let r1 := reconcile 255 "visit" ["a"; "id"] db in
  let r2 := reconcile 255 "visit" ["a"; "id"] (db_after r1) in
  outcome r1 = OK tt
  /\ outcome r2 = Err TypeError
  /\ statements r2 = []
  /\ db_after r2 = db_after r1.
Proof. intros db r1 r2. repeat split; vm_compute; reflexivity. Qed.

(** ** The column diff, step by step *)

Section ColumnDiff.

Variable MAX_CHARVAR_LENGTH : Z.

Lemma confirm_column_adds t c ex s tb :
  live s !! t = Some tb ->
  tb !! c = None ->
  confirm_column MAX_CHARVAR_LENGTH t c (ex, s)
  = (OK (strike c ex),
     commit (sent (AddColumn t c Text) s (<[t := <[c := Text]> tb]> (live s)))).
Proof.
  intros Htb Hc. unfold confirm_column.
  rewrite (column_type_live s t c tb Htb), Hc.
  cbn [execute]. now rewrite Htb, Hc.
Qed.

Lemma confirm_column_widens t ex s tb n :
  live s !! t = Some tb ->
  tb !! "id" = Some (CharacterVarying n) ->
  (n < MAX_CHARVAR_LENGTH)%Z ->
  confirm_column MAX_CHARVAR_LENGTH t "id" (ex, s)
  = (OK (strike "id" ex),
     sent (AlterIdType t MAX_CHARVAR_LENGTH) s
       (<[t := <["id" := CharacterVarying MAX_CHARVAR_LENGTH]> tb]> (live s))).
Proof.
  intros Htb Hc Hn. unfold confirm_column.
  rewrite (column_type_live s t "id" tb Htb), Hc.
  cbn [String.eqb Ascii.eqb Bool.eqb character_maximum_length].
  apply Z.ltb_lt in Hn. rewrite Hn. cbn [execute]. rewrite Htb, Hc.
  unfold column_type. cbn [sent live]. rewrite lookup_insert_eq.
  cbn [mbind option_bind]. now rewrite lookup_insert_eq.
Qed.

Lemma confirm_column_keeps t ex s tb n :
  live s !! t = Some tb ->
  tb !! "id" = Some (CharacterVarying n) ->
  (MAX_CHARVAR_LENGTH <= n)%Z ->
  confirm_column MAX_CHARVAR_LENGTH t "id" (ex, s) = (OK (strike "id" ex), s).
Proof.
  intros Htb Hc Hn. unfold confirm_column.
  rewrite (column_type_live s t "id" tb Htb), Hc.
  cbn [String.eqb Ascii.eqb Bool.eqb character_maximum_length].
  apply Z.ltb_ge in Hn. rewrite Hn.
  now rewrite (column_type_live s t "id" tb Htb), Hc.
Qed.

Lemma drop_column_drops t c legacy s tb ty :
  live s !! t = Some tb ->
  tb !! c = Some ty ->
  drop_columns t (c :: legacy) s
  = drop_columns t legacy (sent (DropColumn t c) s (<[t := delete c tb]> (live s))).
Proof. intros Htb Hc. cbn [drop_columns execute]. now rewrite Htb, Hc. Qed.

End ColumnDiff.

Ltac eval_legacy :=
  match goal with
  | |- context [drop_columns ?t ?l ?s] =>
      let l' := eval vm_compute in l in change l with l'
  end.

Ltac this_table := cbn [sent commit connect live]; apply lookup_insert_eq.
Ltac by_lookup := vm_compute; reflexivity.

Ltac same_table :=
  apply map_eq; intros ?;
  repeat (rewrite lookup_delete || rewrite lookup_insert
          || rewrite lookup_singleton || rewrite lookup_empty);
  repeat case_decide; subst; try reflexivity; congruence.

Lemma column_diff_run (MAX_CHARVAR_LENGTH m : Z) (ty1 ty2 : sqltype)
    (t : string) (db : database) :
  let live_table : table :=
    {[ "id" := CharacterVarying m; "imported_on" := ty1; "old_field" := ty2 ]} in
  let r := reconcile MAX_CHARVAR_LENGTH t ["id"; "received_on"; "new_field"]
             (<[t := live_table]> db) in
  outcome r = OK tt
  /\ db_after r
     = <[t := {[ "id" := CharacterVarying (Z.max m MAX_CHARVAR_LENGTH);
                 "imported_on" := ty1;
                 "received_on" := Text; "new_field" := Text ]}]> db.
Proof.
  intros live_table r. subst r. unfold reconcile.
  rewrite (confirm_table_schema_present _ _ _ _ live_table) by apply lookup_insert_eq.
  cbn [outcome db_after statements]. unfold confirm_table_columns.
  assert (Hex : column_names (live (connect (<[t := live_table]> db))) t ["imported_on"]
                = ["old_field"; "id"]).
  { unfold column_names. cbn [connect live]. rewrite lookup_insert_eq. by_lookup. }
  rewrite Hex. clear Hex. cbn [confirm_columns].
  destruct (Z.lt_ge_cases m MAX_CHARVAR_LENGTH) as [Hm | Hm].
  - erewrite confirm_column_widens; [| this_table | by_lookup | exact Hm].
    erewrite confirm_column_adds; [| this_table | by_lookup].
    erewrite confirm_column_adds; [| this_table | by_lookup].
    cbn [fst snd]. eval_legacy.
    erewrite drop_column_drops; [| this_table | by_lookup].
    cbn [drop_columns finish commit sent outcome db_after durable live connect].
    split; [reflexivity |].
    rewrite !insert_insert_eq. f_equal. rewrite Z.max_r by lia.
    subst live_table. same_table.
  - erewrite confirm_column_keeps; [| this_table | by_lookup | exact Hm].
    erewrite confirm_column_adds; [| this_table | by_lookup].
    erewrite confirm_column_adds; [| this_table | by_lookup].
    cbn [fst snd]. eval_legacy.
    erewrite drop_column_drops; [| this_table | by_lookup].
    cbn [drop_columns finish commit sent outcome db_after durable live connect].
    split; [reflexivity |].
    rewrite !insert_insert_eq. f_equal. rewrite Z.max_l by lia.
    subst live_table. same_table.
Qed.

(** C4. The live table has the columns [id], [imported_on], [old_field], the
    sheet has [id], [received_on], [new_field]: the run ends well and the
    table then has exactly [id], [imported_on], [received_on], [new_field].
    The key is a [character varying] column, as the program creates it; no
    other table is touched. *)
Theorem column_diff_scenario (MAX_CHARVAR_LENGTH m : Z) (ty1 ty2 : sqltype)
    (t : string) (db : database) :
  let live_table : table :=
    {[ "id" := CharacterVarying m; "imported_on" := ty1; "old_field" := ty2 ]} in
  let r := reconcile MAX_CHARVAR_LENGTH t ["id"; "received_on"; "new_field"]
             (<[t := live_table]> db) in
  outcome r = OK tt
  /\ (dom <$> db_after r !! t)
     = Some ({[ "id"; "imported_on"; "received_on"; "new_field" ]} : gset string)
  /\ (forall t', t' <> t -> db_after r !! t' = db !! t').
Proof.
  intros live_table r.
  destruct (column_diff_run MAX_CHARVAR_LENGTH m ty1 ty2 t db) as [Hok Hdb].
  fold live_table in Hok, Hdb. fold r in Hok, Hdb.
  split; [exact Hok |]. rewrite Hdb. split.
  - rewrite lookup_insert_eq. cbn [fmap option_fmap option_map]. f_equal.
    all: rewrite !dom_insert_L, dom_empty_L; set_solver.
  - intros t' Hne. now rewrite lookup_insert_ne.
Qed.

(** ** Case tables *)

Lemma inner_last (p : string) (ps : list string) :
  inner (p :: ps) ++ [List.last (p :: ps) ""]
  = match ps with [] => [p] | _ :: _ => ps end.
Proof.
  destruct ps as [|q qs]; [reflexivity |].
  unfold inner. cbn [tail].
  change (List.last (p :: q :: qs) "") with (List.last (q :: qs) "").
  symmetry. apply app_removelast_last. discriminate.
Qed.

(** With distinct property names that are not [id] or [imported_on], and no
    table of that name yet, the statement is accepted and the table is
    there. *)
Lemma create_case_table_creates (t : string) (case_data : case_spec) (db : database)
    (p : string) (ps : list string) :
  properties case_data = p :: ps ->
  db !! t = None ->
  no_dup_names ("id" :: "imported_on" :: match ps with [] => [p] | _ :: _ => ps end)
  = true ->
  outcome (confirm_case_table_schema t case_data db) = OK tt
  /\ is_Some (db_after (confirm_case_table_schema t case_data db) !! t).
Proof.
  intros Hps Hdb Hnd.
  unfold confirm_case_table_schema, confirm_schema, create_case_table.
  rewrite Hps. cbn [connect live create_statement bind execute]. rewrite Hdb.
  assert (Hnames :
            map fst ([("id", CharacterVarying 255); ("imported_on", Timestamp)]
                     ++ map (fun column => (column, Text)) (inner (p :: ps))
                     ++ [(List.last (p :: ps) "", Text)])
            = "id" :: "imported_on" :: match ps with [] => [p] | _ :: _ => ps end).
  { cbn [map fst app]. do 2 f_equal.
    rewrite <- inner_last, !List.map_app, List.map_map. cbn [map fst].
    f_equal. apply List.map_id. }
  rewrite Hnames, Hnd.
  cbn [finish commit sent outcome db_after durable live].
  rewrite lookup_insert_eq. eauto.
Qed.

(** C10. [create_case_table] reads the last property: with no property it
    raises [IndexError], and the absent table stays absent; with at least
    one property the statement is built: the key, [imported_on], and a
    [TEXT] column for each property after the first (for the only one, when
    there is just one). A case type whose properties all belong to the
    parent comes out of [get_all_cases] with none. *)
Theorem create_case_table_needs_property :
  (forall t s, create_case_table t [] s = Err IndexError)
  /\ (forall t name db,
        confirm_case_table_schema t (mkCase name []) (delete t db)
        = mkRun (Err IndexError) (delete t db) [])
  /\ (forall t p ps,
        create_statement t (CharacterVarying 255) (p :: ps)
        = OK (CreateTable t
                ([("id", CharacterVarying 255); ("imported_on", Timestamp)]
                 ++ map (fun column => (column, Text))
                      (match ps with [] => [p] | _ :: _ => ps end))))
  /\ get_all_cases [mkModule "household" ["parent/village"]]
     = [mkCase "household" []].
Proof.
  split; [reflexivity |]. split; [| split; [| reflexivity]].
  - intros t name db.
    unfold confirm_case_table_schema, confirm_schema.
    cbn [connect live properties]. now rewrite lookup_delete_eq.
  - intros t p ps. unfold create_statement. do 2 f_equal. cbn [app]. do 2 f_equal.
    rewrite <- inner_last, List.map_app. reflexivity.
Qed.

(** * Further properties

    What the code shows beyond the statements of the design document. *)

(** ** Shortening, again *)

Lemma startswith_len (p s : string) : startswith p s = true -> py_len p <= py_len s.
Proof.
  revert s. induction p as [|a p IH]; intros s; simpl; [lia |].
  destruct s as [|b s]; [discriminate |].
  intros H. apply andb_true_iff in H as [_ H]. apply IH in H. simpl. unfold py_len in *. lia.
Qed.

Lemma replace_scan_len (old new : string) :
  py_len new <= py_len old ->
  forall s skip, skip <= py_len s ->
    py_len (replace_scan old new skip s) <= py_len s - skip.
Proof.
  intros Hnew. induction s as [|c s IH]; intros skip Hskip; cbn [replace_scan]; [simpl; lia |].
  destruct skip as [|k].
  - destruct (startswith old (String c s)) eqn:E.
    + apply startswith_len in E. rewrite py_len_app.
      change (py_len (String c s)) with (S (py_len s)) in *.
      specialize (IH (py_len old - 1)). lia.
    + specialize (IH 0). change (py_len (String c ?x)) with (S (py_len x)). lia.
  - change (py_len (String c s)) with (S (py_len s)) in *.
    specialize (IH k). lia.
Qed.

(** A replacement by a string that is not longer never lengthens. *)
Lemma replace_len_le (old new s : string) :
  old <> "" -> py_len new <= py_len old ->
  py_len (replace old new s) <= py_len s.
Proof.
  intros Hold Hnew. unfold replace. destruct old as [|a old]; [contradiction |].
  pose proof (replace_scan_len (String a old) new Hnew s 0). lia.
Qed.

Lemma strip_replacements_le (s : string) :
  py_len (strip_replacements s) <= py_len s.
Proof.
  unfold strip_replacements, replace_change, replace_enrollment, remove_parens, replace_and.
  repeat match goal with
         | |- py_len (replace ?o ?n ?x) <= _ =>
             transitivity (py_len x);
             [apply replace_len_le; [discriminate | simpl; lia] |]
         end.
  lia.
Qed.

Lemma chop_loop_le (fuel : nat) :
  forall s last, py_len (chop_loop fuel s last) <= py_len s.
Proof.
  induction fuel as [|f IH]; intros s last; cbn [chop_loop]; [lia |].
  destruct (_ && _); [| lia].
  specialize (IH (chop_pass s) (Some s)). pose proof (chop_pass_le s). lia.
Qed.

(** X1. Shortening never lengthens a name. *)
Theorem strip_sheet_name_never_longer (sheet_name : string) :
  py_len (strip_sheet_name sheet_name) <= py_len sheet_name.
Proof.
  unfold strip_sheet_name.
  pose proof (chop_loop_le (S (S (py_len (strip_replacements sheet_name))))
                (strip_replacements sheet_name) None) as H.
  pose proof (strip_replacements_le sheet_name). cbv zeta. lia.
Qed.

Lemma chop_first_long_fixed (words : list string) :
  chop_first_long words = words ->
  Forall (fun w => py_len w <= 1) (removelast words).
Proof.
  induction words as [|w ws IH]; [constructor |].
  destruct ws as [|w' ws]; [constructor |].
  rewrite chop_first_long_cons.
  destruct (1 <? py_len w)%nat eqn:E.
  - apply Nat.ltb_lt in E. intros H. injection H as H.
    apply (f_equal py_len) in H. rewrite first_char_len in H by exact E. lia.
  - apply Nat.ltb_ge in E. intros H. injection H as H.
    change (removelast (w :: w' :: ws)) with (w :: removelast (w' :: ws)).
    constructor; [exact E | now apply IH].
Qed.

Lemma chop_pass_fixed (s : string) :
  chop_pass s = s -> chop_first_long (split "_" s) = split "_" s.
Proof.
  intros H. destruct (chop_first_long_cases (split "_" s)) as [E | [El Et]]; [exact E |].
  exfalso. apply (f_equal py_len) in H. unfold chop_pass in H.
  rewrite <- (join_split "_" s) in H at 2.
  rewrite !py_len_join, El in H. lia.
Qed.

(** X2. The shortening gives up only when there is nothing left to cut: a
    result longer than 31 characters has, between its underscores, words of
    one character at most, the last word apart. *)
Theorem strip_sheet_name_gives_up (sheet_name : string) :
  31 < py_len (strip_sheet_name sheet_name) ->
  Forall (fun w => py_len w <= 1)
         (removelast (split "_" (strip_sheet_name sheet_name))).
Proof.
  intros Hlong.
  destruct (strip_sheet_name_spec sheet_name) as (n & _ & _ & [Hfit | Hfix]); [lia |].
  apply chop_first_long_fixed, chop_pass_fixed, Hfix.
Qed.

Lemma strip_sheet_name_gives_up_witness :
  let s := "household_and_enrollment_abcdefghijklmnopqrstuvwxyzabcdefghijkl" in
  31 < py_len (strip_sheet_name s)
  /\ Forall (fun w => py_len w <= 1) (removelast (split "_" (strip_sheet_name s))).
Proof.
  intros s.
  assert (H : 31 < py_len (strip_sheet_name s)) by (vm_compute; lia).
  split; [exact H | exact (strip_sheet_name_gives_up s H)].
Defined.

(** ** Characters of names *)

Lemma chars_app (a b : string) : chars (a +:+ b) = chars a ++ chars b.
Proof. induction a as [|c a IH]; simpl; [reflexivity | now rewrite IH]. Qed.

Lemma ascii_eqb_eq (a b : ascii) : ascii_eqb a b = true <-> a = b.
Proof. apply Ascii.eqb_eq. Qed.

(** Replacing one character: it is gone, and what is new comes from the
    replacement. *)
Lemma replace_char_Forall (P : ascii -> Prop) (c : ascii) (new s : string) :
  Forall P (chars s) ->
  Forall (fun x => P x /\ x <> c) (chars new) ->
  Forall (fun x => P x /\ x <> c) (chars (replace (String c "") new s)).
Proof.
  intros Hs Hnew. unfold replace.
  induction s as [|a s IH]; cbn [replace_scan]; [constructor |].
  apply Forall_cons in Hs as [Ha Hs]. specialize (IH Hs).
  cbn [startswith py_len String.length Nat.sub].
  destruct (ascii_eqb c a) eqn:E; cbn [andb].
  - rewrite chars_app. apply Forall_app. split; [exact Hnew | exact IH].
  - simpl. constructor; [| exact IH]. split; [exact Ha |].
    intros ->. unfold ascii_eqb in E. rewrite Ascii.eqb_refl in E. discriminate.
Qed.

Lemma lower_ascii_not_upper (c : ascii) : is_upper (lower_ascii c) = false.
Proof.
  unfold lower_ascii, is_upper.
  destruct ((65 <=? nat_of_ascii c)%nat && (nat_of_ascii c <=? 90)%nat) eqn:E.
  - apply andb_true_iff in E as [E1 E2].
    apply Nat.leb_le in E1, E2.
    rewrite nat_ascii_embedding by lia.
    apply andb_false_iff. right. apply Nat.leb_gt. lia.
  - exact E.
Qed.

Lemma lower_chars (s : string) :
  Forall (fun x => is_upper x = false) (chars (lower s)).
Proof.
  induction s as [|c s IH]; simpl; constructor; [apply lower_ascii_not_upper | exact IH].
Qed.

Lemma split_fields (sep : ascii) (P : ascii -> Prop) (s : string) :
  Forall P (chars s) ->
  Forall (fun w => Forall (fun x => P x /\ x <> sep) (chars w)) (split sep s).
Proof.
  induction s as [|c s IH]; intros Hs; cbn [split].
  - repeat constructor.
  - apply Forall_cons in Hs as [Hc Hs]. specialize (IH Hs).
    destruct (ascii_eqb c sep) eqn:E.
    + constructor; [constructor | exact IH].
    + assert (Hne : c <> sep).
      { intros ->. unfold ascii_eqb in E. rewrite Ascii.eqb_refl in E. discriminate. }
      destruct (split sep s) as [|w ws].
      * repeat constructor; assumption.
      * apply Forall_cons in IH as [Hw Hws].
        constructor; [| exact Hws]. simpl. constructor; [now split | exact Hw].
Qed.

Lemma last_Forall {A : Type} (P : A -> Prop) (l : list A) (d : A) :
  Forall P l -> P d -> P (List.last l d).
Proof.
  induction l as [|x l IH]; intros Hl Hd; [exact Hd |].
  apply Forall_cons in Hl as [Hx Hl].
  destruct l as [|y l]; [exact Hx |]. now apply IH.
Qed.

Lemma contains_char_false (c : ascii) (s : string) :
  contains (String c "") s = false -> Forall (fun x => x <> c) (chars s).
Proof.
  induction s as [|a s IH]; cbn [contains startswith]; intros H; [constructor |].
  apply orb_false_iff in H as [H1 H2].
  simpl. constructor; [| now apply IH].
  intros ->. 
  destruct s; cbn [startswith] in H1; unfold ascii_eqb in H1;
    rewrite Ascii.eqb_refl in H1; discriminate.
Qed.

(** X3. The name of a database column holds no dot, slash or dash and no
    upper-case letter. *)
Theorem db_column_name_chars (qid : string) :
  Forall (fun c => c <> "."%char /\ c <> "/"%char /\ c <> "-"%char
                   /\ is_upper c = false)
         (chars (db_column_name qid)).
Proof.
  unfold db_column_name.
  set (n := replace "-" "_" (replace "/" "." (lower qid))).
  assert (Hn : Forall (fun x => (is_upper x = false /\ x <> "/"%char) /\ x <> "-"%char)
                      (chars n)).
  { subst n. apply replace_char_Forall.
    - apply replace_char_Forall; [apply lower_chars |].
      repeat constructor; discriminate.
    - repeat constructor; discriminate. }
  destruct (contains "." n) eqn:E.
  - unfold last_field.
    pose proof (split_fields "." _ n Hn) as Hf.
    apply (last_Forall _ _ EmptyString) in Hf; [| constructor].
    eapply Forall_impl; [exact Hf |]. cbn beta. intros c. tauto.
  - apply contains_char_false in E.
    assert (H : Forall (fun x => ((is_upper x = false /\ x <> "/"%char) /\ x <> "-"%char)
                                 /\ x <> "."%char) (chars n))
      by (apply Forall_and; now split).
    eapply Forall_impl; [exact H |]. cbn beta. intros c. tauto.
Qed.

Lemma model_file_of_chars (name : string) :
  Forall (fun x => is_upper x = false) (chars name) ->
  Forall (fun c => c <> "/"%char /\ c <> " "%char /\ c <> "-"%char
                   /\ c <> "&"%char /\ c <> "("%char /\ c <> ")"%char
                   /\ is_upper c = false)
         (chars (model_file_of name)).
Proof.
  intros H0. unfold model_file_of.
  repeat match goal with
         | H : Forall ?P (chars ?s) |- context [replace (String ?c "") ?new ?s] =>
             let H' := fresh "H" in
             assert (H' : Forall (fun x => P x /\ x <> c)
                                 (chars (replace (String c "") new s)))
               by (apply (replace_char_Forall P c new s H);
                   repeat constructor; discriminate);
             clear H
         end.
  eapply Forall_impl; [eassumption |]. cbn beta. intros c. tauto.
Qed.

(** X4. The name of the module file of a form or of a case holds no slash,
    space, dash, ampersand or parenthesis and no upper-case letter: the
    file is written into the models directory itself. *)
Theorem model_file_name_chars (name : string) :
  let plain c :=
    c <> "/"%char /\ c <> " "%char /\ c <> "-"%char /\ c <> "&"%char
    /\ c <> "("%char /\ c <> ")"%char /\ is_upper c = false in
  Forall plain (chars (model_file_name name))
  /\ Forall plain (chars (case_model_file_name name)).
Proof.
  cbv zeta. split; apply model_file_of_chars.
  - rewrite chars_app. apply Forall_app. split; [apply lower_chars |].
    repeat constructor.
  - rewrite !chars_app. apply Forall_app. split; [repeat constructor |].
    apply Forall_app. split; [apply lower_chars | repeat constructor].
Qed.

(** ** The cases of an application *)

Lemma case_known_true (name : string) (case_list : list case_spec) :
  case_known name case_list = true <-> In name (map case_name case_list).
Proof.
  unfold case_known. rewrite existsb_exists, in_map_iff. split.
  - intros (c & Hc & E). apply String.eqb_eq in E. now exists c.
  - intros (c & E & Hc). exists c. split; [exact Hc | now apply String.eqb_eq].
Qed.

Lemma case_known_false (name : string) (case_list : list case_spec) :
  case_known name case_list = false <-> ~ In name (map case_name case_list).
Proof.
  rewrite <- case_known_true. destruct (case_known name case_list); split; congruence.
Qed.

(** The loop over the modules, from any list of cases found so far. *)
Lemma collect_cases_names (modules : list app_module) :
  forall case_list,
    List.NoDup (map case_name case_list) ->
    List.NoDup (map case_name (collect_cases modules case_list))
    /\ forall name,
         In name (map case_name (collect_cases modules case_list))
         <-> In name (map case_name case_list)
             \/ (name <> "" /\ In name (map case_type modules)).
Proof.
  induction modules as [|m ms IH]; intros acc Hnd; cbn [collect_cases].
  - split; [exact Hnd |]. intros name. simpl. tauto.
  - destruct (String.eqb (case_type m) "") eqn:Eempty.
    + apply String.eqb_eq in Eempty.
      destruct (IH acc Hnd) as [Hnd' Hin]. split; [exact Hnd' |].
      intros name. rewrite Hin. simpl. intuition congruence.
    + apply String.eqb_neq in Eempty.
      destruct (case_known (case_type m) acc) eqn:Eknown.
      * apply case_known_true in Eknown.
        destruct (IH acc Hnd) as [Hnd' Hin]. split; [exact Hnd' |].
        intros name. rewrite Hin. simpl. intuition congruence.
      * apply case_known_false in Eknown.
        destruct (IH (acc ++ [mkCase (case_type m) (own_properties m)])) as [Hnd' Hin].
        { rewrite List.map_app. cbn [map case_name].
          apply NoDup_ListNoDup, NoDup_app. repeat split.
          - now apply NoDup_ListNoDup.
          - intros x Hx Hx'. apply list_elem_of_In in Hx.
            apply list_elem_of_singleton in Hx'. congruence.
          - apply NoDup_singleton. }
        split; [exact Hnd' |].
        intros name. rewrite Hin, List.map_app, in_app_iff. simpl. intuition congruence.
Qed.

(** X5. The names of the cases of [get_all_cases] are the case types of the
    modules, the empty one left out, each of them once. *)
Theorem get_all_cases_names (modules : list app_module) :
  NoDup (map case_name (get_all_cases modules))
  /\ forall name,
       In name (map case_name (get_all_cases modules))
       <-> name <> "" /\ In name (map case_type modules).
Proof.
  destruct (collect_cases_names modules [] (List.NoDup_nil _)) as [Hnd Hin].
  split; [now apply NoDup_ListNoDup |]. intros name. unfold get_all_cases. rewrite Hin. simpl. tauto.
Qed.

Lemma collect_cases_first (modules : list app_module) :
  forall seen case_list,
    (forall name, name <> "" -> In name (map case_type seen) ->
                  In name (map case_name case_list)) ->
    Forall (first_module_of (seen ++ modules)) case_list ->
    Forall (first_module_of (seen ++ modules)) (collect_cases modules case_list).
Proof.
  induction modules as [|m ms IH]; intros seen acc Hseen Hacc; cbn [collect_cases];
    [exact Hacc |].
  replace (seen ++ m :: ms) with ((seen ++ [m]) ++ ms) in *
    by (now rewrite <- app_assoc).
  destruct (String.eqb (case_type m) "") eqn:Eempty.
  - apply String.eqb_eq in Eempty. apply IH; [| exact Hacc].
    intros name Hne Hin. rewrite List.map_app, in_app_iff in Hin.
    destruct Hin as [Hin | [Hin | []]]; [now apply Hseen | simpl in Hin; congruence].
  - apply String.eqb_neq in Eempty.
    destruct (case_known (case_type m) acc) eqn:Eknown.
    + apply case_known_true in Eknown. apply IH; [| exact Hacc].
      intros name Hne Hin. rewrite List.map_app, in_app_iff in Hin.
      destruct Hin as [Hin | [Hin | []]]; [now apply Hseen | simpl in Hin; congruence].
    + apply case_known_false in Eknown. apply IH.
      * intros name Hne Hin. rewrite !List.map_app, !in_app_iff in *.
        destruct Hin as [Hin | Hin]; [left; now apply Hseen | right; exact Hin].
      * apply Forall_app. split; [exact Hacc |].
        constructor; [| constructor].
        exists seen, m, ms. cbn [case_name properties].
        split; [now rewrite <- app_assoc |]. split; [reflexivity |].
        split; [| reflexivity].
        intros Hin. apply Eknown. now apply Hseen.
Qed.

(** X6. Every case of [get_all_cases] has the properties of the first module of
    its type, those of the parent case left out; a later module of the same
    type adds nothing. *)
Theorem get_all_cases_first_module (modules : list app_module) :
  Forall (fun c =>
            first_module_of modules c
            /\ Forall (fun p => startswith "parent/" p = false) (properties c))
         (get_all_cases modules).
Proof.
  pose proof (collect_cases_first modules [] []) as H.
  cbn [app] in H. unfold get_all_cases.
  assert (Hall : Forall (first_module_of modules) (collect_cases modules [])).
  { apply H; [intros name _ [] | constructor]. }
  eapply Forall_impl; [exact Hall |]. cbn beta.
  intros c Hc. split; [exact Hc |].
  destruct Hc as (before & m & after & _ & _ & _ & ->).
  unfold own_properties. apply Forall_forall. intros p Hp.
  apply list_elem_of_In, filter_In in Hp as [_ Hp]. now apply negb_true_iff.
Qed.

Lemma py_len_lower (s : string) : py_len (lower s) = py_len s.
Proof. unfold py_len. induction s as [|c s IH]; simpl; [reflexivity | now rewrite IH]. Qed.

Lemma standard_replacements_le (s : string) :
  py_len (standard_replacements s) <= py_len s.
Proof.
  unfold standard_replacements.
  repeat match goal with
         | |- py_len (replace ?o ?n ?x) <= _ =>
             transitivity (py_len x);
             [apply replace_len_le; [discriminate | simpl; lia] |]
         end.
  lia.
Qed.

(** X7. A case name of at most 26 characters, all of them ASCII, is never
    shortened: its sheet is named "case_" and the lower-cased name,
    parentheses and dashes removed. *)
Theorem generate_case_spreadsheet_short (case_information : case_spec)
    (database_table_names : list string) :
  is_ascii (case_name case_information) = true ->
  py_len (case_name case_information) <= 26 ->
  let sheet_name :=
    standard_replacements ("case_" +:+ lower (case_name case_information)) in
  generate_case_spreadsheet case_information database_table_names
  = OK (sheet_name, database_table_names ++ [sheet_name]).
Proof.
  intros _ Hlen sheet_name. unfold generate_case_spreadsheet.
  fold sheet_name. rewrite compress_short; [reflexivity |].
  subst sheet_name.
  pose proof (standard_replacements_le ("case_" +:+ lower (case_name case_information))) as H.
  rewrite py_len_app, py_len_lower in H. simpl py_len in H at 2. lia.
Qed.

Lemma generate_case_spreadsheet_short_witness :
  generate_case_spreadsheet (mkCase "Household (Rural)" ["name"; "village"]) ["case_patient"]
  = OK ("case_household rural", ["case_patient"; "case_household rural"]).
Proof.
  refine (generate_case_spreadsheet_short
            (mkCase "Household (Rural)" ["name"; "village"]) ["case_patient"] _ _).
  - reflexivity.
  - vm_compute. lia.
Defined.

(** ** The store of a normalised form *)

Lemma map_h_q_alter (f : hnode -> hnode) (h : store) :
  (forall n, h_q (f n) = h_q n) ->
  forall p, map h_q (alter f p h) = map h_q h.
Proof.
  intros Hf. induction h as [|x h IH]; intros [|p]; cbn; try reflexivity.
  - now rewrite Hf.
  - f_equal. apply IH.
Qed.

(** The three conditional appends are one update of the parent. *)
Lemma place_question_adopt (h h' : store) (q : question) :
  place_question h q = OK h' ->
  is_type "Trigger" q = false ->
  exists p,
    find_parent (S (length h)) h 0
      (resolve_parent_name (hint (q_group_member q)) (hint (q_loop_member q)))
    = Some p
    /\ p < length h
    /\ h' = alter (adopt q (length h)) p (h ++ [mkHnode q [] [] []]).
Proof.
  unfold place_question. intros H Ht. rewrite Ht in H.
  destruct (find_parent _ _ _ _) as [p |] eqn:Ep; [| discriminate].
  exists p. split; [reflexivity |].
  pose proof (find_parent_in_store _ _ _ _ _ Ep) as Hp. split; [exact Hp |].
  injection H as <-. unfold store, adopt in *.
  apply list_eq. intros i.
  destruct (decide (i = p)) as [-> | Hne].
  - destruct (q_group q), (is_type "Repeat" q); cbn [andb negb];
      rewrite ?list_lookup_alter_eq;
      destruct ((h ++ [mkHnode q [] [] []]) !! p) as [n |]; cbn; try reflexivity;
      unfold append_group, append_loop, append_question;
      cbn [h_q h_groups h_loops h_questions andb negb];
      rewrite ?app_nil_r; reflexivity.
  - destruct (q_group q), (is_type "Repeat" q); cbn [andb negb];
      rewrite ?list_lookup_alter_ne by congruence; reflexivity.
Qed.

Lemma place_question_trigger (h : store) (q : question) :
  is_type "Trigger" q = true -> place_question h q = OK h.
Proof. intros H. unfold place_question. now rewrite H. Qed.

Lemma place_questions_app (qs1 qs2 : list question) :
  forall h,
    place_questions h (qs1 ++ qs2)
    = let* h1 := place_questions h qs1 in place_questions h1 qs2.
Proof.
  induction qs1 as [|q qs1 IH]; intros h; cbn [app place_questions bind]; [reflexivity |].
  destruct (place_question h q) as [h1 |]; cbn [bind]; [apply IH | reflexivity].
Qed.

(** An invariant of the loop over the questions holds of the result. *)
Lemma place_questions_invariant (P : store -> Prop) :
  (forall h h' q, P h -> place_question h q = OK h' -> P h') ->
  forall qs h h', P h -> place_questions h qs = OK h' -> P h'.
Proof.
  intros Hstep. induction qs as [|q qs IH]; intros h h' Hh; cbn [place_questions].
  - now intros [= <-].
  - destruct (place_question h q) as [h1 |] eqn:E; cbn [bind]; [| discriminate].
    apply IH. now apply (Hstep h h1 q).
Qed.

Lemma place_question_objects (h h' : store) (q : question) :
  place_question h q = OK h' ->
  map h_q h' = map h_q h ++ (if is_type "Trigger" q then [] else [q]).
Proof.
  intros H. destruct (is_type "Trigger" q) eqn:Et.
  - rewrite place_question_trigger in H by exact Et. injection H as <-.
    now rewrite app_nil_r.
  - destruct (place_question_adopt _ _ _ H Et) as (p & _ & _ & ->).
    rewrite map_h_q_alter by reflexivity. now rewrite List.map_app.
Qed.

Lemma place_questions_objects (qs : list question) :
  forall h h',
    place_questions h qs = OK h' ->
    map h_q h' = map h_q h ++ List.filter (fun q => negb (is_type "Trigger" q)) qs.
Proof.
  induction qs as [|q qs IH]; intros h h'; cbn [place_questions List.filter].
  - intros [= <-]. now rewrite app_nil_r.
  - destruct (place_question h q) as [h1 |] eqn:E; cbn [bind]; [| discriminate].
    intros H. rewrite (IH _ _ H), (place_question_objects _ _ _ E).
    rewrite <- app_assoc. destruct (is_type "Trigger" q); reflexivity.
Qed.

(** X8. The objects of a normalised form are its own dictionary and then its
    questions, in their order, each one once, those of type "Trigger" left
    out. *)
Theorem normalize_objects (questions : list question) (h : store) :
  normalize questions = OK h ->
  map h_q h
  = form_obj_question
    :: List.filter (fun q => negb (is_type "Trigger" q)) questions.
Proof.
  intros H. unfold normalize in H.
  apply place_questions_objects in H. exact H.
Qed.

Lemma normalize_objects_witness :
  let group := mkQuestion "g" (Some "/data/g") (Some "Group") None None true None None in
  let note := mkQuestion "g/note" (Some "/data/g/note") (Some "Trigger") None None
                false (Some "/data/g") None in
  let age := mkQuestion "g/age" (Some "/data/g/age") (Some "Int") None None
               false (Some "/data/g") None in
  map h_q [ mkHnode form_obj_question [1] [] [];
            mkHnode group [] [] [2];
            mkHnode age [] [] [] ]
  = form_obj_question
    :: List.filter (fun q => negb (is_type "Trigger" q)) [group; note; age].
Proof.
  intros group note age.
  refine (normalize_objects [group; note; age] _ _).
  vm_compute. reflexivity.
Defined.

(** The store after a question that is kept: the new object at the end, the
    parent updated, the rest as it was. *)
Lemma adopt_lookup (h : store) (q : question) (p : nat) (n : hnode) :
  h !! p = Some n ->
  let h' := alter (adopt q (length h)) p (h ++ [mkHnode q [] [] []]) in
  h' !! p = Some (adopt q (length h) n)
  /\ h' !! length h = Some (mkHnode q [] [] [])
  /\ length h' = S (length h)
  /\ forall i, i <> p -> i <> length h -> h' !! i = h !! i.
Proof.
  intros Hn h'. subst h'. unfold store in *.
  pose proof (lookup_lt_Some _ _ _ Hn) as Hp.
  split; [| split; [| split]].
  - rewrite list_lookup_alter_eq, lookup_app_l by exact Hp. now rewrite Hn.
  - rewrite list_lookup_alter_ne by lia.
    rewrite lookup_app_r by lia. now rewrite Nat.sub_diag.
  - rewrite length_alter, length_app. simpl. lia.
  - intros i Hi Hi'. rewrite list_lookup_alter_ne by congruence.
    destruct (decide (i < length h)) as [Hlt | Hge].
    + now rewrite lookup_app_l.
    + rewrite lookup_app_r by lia.
      destruct (i - length h) as [|k] eqn:E; [lia |].
      rewrite (lookup_ge_None_2 h i) by lia. now destruct k.
Qed.

(** A kept question leaves every object where it was, with its scalars. *)
Lemma place_question_keeps (h h' : store) (q : question) :
  place_question h q = OK h' ->
  forall i n, h !! i = Some n ->
    exists n', h' !! i = Some n' /\ h_q n' = h_q n
               /\ incl (h_groups n) (h_groups n')
               /\ incl (h_loops n) (h_loops n').
Proof.
  intros H i n Hn. unfold store in *. destruct (is_type "Trigger" q) eqn:Et.
  - rewrite place_question_trigger in H by exact Et. injection H as <-.
    exists n. repeat split; [exact Hn | apply incl_refl | apply incl_refl].
  - destruct (place_question_adopt _ _ _ H Et) as (p & _ & Hp & ->).
    destruct (lookup_lt_is_Some_2 h p Hp) as [np Hnp].
    destruct (adopt_lookup h q p np Hnp) as (Hp' & _ & _ & Hother).
    destruct (decide (i = p)) as [-> | Hne].
    + rewrite Hnp in Hn. injection Hn as <-.
      exists (adopt q (length h) np). split; [exact Hp' |].
      cbn [adopt h_q h_groups h_loops]. repeat split; apply incl_appl, incl_refl.
    + exists n. rewrite Hother; [| exact Hne | apply lookup_lt_Some in Hn; lia].
      repeat split; [exact Hn | apply incl_refl | apply incl_refl].
Qed.

Lemma place_question_sorted (h h' : store) (q : question) :
  sorted_children h -> place_question h q = OK h' -> sorted_children h'.
Proof.
  intros Hs H. unfold sorted_children, store in *.
  destruct (is_type "Trigger" q) eqn:Et.
  { rewrite place_question_trigger in H by exact Et. now injection H as <-. }
  pose proof (place_question_keeps _ _ _ H) as Hkeep.
  destruct (place_question_adopt _ _ _ H Et) as (p & _ & Hp & ->).
  destruct (lookup_lt_is_Some_2 h p Hp) as [np Hnp].
  destruct (adopt_lookup h q p np Hnp) as (Hp' & Hnew & _ & Hother).
  cbv zeta in *.
  set (h' := alter (adopt q (length h)) p (h ++ [mkHnode q [] [] []])) in *.
  assert (Hold : forall (P : question -> Prop) c m,
             h !! c = Some m -> P (h_q m) -> exists m', h' !! c = Some m' /\ P (h_q m')).
  { intros P c m Hc HP. destruct (Hkeep c m Hc) as (m' & Hm' & Hq & _).
    exists m'. split; [exact Hm' | now rewrite Hq]. }
  intros i n Hn.
  destruct (decide (i = p)) as [-> | Hne].
  - rewrite Hp' in Hn. injection Hn as <-.
    destruct (Hs p np Hnp) as (Hg & Hl & Hq).
    cbn [adopt h_groups h_loops h_questions].
    split; [| split]; intros c Hc; apply in_app_iff in Hc as [Hc | Hc].
    + destruct (Hg c Hc) as (m & Hm & Hm').
      apply (Hold (fun x => q_group x = true /\ is_type "Repeat" x = false) c m Hm Hm').
    + destruct (q_group q) eqn:Eg, (is_type "Repeat" q) eqn:Er;
        cbn [andb negb] in Hc;
        (destruct Hc as [<- | []] || destruct Hc).
      exists (mkHnode q [] [] []). now rewrite Hnew.
    + destruct (Hl c Hc) as (m & Hm & Hm').
      apply (Hold (fun x => is_type "Repeat" x = true) c m Hm Hm').
    + destruct (is_type "Repeat" q) eqn:Er;
        (destruct Hc as [<- | []] || destruct Hc).
      exists (mkHnode q [] [] []). now rewrite Hnew.
    + destruct (Hq c Hc) as (m & Hm & Hm').
      apply (Hold (fun x => q_group x = false) c m Hm Hm').
    + destruct (q_group q) eqn:Eg; cbn [negb] in Hc;
        (destruct Hc as [<- | []] || destruct Hc).
      exists (mkHnode q [] [] []). now rewrite Hnew.
  - destruct (decide (i = length h)) as [-> | Hne'].
    + rewrite Hnew in Hn. injection Hn as <-.
      cbn [h_groups h_loops h_questions]. repeat split; intros c [].
    + rewrite Hother in Hn by assumption.
      destruct (Hs i n Hn) as (Hg & Hl & Hq).
      split; [| split]; intros c Hc.
      * destruct (Hg c Hc) as (m & Hm & Hm').
        apply (Hold (fun x => q_group x = true /\ is_type "Repeat" x = false) c m Hm Hm').
      * destruct (Hl c Hc) as (m & Hm & Hm').
        apply (Hold (fun x => is_type "Repeat" x = true) c m Hm Hm').
      * destruct (Hq c Hc) as (m & Hm & Hm').
        apply (Hold (fun x => q_group x = false) c m Hm Hm').
Qed.

(** X9. In a normalised form the groups of an object are flagged as groups and
    are no repeats, its loops are repeats, and its questions are not flagged
    as groups. *)
Theorem normalize_sorted_children (questions : list question) (h : store) :
  normalize questions = OK h -> sorted_children h.
Proof.
  apply (place_questions_invariant sorted_children).
  - intros h0 h1 q. apply place_question_sorted.
  - intros [|i] n Hn; [| discriminate].
    injection Hn as <-. cbn [h_groups h_loops h_questions].
    repeat split; intros c [].
Qed.

Lemma normalize_sorted_children_witness :
  let group := mkQuestion "g" (Some "/data/g") (Some "Group") None None true None None in
  let items := mkQuestion "g/items" (Some "/data/g/items") (Some "Repeat") None None
                 true (Some "/data/g") None in
  let age := mkQuestion "g/age" (Some "/data/g/age") (Some "Int") None None
               false (Some "/data/g") None in
  sorted_children
    [ mkHnode form_obj_question [1] [] [];
      mkHnode group [] [2] [3];
      mkHnode items [] [] [];
      mkHnode age [] [] [] ].
Proof.
  intros group items age.
  apply (normalize_sorted_children [group; items; age]).
  vm_compute. reflexivity.
Defined.

Lemma refs_app (h1 h2 : store) (c : nat) : refs (h1 ++ h2) c = refs h1 c + refs h2 c.
Proof. unfold refs. now rewrite List.map_app, list_sum_app. Qed.

Lemma refs_cons (x : hnode) (h : store) (c : nat) :
  refs (x :: h) c = node_refs x c + refs h c.
Proof. reflexivity. Qed.

Lemma refs_alter (f : hnode -> hnode) (c d : nat) (h : store) :
  (forall n, node_refs (f n) c = node_refs n c + d) ->
  forall p, p < length h -> refs (alter f p h) c = refs h c + d.
Proof.
  intros Hf. induction h as [|x h IH]; intros [|p] Hp; simpl in Hp; try lia.
  - change (alter f 0 (x :: h)) with (f x :: h). rewrite !refs_cons, Hf. lia.
  - change (alter f (S p) (x :: h)) with (x :: alter f p h).
    rewrite !refs_cons, IH by lia. lia.
Qed.

Lemma count_occ_if (b : bool) (child c : nat) :
  count_occ Nat.eq_dec (if b then [child] else []) c
  = if b then (if Nat.eq_dec child c then 1 else 0) else 0.
Proof. destruct b; cbn; [destruct (Nat.eq_dec child c) |]; reflexivity. Qed.

Lemma node_refs_adopt (q : question) (child c : nat) (n : hnode) :
  node_refs (adopt q child n) c
  = node_refs n c + (if Nat.eq_dec child c then placements q else 0).
Proof.
  unfold node_refs, adopt, placements. cbn [h_groups h_loops h_questions].
  rewrite !count_occ_app, !count_occ_if.
  destruct (Nat.eq_dec child c), (q_group q), (is_type "Repeat" q); cbn; lia.
Qed.

Lemma place_question_refs (h h' : store) (q : question) (c : nat) :
  place_question h q = OK h' ->
  refs h' c
  = refs h c + (if is_type "Trigger" q then 0
                else if Nat.eq_dec (length h) c then placements q else 0).
Proof.
  intros H. destruct (is_type "Trigger" q) eqn:Et.
  - rewrite place_question_trigger in H by exact Et. injection H as <-. lia.
  - destruct (place_question_adopt _ _ _ H Et) as (p & _ & Hp & ->).
    rewrite (refs_alter _ c (if Nat.eq_dec (length h) c then placements q else 0)).
    + rewrite refs_app. unfold refs at 2. cbn. lia.
    + intros n. apply node_refs_adopt.
    + rewrite length_app. simpl. lia.
Qed.

Lemma place_question_held (h h' : store) (q : question) :
  0 < length h ->
  (forall c, refs h c = held h c) ->
  place_question h q = OK h' ->
  0 < length h' /\ forall c, refs h' c = held h' c.
Proof.
  intros Hlen Hinv H. 
  assert (Hrefs := fun c => place_question_refs h h' q c H).
  destruct (is_type "Trigger" q) eqn:Et.
  { rewrite place_question_trigger in H by exact Et. injection H as <-.
    split; [exact Hlen | exact Hinv]. }
  destruct (place_question_adopt _ _ _ H Et) as (p & _ & Hp & Hh').
  pose proof (place_question_objects _ _ _ H) as Hobj. rewrite Et in Hobj.
  assert (Hl : length h' = S (length h)).
  { apply (f_equal (@length _)) in Hobj. rewrite length_app, !length_map in Hobj.
    simpl in Hobj. lia. }
  split; [lia |]. intros c. rewrite Hrefs, Hinv. unfold held.
  assert (Hq : forall i, h_q <$> (h' !! i) = (map h_q h ++ [q]) !! i).
  { intros i. rewrite <- Hobj. unfold store. now rewrite list_lookup_fmap. }
  specialize (Hq c). unfold store in *.
  destruct (Nat.eq_dec (length h) c) as [<- | Hne].
  - rewrite (lookup_ge_None_2 h (length h)) by lia.
    rewrite lookup_app_r in Hq by (rewrite length_map; lia).
    rewrite length_map, Nat.sub_diag in Hq.
    destruct (h' !! length h) as [n |]; [| discriminate].
    injection Hq as ->. destruct (length h =? 0)%nat eqn:E0; [| reflexivity].
    apply Nat.eqb_eq in E0. lia.
  - destruct (decide (c < length h)) as [Hlt | Hge].
    + rewrite lookup_app_l in Hq by (rewrite length_map; exact Hlt).
      rewrite list_lookup_fmap in Hq.
      destruct (h' !! c) as [n' |], (h !! c) as [n |]; try discriminate.
      * injection Hq as ->. destruct (c =? 0)%nat; lia.
      * destruct (c =? 0)%nat; lia.
    + rewrite (lookup_ge_None_2 h c), (lookup_ge_None_2 h' c) by lia.
      destruct (c =? 0)%nat; lia.
Qed.

(** X10. Every object of a normalised form is held by one child list, of one
    object; a repeat that is not flagged as a group is held twice; the
    form's own dictionary is held by none. *)
Theorem normalize_refs (questions : list question) (h : store) (c : nat) (n : hnode) :
  normalize questions = OK h ->
  h !! c = Some n ->
  refs h c
  = match c with
    | O => 0
    | S _ => if is_type "Repeat" (h_q n) && negb (q_group (h_q n)) then 2 else 1
    end.
Proof.
  intros H Hn.
  assert (Hinv : 0 < length h /\ forall c, refs h c = held h c).
  { revert H. apply (place_questions_invariant
                       (fun h => 0 < length h /\ forall c, refs h c = held h c)).
    - intros h0 h1 q [Hlen Hinv]. now apply place_question_held.
    - split; [simpl; lia |]. intros [|[|k]]; reflexivity. }
  destruct Hinv as [_ Hinv]. rewrite Hinv. unfold held.
  unfold store in *. rewrite Hn. now destruct c.
Qed.

Lemma normalize_refs_witness :
  let group := mkQuestion "g" (Some "/data/g") (Some "Group") None None true None None in
  let age := mkQuestion "g/age" (Some "/data/g/age") (Some "Int") None None
               false (Some "/data/g") None in
  refs [ mkHnode form_obj_question [1] [] [];
         mkHnode group [] [] [2];
         mkHnode age [] [] [] ] 2 = 1.
Proof.
  intros group age.
  refine (normalize_refs [group; age] _ 2 (mkHnode age [] [] []) _ _);
    vm_compute; reflexivity.
Defined.

(** ** The search for a parent *)

Lemma first_some_None {A B : Type} (f : A -> option B) (l : list A) :
  first_some f l = None -> forall x, In x l -> f x = None.
Proof.
  induction l as [|y l IH]; cbn [first_some]; intros H x Hx; [destruct Hx |].
  destruct (f y) eqn:E; [discriminate |].
  destruct Hx as [<- | Hx]; [exact E | now apply IH].
Qed.

Lemma below_trans (h : store) (i j k : nat) :
  below h i j -> below h j k -> below h i k.
Proof.
  induction 1 as [i | i c j n Hn Hc _ IH]; intros Hk; [exact Hk |].
  eapply below_step; [exact Hn | exact Hc | now apply IH].
Qed.

Lemma below_mono (h h' : store) :
  (forall i n, h !! i = Some n ->
     exists n', h' !! i = Some n'
                /\ incl (h_groups n) (h_groups n') /\ incl (h_loops n) (h_loops n')) ->
  forall i j, below h i j -> below h' i j.
Proof.
  intros Hext i j. induction 1 as [i | i c j n Hn Hc _ IH]; [constructor |].
  destruct (Hext i n Hn) as (n' & Hn' & Hg & Hl).
  eapply below_step; [exact Hn' | | exact IH].
  apply in_app_iff in Hc. apply in_app_iff.
  destruct Hc as [Hc | Hc]; [left; now apply Hg | right; now apply Hl].
Qed.

(** What the search returns is below its start and has the value asked
    for. *)
Lemma find_parent_sound (h : store) (parent_name : option string) (fuel : nat) :
  forall i j,
    find_parent fuel h i parent_name = Some j ->
    below h i j /\ exists n, h !! j = Some n /\ q_value (h_q n) = parent_name.
Proof.
  induction fuel as [|f IH]; intros i j; cbn [find_parent]; [discriminate |].
  destruct (h !! i) as [n |] eqn:Hn; [| discriminate].
  destruct (bool_decide _) eqn:Ev.
  - intros [= <-]. apply bool_decide_eq_true in Ev.
    split; [constructor | now exists n].
  - destruct (first_some _ (h_groups n)) as [o |] eqn:Eg.
    + intros [= <-]. apply first_some_Some in Eg as (c & Hc & Hfind).
      destruct (IH _ _ Hfind) as [Hb Hv]. split; [| exact Hv].
      eapply below_step; [exact Hn | apply in_or_app; left; exact Hc | exact Hb].
    + intros El. apply first_some_Some in El as (c & Hc & Hfind).
      destruct (IH _ _ Hfind) as [Hb Hv]. split; [| exact Hv].
      eapply below_step; [exact Hn | apply in_or_app; right; exact Hc | exact Hb].
Qed.

(** With children younger than their parents, the search misses no object
    below its start. *)
Lemma find_parent_complete (h : store) (parent_name : option string) :
  younger h ->
  forall i j, below h i j ->
    forall n fuel,
      h !! j = Some n -> q_value (h_q n) = parent_name ->
      length h - i <= fuel ->
      find_parent fuel h i parent_name <> None.
Proof.
  intros Hy i j. induction 1 as [i | i c j n0 Hn0 Hc Hb IH]; intros n fuel Hn Hv Hfuel.
  - pose proof (lookup_lt_Some _ _ _ Hn) as Hlt.
    destruct fuel as [|f]; [lia |]. cbn [find_parent]. rewrite Hn.
    now rewrite bool_decide_eq_true_2.
  - pose proof (lookup_lt_Some _ _ _ Hn0) as Hlt.
    pose proof (Hy i n0 Hn0 c Hc) as Hic.
    destruct fuel as [|f]; [lia |]. cbn [find_parent]. rewrite Hn0.
    destruct (bool_decide _); [discriminate |].
    assert (Hfind : find_parent f h c parent_name <> None)
      by (apply (IH n f Hn Hv); lia).
    destruct (first_some _ (h_groups n0)) as [o |] eqn:Eg; [discriminate |].
    intros El. apply in_app_iff in Hc as [Hc | Hc].
    + now apply (first_some_None _ _ Eg c) in Hc.
    + now apply (first_some_None _ _ El c) in Hc.
Qed.

Lemma place_question_all_below (h h' : store) (q : question) :
  all_below h -> place_question h q = OK h' -> all_below h'.
Proof.
  intros Hall H. destruct (is_type "Trigger" q) eqn:Et.
  { rewrite place_question_trigger in H by exact Et. now injection H as <-. }
  pose proof (place_question_keeps _ _ _ H) as Hkeep.
  assert (Hmono : forall i j, below h i j -> below h' i j).
  { apply below_mono. intros i n Hn. destruct (Hkeep i n Hn) as (n' & Hn' & _ & Hg & Hl).
    now exists n'. }
  destruct (place_question_adopt _ _ _ H Et) as (p & Hfind & Hp & ->).
  destruct (lookup_lt_is_Some_2 h p Hp) as [np Hnp].
  destruct (adopt_lookup h q p np Hnp) as (Hp' & Hnew & Hlen & Hother).
  cbv zeta in *.
  set (h' := alter (adopt q (length h)) p (h ++ [mkHnode q [] [] []])) in *.
  unfold all_below, store in *.
  intros j n Hn Hs.
  destruct (decide (j = length h)) as [-> | Hne].
  - rewrite Hnew in Hn. injection Hn as <-. cbn [h_q] in Hs.
    apply (below_trans _ _ p).
    + apply Hmono. apply (find_parent_sound _ _ _ _ _ Hfind).
    + eapply below_step; [exact Hp' | | constructor].
      cbn [adopt h_groups h_loops]. unfold searchable in Hs. cbn [h_q] in Hs.
      rewrite !in_app_iff.
      destruct Hs as [Hs | [Hs | Hs]]; [lia | |].
      * rewrite Hs. destruct (is_type "Repeat" q); cbn; tauto.
      * rewrite Hs. cbn. tauto.
  - assert (Hj : j < length h).
    { apply lookup_lt_Some in Hn. lia. }
    destruct (lookup_lt_is_Some_2 h j Hj) as [n0 Hn0].
    destruct (Hkeep j n0 Hn0) as (n' & Hn' & Hq & _).
    rewrite Hn in Hn'. injection Hn' as <-.
    apply Hmono, (Hall j n0 Hn0). unfold searchable in *. now rewrite <- Hq.
Qed.

Lemma normalize_all_below (questions : list question) (h : store) :
  normalize questions = OK h -> all_below h.
Proof.
  apply (place_questions_invariant all_below).
  - intros h0 h1 q. apply place_question_all_below.
  - intros [|j] n Hn _; [constructor | discriminate].
Qed.

(** X11. In a normalised form, the search for a parent returns an object with
    the value asked for, and returns nothing only when neither the form's
    dictionary nor any group or repeat has that value. *)
Theorem find_parent_finds (questions : list question) (h : store)
    (parent_name : option string) :
  normalize questions = OK h ->
  match find_parent (S (length h)) h 0 parent_name with
  | Some j => exists n, h !! j = Some n /\ q_value (h_q n) = parent_name
  | None =>
      forall j n, h !! j = Some n -> searchable j n ->
                  q_value (h_q n) <> parent_name
  end.
Proof.
  intros H. destruct (find_parent _ _ _ _) as [j |] eqn:E.
  - apply (find_parent_sound _ _ _ _ _ E).
  - intros j n Hn Hs Hv.
    apply (find_parent_complete h parent_name (normalize_younger _ _ H) 0 j
             (normalize_all_below _ _ H j n Hn Hs) n (S (length h)) Hn Hv); [lia |].
    exact E.
Qed.

Lemma find_parent_finds_witness :
  let group := mkQuestion "g" (Some "/data/g") (Some "Group") None None true None None in
  let h := [ mkHnode form_obj_question [1] [] []; mkHnode group [] [] [] ] in
  exists n, h !! 1 = Some n /\ q_value (h_q n) = Some "/data/g".
Proof.
  intros group h.
  refine (find_parent_finds [group] h (Some "/data/g") _).
  vm_compute. reflexivity.
Defined.

(** X12. A question, no "Trigger", that names a parent no earlier question
    has as its value stops the normalisation: the search returns [None] and
    the first [append] raises. *)
Theorem normalize_unknown_parent (questions : list question) (h : store)
    (q : question) (name : string) :
  normalize questions = OK h ->
  resolve_parent_name (hint (q_group_member q)) (hint (q_loop_member q)) = Some name ->
  (forall q', In q' questions -> q_value q' <> Some name) ->
  is_type "Trigger" q = false ->
  normalize (questions ++ [q]) = Err TypeError.
Proof.
  intros H Hname Hnone Ht. unfold normalize in *.
  rewrite place_questions_app, H. cbn [bind place_questions].
  unfold place_question. rewrite Ht, Hname.
  destruct (find_parent _ _ _ _) as [j |] eqn:E; [| reflexivity].
  exfalso. apply find_parent_sound in E as [_ (n & Hn & Hv)].
  apply place_questions_objects in H. cbn [map h_q] in H.
  assert (Hin : In (h_q n) (map h_q h)).
  { apply in_map, list_elem_of_In, list_elem_of_lookup. now exists j. }
  rewrite H in Hin. destruct Hin as [Hroot | Hin].
  - rewrite <- Hroot in Hv. discriminate.
  - apply filter_In in Hin as [Hin _]. now apply (Hnone _ Hin).
Qed.

Lemma normalize_unknown_parent_witness :
  let group := mkQuestion "g" (Some "/data/g") (Some "Group") None None true None None in
  let age := mkQuestion "h/age" (Some "/data/h/age") (Some "Int") None None
               false (Some "/data/h") None in
  normalize ([group] ++ [age]) = Err TypeError.
Proof.
  intros group age.
  refine (normalize_unknown_parent [group] _ age "/data/h" _ _ _ _);
    [vm_compute; reflexivity | vm_compute; reflexivity | | vm_compute; reflexivity].
  intros q' [<- | []]. discriminate.
Defined.

(** ** Writing the tree out *)

Lemma place_question_acyclic (h h' : store) (q : question) :
  acyclic h -> place_question h q = OK h' -> acyclic h'.
Proof.
  intros Hac H. unfold acyclic, store in *. destruct (is_type "Trigger" q) eqn:Et.
  { rewrite place_question_trigger in H by exact Et. now injection H as <-. }
  destruct (place_question_adopt _ _ _ H Et) as (p & _ & Hp & ->).
  destruct (lookup_lt_is_Some_2 h p Hp) as [np Hnp].
  destruct (adopt_lookup h q p np Hnp) as (Hp' & Hnew & Hlen & Hother).
  cbv zeta in *. unfold store in *.
  set (h' := alter (adopt q (length h)) p (h ++ [mkHnode q [] [] []])) in *.
  rewrite Hlen. intros i n Hn c Hc.
  destruct (decide (i = p)) as [-> | Hne].
  - rewrite Hp' in Hn. injection Hn as <-.
    cbn [adopt h_groups h_loops h_questions] in Hc.
    assert (Hc' : In c (h_groups np ++ h_loops np ++ h_questions np) \/ c = length h).
    { rewrite !in_app_iff in *.
      destruct (q_group q), (is_type "Repeat" q); cbn [andb negb In] in Hc;
        intuition congruence. }
    destruct Hc' as [Hc' | ->]; [| lia].
    destruct (Hac p np Hnp c Hc'). lia.
  - destruct (decide (i = length h)) as [-> | Hne'].
    + rewrite Hnew in Hn. injection Hn as <-. destruct Hc.
    + rewrite Hother in Hn by assumption. destruct (Hac i n Hn c Hc). lia.
Qed.

Lemma dump_acyclic (h : store) :
  acyclic h ->
  forall k i, length h - i <= k -> i < length h -> is_Some (dump (S k) h i).
Proof.
  intros Hac. induction k as [|k IH]; intros i Hk Hi; [lia |].
  destruct (lookup_lt_is_Some_2 h i Hi) as [n Hn].
  assert (Hchildren : forall l, incl l (h_groups n ++ h_loops n ++ h_questions n) ->
                                is_Some (mapM (dump (S k) h) l)).
  { intros l Hl. apply mapM_is_Some, Forall_forall. intros c Hc.
    apply list_elem_of_In, Hl in Hc. destruct (Hac i n Hn c Hc).
    destruct k as [|k']; [lia |]. apply IH; lia. }
  change (dump (S (S k)) h i)
    with (n ← h !! i;
          groups ← mapM (dump (S k) h) (h_groups n);
          loops ← mapM (dump (S k) h) (h_loops n);
          questions ← mapM (dump (S k) h) (h_questions n);
          Some (QNode (h_q n) groups loops questions)).
  unfold store in *. rewrite Hn. cbn [mbind option_bind].
  destruct (Hchildren (h_groups n)) as [gs ->];
    [intros x Hx; apply in_or_app; now left |].
  destruct (Hchildren (h_loops n)) as [ls ->];
    [intros x Hx; apply in_or_app; right; apply in_or_app; now left |].
  destruct (Hchildren (h_questions n)) as [qs ->];
    [intros x Hx; apply in_or_app; right; apply in_or_app; now right |].
  cbn [mbind option_bind]. eauto.
Qed.

(** X13. The store of a normalised form holds no cycle, so the form can be
    written out as a tree: the dump of the form's dictionary exists, and its
    root is that dictionary. *)
Theorem normalize_dumps (questions : list question) (h : store) :
  normalize questions = OK h ->
  acyclic h
  /\ exists root, dump_form h = Some root /\ node_q root = form_obj_question.
Proof.
  intros H.
  assert (Hinv : acyclic h /\ exists n, h !! 0 = Some n /\ h_q n = form_obj_question).
  { revert H. apply (place_questions_invariant
                       (fun h => acyclic h
                                 /\ exists n, h !! 0 = Some n /\ h_q n = form_obj_question)).
    - intros h0 h1 q [Hac (n & Hn & Hq)] Hplace.
      split; [now apply (place_question_acyclic h0 h1 q) |].
      destruct (place_question_keeps _ _ _ Hplace 0 n Hn) as (n' & Hn' & Hq' & _).
      exists n'. split; [exact Hn' | congruence].
    - split.
      + intros [|i] n Hn c Hc; [injection Hn as <-; destruct Hc | discriminate].
      + eexists. split; reflexivity. }
  destruct Hinv as [Hac (n & Hn & Hq)]. split; [exact Hac |].
  pose proof (lookup_lt_Some _ _ _ Hn) as Hlen.
  destruct (dump_acyclic h Hac (length h) 0) as [root Hroot]; [lia | exact Hlen |].
  exists root. split; [exact Hroot |].
  unfold dump_form in *. cbn [dump] in Hroot. unfold store in *. rewrite Hn in Hroot.
  cbn [mbind option_bind] in Hroot.
  destruct (mapM _ (h_groups n)); cbn [mbind option_bind] in Hroot; [| discriminate].
  destruct (mapM _ (h_loops n)); cbn [mbind option_bind] in Hroot; [| discriminate].
  destruct (mapM _ (h_questions n)); cbn [mbind option_bind] in Hroot; [| discriminate].
  injection Hroot as <-. exact Hq.
Qed.

Lemma normalize_dumps_witness :
  let group := mkQuestion "g" (Some "/data/g") (Some "Group") None None true None None in
  let age := mkQuestion "g/age" (Some "/data/g/age") (Some "Int") None None
               false (Some "/data/g") None in
  let h := [ mkHnode form_obj_question [1] [] [];
             mkHnode group [] [] [2];
             mkHnode age [] [] [] ] in
  acyclic h
  /\ exists root, dump_form h = Some root /\ node_q root = form_obj_question.
Proof.
  intros group age h.
  refine (normalize_dumps [group; age] h _).
  vm_compute. reflexivity.
Defined.

(** ** Sheets *)

Lemma qnode_nested_ind (P : qnode -> Prop) :
  (forall q groups loops questions,
      Forall P groups -> Forall P loops -> Forall P questions ->
      P (QNode q groups loops questions)) ->
  forall n, P n.
Proof.
  intros H. fix IH 1. intros [q groups loops questions].
  apply H.
  - induction groups as [|g gs IHg]; constructor; [apply IH | exact IHg].
  - induction loops as [|g gs IHg]; constructor; [apply IH | exact IHg].
  - induction questions as [|g gs IHg]; constructor; [apply IH | exact IHg].
Qed.

Lemma get_group_questions_unfold q groups loops questions :
  get_group_questions (QNode q groups loops questions)
  = let* (question_list, children) :=
      groups_columns groups
        (map (fun n => question_column (node_q n)) questions, []) in
    match loops with
    | [] => OK (question_list, children)
    | _ :: _ => Err AttributeError
    end.
Proof. reflexivity. Qed.

Lemma groups_columns_spec (groups : list qnode) :
  Forall (fun g => get_group_questions g
                   = if has_loop g then Err AttributeError
                     else OK (scope_columns g, [])) groups ->
  forall acc,
    groups_columns groups acc
    = if existsb has_loop groups then Err AttributeError
      else OK (fst acc ++ flat_map scope_columns groups, snd acc).
Proof.
  induction 1 as [|g gs Hg _ IH]; intros [cols children]; cbn [groups_columns existsb flat_map fst snd].
  - now rewrite app_nil_r.
  - rewrite Hg. destruct (has_loop g); cbn [bind orb fst snd]; [reflexivity |].
    rewrite IH. cbn [fst snd]. now rewrite app_nil_r, <- app_assoc.
Qed.

Lemma get_group_questions_spec (group_object : qnode) :
  get_group_questions group_object
  = if has_loop group_object then Err AttributeError
    else OK (scope_columns group_object, []).
Proof.
  induction group_object as [q groups loops questions IHg _ _] using qnode_nested_ind.
  rewrite get_group_questions_unfold, (groups_columns_spec groups IHg).
  cbn [has_loop scope_columns fst snd].
  destruct (existsb has_loop groups); cbn [bind orb]; [reflexivity |].
  destruct loops; reflexivity.
Qed.

(** X14. [get_group_questions] raises exactly for a group that holds a repeat,
    at any depth, and then with [AttributeError]; for any other group it
    returns a column for each question of the group and of the groups below
    it, and no child sheet. *)
Theorem get_group_questions_outcome (group_object : qnode) :
  (has_loop group_object = true
   <-> get_group_questions group_object = Err AttributeError)
  /\ (has_loop group_object = false
      <-> get_group_questions group_object = OK (scope_columns group_object, []))
  /\ forall e, get_group_questions group_object = Err e -> e = AttributeError.
Proof.
  rewrite get_group_questions_spec.
  destruct (has_loop group_object); repeat split; try discriminate; try reflexivity.
  now intros e [= <-].
Qed.

Lemma generate_form_spreadsheet_unfold node name is_loop parent_name names :
  generate_form_spreadsheet node name is_loop parent_name names
  = let* (spreadsheet_relationships, names1) :=
      create_form_spreadsheet node name is_loop parent_name names in
    match spreadsheet_relationships with
    | Sheet fname file target columns children =>
        let* (children, names2) :=
          each_loop target (node_loops node) (children, names1) in
        OK (Sheet fname file target columns children, names2)
    end.
Proof. destruct node. reflexivity. Qed.

(** The sheet [create_form_spreadsheet] makes of a scope. *)
Lemma create_form_spreadsheet_sheet node name is_loop parent_name names sh names' :
  create_form_spreadsheet node name is_loop parent_name names = OK (sh, names') ->
  sheet_name_of sh = name
  /\ sheet_file sh = lower (replace "/" "_" (replace " " "_" name)) +:+ ".xlsx"
  /\ sheet_columns sh = system_columns is_loop ++ scope_columns node
  /\ sheet_children sh = []
  /\ existsb has_loop (node_groups node) = false.
Proof.
  unfold create_form_spreadsheet.
  destruct (compress _ _ _) as [sheet_name |]; cbn [bind]; [| discriminate].
  rewrite groups_columns_spec
    by (apply Forall_forall; intros g _; apply get_group_questions_spec).
  destruct (existsb has_loop (node_groups node)); cbn [bind fst snd]; [discriminate |].
  intros [= <- <-].
  cbn [sheet_name_of sheet_file sheet_columns sheet_children].
  repeat split. destruct node as [q groups loops questions].
  cbn [node_questions node_groups scope_columns]. now rewrite app_assoc.
Qed.

Lemma each_loop_children (target : string) (loops : list qnode) :
  forall acc children names,
    each_loop target loops acc = OK (children, names) ->
    exists new,
      children = fst acc ++ new
      /\ Forall2 (fun c l => sheet_name_of c = q_id (node_q l)
                             /\ sheet_columns c = system_columns true ++ scope_columns l)
                 new loops.
Proof.
  induction loops as [|l ls IH]; intros [ch nm] children names; cbn [each_loop fst snd].
  - intros [= <- <-]. exists []. split; [now rewrite app_nil_r | constructor].
  - rewrite generate_form_spreadsheet_unfold.
    destruct (create_form_spreadsheet _ _ _ _ _) as [[sr names1] |] eqn:Ec;
      cbn [bind]; [| discriminate].
    destruct (create_form_spreadsheet_sheet _ _ _ _ _ _ _ Ec) as (Hname & _ & Hcols & _).
    destruct sr as [fname file tgt cols chs].
    destruct (each_loop tgt _ _) as [[chs' names2] |]; cbn [bind]; [| discriminate].
    intros H. destruct (IH _ _ _ H) as (new & -> & Hnew).
    cbn [fst sheet_name_of sheet_columns] in *.
    exists (Sheet fname file tgt cols chs' :: new).
    split; [now rewrite <- app_assoc |].
    constructor; [| exact Hnew]. now split.
Qed.

(** X15. The sheet of a scope: it bears the name given, its columns are the
    system columns and then one per question of the scope and of its groups,
    and it has one child sheet per loop of the scope, in their order, each
    bearing the id of its loop and holding the columns of that loop. *)
Theorem generate_form_spreadsheet_sheet node name is_loop parent_name names sh names' :
  generate_form_spreadsheet node name is_loop parent_name names = OK (sh, names') ->
  sheet_name_of sh = name
  /\ sheet_columns sh = system_columns is_loop ++ scope_columns node
  /\ Forall2 (fun c l => sheet_name_of c = q_id (node_q l)
                         /\ sheet_columns c = system_columns true ++ scope_columns l)
             (sheet_children sh) (node_loops node).
Proof.
  rewrite generate_form_spreadsheet_unfold.
  destruct (create_form_spreadsheet _ _ _ _ _) as [[sr names1] |] eqn:Ec;
    cbn [bind]; [| discriminate].
  destruct (create_form_spreadsheet_sheet _ _ _ _ _ _ _ Ec)
    as (Hname & _ & Hcols & Hch & _).
  destruct sr as [fname file tgt cols chs].
  destruct (each_loop tgt _ _) as [[chs' names2] |] eqn:El; cbn [bind]; [| discriminate].
  intros [= <- <-].
  destruct (each_loop_children _ _ _ _ _ El) as (new & -> & Hnew).
  cbn [sheet_name_of sheet_columns sheet_children fst] in *.
  subst chs. repeat split; assumption.
Qed.

Lemma generate_form_spreadsheet_sheet_witness :
  let form :=
    QNode form_obj_question
      [group_node "household" [] [text_question "household/address"]]
      [repeat_node "items" [text_question "items/qty"]]
      [text_question "date"] in
  exists sh,
    sheet_name_of sh = "Visit"
    /\ sheet_columns sh = system_columns false ++ scope_columns form
    /\ Forall2 (fun c l => sheet_name_of c = q_id (node_q l)
                           /\ sheet_columns c = system_columns true ++ scope_columns l)
               (sheet_children sh) (node_loops form).
Proof.
  intros form. eexists.
  refine (generate_form_spreadsheet_sheet form "Visit" false "" [] _ _ _).
  vm_compute. reflexivity.
Defined.

(** ** The registry over a run *)

Lemma fresh_names_app (names a b : list string) :
  fresh_names names a -> fresh_names (names ++ a) b -> fresh_names names (a ++ b).
Proof.
  intros [Ha Hna] [Hb Hnb]. split.
  - apply NoDup_app. repeat split; [exact Ha | | exact Hb].
    intros x Hx Hx'. apply list_elem_of_In in Hx, Hx'.
    apply (Hnb x Hx'). apply in_or_app. now right.
  - intros t Ht Hin. apply in_app_iff in Ht as [Ht | Ht].
    + now apply (Hna t).
    + apply (Hnb t Ht). apply in_or_app. now left.
Qed.

Lemma fresh_names_nil (names : list string) : fresh_names names [].
Proof. split; [constructor | intros t []]. Qed.

Lemma each_loop_registers (target : string) (loops : list qnode) :
  Forall registers loops ->
  forall acc children names,
    each_loop target loops acc = OK (children, names) ->
    exists new,
      children = fst acc ++ new
      /\ names = snd acc ++ flat_map sheet_targets new
      /\ fresh_names (snd acc) (flat_map sheet_targets new).
Proof.
  induction 1 as [|l ls Hl _ IH]; intros [ch nm] children names; cbn [each_loop fst snd].
  - intros [= <- <-]. exists []. cbn [flat_map].
    rewrite !app_nil_r. repeat split; [constructor | intros t []].
  - destruct (generate_form_spreadsheet l _ _ _ _) as [[sheet_child names1] |] eqn:Eg;
      cbn [bind]; [| discriminate].
    destruct (Hl _ _ _ _ _ _ Eg) as [-> Hfresh].
    intros H. destruct (IH _ _ _ H) as (new & -> & -> & Hfresh').
    cbn [fst snd] in *. exists (sheet_child :: new). cbn [flat_map].
    split; [now rewrite <- app_assoc |]. split; [now rewrite <- app_assoc |].
    now apply fresh_names_app.
Qed.

Lemma generate_form_spreadsheet_registers (node : qnode) : registers node.
Proof.
  induction node as [q groups loops questions _ IHl _] using qnode_nested_ind.
  intros name is_loop parent_name names sh names'.
  rewrite generate_form_spreadsheet_unfold.
  destruct (create_form_spreadsheet _ _ _ _ _) as [[sr names1] |] eqn:Ec;
    cbn [bind]; [| discriminate].
  destruct (create_form_spreadsheet_fresh _ _ _ _ _ _ _ Ec) as [-> Hnew].
  destruct (create_form_spreadsheet_sheet _ _ _ _ _ _ _ Ec) as (_ & _ & _ & Hch & _).
  destruct sr as [fname file tgt cols chs].
  cbn [sheet_target sheet_children node_loops] in *. subst chs.
  destruct (each_loop tgt _ _) as [[chs' names2] |] eqn:El; cbn [bind]; [| discriminate].
  intros [= <- <-].
  destruct (each_loop_registers _ _ IHl _ _ _ El) as (new & -> & -> & Hfresh).
  cbn [fst snd sheet_targets app] in *.
  split; [now rewrite <- app_assoc |].
  apply (fresh_names_app names [tgt]); [| exact Hfresh].
  split; [apply NoDup_singleton |]. intros t [<- | []]. exact Hnew.
Qed.

Lemma each_form_registers (forms : list form) :
  forall form_relations names sheets names',
    each_form forms form_relations names = OK (sheets, names') ->
    exists new,
      sheets = form_relations ++ new
      /\ names' = names ++ flat_map sheet_targets new
      /\ fresh_names names (flat_map sheet_targets new).
Proof.
  induction forms as [|f fs IH]; intros rels names sheets names'; cbn [each_form].
  - intros [= <- <-]. exists []. cbn [flat_map].
    rewrite !app_nil_r. repeat split; [constructor | intros t []].
  - destruct (generate_form_spreadsheet _ _ _ _ _) as [[sh names1] |] eqn:Eg;
      cbn [bind]; [| discriminate].
    destruct (generate_form_spreadsheet_registers _ _ _ _ _ _ _ Eg) as [-> Hfresh].
    intros H. destruct (IH _ _ _ _ H) as (new & -> & -> & Hfresh').
    exists (sh :: new). cbn [flat_map].
    split; [now rewrite <- app_assoc |]. split; [now rewrite <- app_assoc |].
    now apply fresh_names_app.
Qed.

(** X16. Over a run the registry is the names of the case sheets and then the
    table names of the form sheets, sheet by sheet and parents before
    children; the tables of the forms are distinct from one another and from
    every case sheet. *)
Theorem handle_registry (cases : list case_spec) (forms : list form)
    (sheets : list sheet) (names : list string) :
  handle cases forms = OK (sheets, names) ->
  exists case_names,
    each_case cases [] = OK case_names
    /\ names = case_names ++ flat_map sheet_targets sheets
    /\ NoDup (flat_map sheet_targets sheets)
    /\ forall t, In t (flat_map sheet_targets sheets) -> ~ In t case_names.
Proof.
  unfold handle.
  destruct (each_case cases []) as [case_names |]; cbn [bind]; [| discriminate].
  intros H. destruct (each_form_registers _ _ _ _ _ H) as (new & -> & -> & Hnd & Hfresh).
  exists case_names. cbn [app]. repeat split; assumption.
Qed.

Lemma handle_registry_witness :
  let visit :=
    mkForm "Patient" "http://openrosa.org/formdesigner/patient"
      (QNode form_obj_question [] [repeat_node "case_patient" []] []) in
  exists sheets names case_names,
    handle [mkCase "patient" ["name"]] [visit; visit] = OK (sheets, names)
    /\ each_case [mkCase "patient" ["name"]] [] = OK case_names
    /\ names = case_names ++ flat_map sheet_targets sheets
    /\ NoDup (flat_map sheet_targets sheets)
    /\ forall t, In t (flat_map sheet_targets sheets) -> ~ In t case_names.
Proof.
  intros visit.
  destruct (handle [mkCase "patient" ["name"]] [visit; visit])
    as [[sheets names] |] eqn:E; [| vm_compute in E; discriminate E].
  destruct (handle_registry _ _ _ _ E) as (case_names & H).
  exists sheets, names, case_names. split; [reflexivity | exact H].
Defined.

(** X17. The table of a form bears the form's name, lower-cased, with
    underscores for spaces and slashes and without parentheses and dashes,
    whenever that name has at most 31 characters and is not taken. *)
Theorem form_table_name_plain node name names sh names' :
  let table_name :=
    standard_replacements (lower (replace "/" "_" (replace " " "_" name))) in
  generate_form_spreadsheet node name false "" names = OK (sh, names') ->
  py_len table_name <= 31 ->
  ~ In table_name names ->
  sheet_target sh = table_name.
Proof.
  intros table_name Hgen Hlen Hfree.
  rewrite generate_form_spreadsheet_unfold in Hgen.
  destruct (create_form_spreadsheet _ _ _ _ _) as [[sr names1] |] eqn:Ec;
    cbn [bind] in Hgen; [| discriminate].
  assert (Htarget : sheet_target sr = table_name).
  { unfold create_form_spreadsheet in Ec.
    rewrite bool_decide_eq_true_2 in Ec by reflexivity.
    change ("" +:+ ?x) with x in Ec. fold table_name in Ec.
    rewrite compress_short in Ec by exact Hlen. cbn [bind] in Ec.
    rewrite reserve_free in Ec by (now apply str_in_false).
    destruct (groups_columns _ _) as [[columns children] |]; cbn [bind] in Ec;
      [| discriminate].
    now injection Ec as <- _. }
  destruct sr as [fname file tgt cols chs].
  destruct (each_loop tgt _ _) as [[chs' names2] |]; cbn [bind] in Hgen; [| discriminate].
  injection Hgen as <- _. exact Htarget.
Qed.

Lemma form_table_name_plain_witness :
  exists sh names',
    generate_form_spreadsheet (QNode form_obj_question [] [] [text_question "weight"])
      "Home Visit (v2)" false "" ["case_patient"] = OK (sh, names')
    /\ sheet_target sh = "home_visit_v2".
Proof.
  destruct (generate_form_spreadsheet (QNode form_obj_question [] [] [text_question "weight"])
              "Home Visit (v2)" false "" ["case_patient"]) as [[sh names'] |] eqn:E;
    [| vm_compute in E; discriminate E].
  exists sh, names'. split; [reflexivity |].
  refine (form_table_name_plain _ "Home Visit (v2)" ["case_patient"] sh names' E _ _).
  - vm_compute. lia.
  - vm_compute. intros [H | []]. discriminate H.
Defined.

(** ** The renaming loop *)

(** More rounds than the loop needs change nothing. *)
Lemma rename_loop_more_fuel (names : list string) (extra : nat) :
  forall fuel s e,
    str_in (rename_loop fuel names s e) names = false ->
    rename_loop (fuel + extra) names s e = rename_loop fuel names s e.
Proof.
  induction fuel as [|f IH]; intros s e H; cbn [rename_loop Nat.add] in *.
  - destruct extra as [|k]; [reflexivity |]. cbn [rename_loop]. now rewrite H.
  - destruct (str_in s names) eqn:E; [| reflexivity]. now apply IH.
Qed.

Lemma rename_loop_len (names : list string) :
  forall fuel s e, py_len s <= py_len (rename_loop fuel names s e).
Proof.
  induction fuel as [|f IH]; intros s e; cbn [rename_loop]; [lia |].
  destruct (str_in s names); [| lia].
  specialize (IH (drop_last s +:+ str_of_nat (S e)) (S e)).
  rewrite py_len_app, drop_last_len in IH.
  pose proof (str_of_nat_len (S e)). lia.
Qed.

(** X18. The renaming loop of [create_form_spreadsheet] comes to an end, after
    at most ten rounds more than the longest name of the registry has
    characters, with a name that is not in the registry; a candidate that is
    not taken is issued as it is, and no renaming shortens a name. *)
Theorem reserve_issues_free_name (names : list string) (sheet_name : string) :
  ~ In (reserve names sheet_name) names
  /\ (forall extra,
        rename_loop (longest names + 11 + extra) names sheet_name 0
        = reserve names sheet_name)
  /\ (~ In sheet_name names -> reserve names sheet_name = sheet_name)
  /\ py_len sheet_name <= py_len (reserve names sheet_name).
Proof.
  split; [| split; [| split]].
  - apply str_in_false, reserve_fresh.
  - intros extra. apply rename_loop_more_fuel, reserve_fresh.
  - intros H. apply reserve_free. now apply str_in_false.
  - apply rename_loop_len.
Qed.

(** ** Looking a sheet up *)

Lemma sheet_nested_ind (P : sheet -> Prop) :
  (forall name file target columns children,
      Forall P children -> P (Sheet name file target columns children)) ->
  forall s, P s.
Proof.
  intros H. fix IH 1. intros [name file target columns children].
  apply H. induction children as [|c cs IHc]; constructor; [apply IH | exact IHc].
Qed.

Lemma find_app {A : Type} (p : A -> bool) (a b : list A) :
  find p (a ++ b) = match find p a with Some x => Some x | None => find p b end.
Proof. induction a as [|x a IH]; cbn; [reflexivity |]. destruct (p x); [reflexivity | exact IH]. Qed.

Lemma first_some_find {A : Type} (g : A -> option A) (p : A -> bool)
    (flat : A -> list A) (l : list A) :
  Forall (fun s => g s = find p (flat s)) l ->
  first_some g l = find p (flat_map flat l).
Proof.
  induction 1 as [|s l Hs _ IH]; cbn [first_some flat_map]; [reflexivity |].
  rewrite find_app, Hs. destruct (find p (flat s)); [reflexivity | exact IH].
Qed.

Lemma get_form_info_find (sheet_name : string) (form_data : sheet) :
  get_form_info sheet_name form_data
  = find (fun s => String.eqb (sheet_file s) sheet_name) (sheets_of form_data).
Proof.
  induction form_data as [name file target columns children IH] using sheet_nested_ind.
  cbn [get_form_info sheets_of find sheet_file].
  destruct (String.eqb file sheet_name); [reflexivity |].
  now apply first_some_find.
Qed.

(** X20. [get_form_table] returns the first sheet, parents before children and
    form by form, whose file bears the name asked for, and [None] when no
    sheet does; a later sheet of the same file is never returned. *)
Theorem get_form_table_first (rels_json : list sheet) (sheet_name : string) :
  get_form_table rels_json sheet_name
  = find (fun s => String.eqb (sheet_file s) sheet_name)
         (flat_map sheets_of rels_json)
  /\ (get_form_table rels_json sheet_name = None
      <-> forall s, In s (flat_map sheets_of rels_json) -> sheet_file s <> sheet_name)
  /\ forall found, get_form_table rels_json sheet_name = Some found ->
       exists before after,
         flat_map sheets_of rels_json = before ++ found :: after
         /\ sheet_file found = sheet_name
         /\ forall s, In s before -> sheet_file s <> sheet_name.
Proof.
  assert (E : get_form_table rels_json sheet_name
              = find (fun s => String.eqb (sheet_file s) sheet_name)
                     (flat_map sheets_of rels_json)).
  { unfold get_form_table. apply first_some_find.
    apply Forall_forall. intros s _. apply get_form_info_find. }
  split; [exact E |]. rewrite E. clear E.
  generalize (flat_map sheets_of rels_json) as l.
  intros l. split.
  - split.
    + intros H s Hs Hf. apply (find_none _ _ H) in Hs.
      apply String.eqb_neq in Hs. contradiction.
    + intros H. induction l as [|x l IH]; cbn [find]; [reflexivity |].
      destruct (String.eqb (sheet_file x) sheet_name) eqn:Ex.
      * apply String.eqb_eq in Ex. exfalso. apply (H x); [now left | exact Ex].
      * apply IH. intros s Hs. apply H. now right.
  - induction l as [|x l IH]; cbn [find]; intros found; [discriminate |].
    destruct (String.eqb (sheet_file x) sheet_name) eqn:Ex.
    + intros [= <-]. apply String.eqb_eq in Ex.
      exists [], l. repeat split; [exact Ex | intros s []].
    + intros H. destruct (IH found H) as (before & after & -> & Hf & Hb).
      exists (x :: before), after. repeat split; [exact Hf |].
      apply String.eqb_neq in Ex. intros s [<- | Hs]; [exact Ex | now apply Hb].
Qed.

(** ** Duplicate columns *)

(** The two dictionaries after the columns of a sheet: a name is in
    [existing_columns] once it has occurred, and in [duplicate_columns] once
    it has occurred twice. *)
Lemma note_columns_keys (columns : list column_spec) (c : string) :
  let st := fold_left note_column columns (∅, ∅) in
  (is_Some (fst st !! c) <-> 1 <= count_occ string_dec (map database_column columns) c)
  /\ (is_Some (snd st !! c) <-> 2 <= count_occ string_dec (map database_column columns) c).
Proof.
  induction columns as [|x columns IH] using rev_ind; cbv zeta.
  - cbn. rewrite !lookup_empty. split; split; (intros H; try lia); destruct H; discriminate.
  - rewrite fold_left_app, List.map_app, count_occ_app. cbn [fold_left map].
    cbv zeta in IH.
    destruct (fold_left note_column columns (∅, ∅)) as [ex dup].
    cbn [fst snd] in IH. destruct IH as [IHex IHdup].
    set (n := count_occ string_dec (map database_column columns) c) in *.
    unfold note_column. cbn [count_occ].
    destruct (string_dec (database_column x) c) as [<- | Hne].
    + destruct (ex !! database_column x) as [first_seen |] eqn:Eex; cbn [fst snd].
      * assert (Hn : 1 <= n) by (apply IHex; eauto).
        split; [rewrite Eex; split; [lia | eauto] |].
        rewrite lookup_alter_is_Some. split; [lia | intros _].
        destruct (dup !! database_column x) eqn:Ed; [eauto |].
        rewrite lookup_insert_eq. eauto.
      * assert (Hn : n = 0).
        { destruct n; [reflexivity |]. assert (H : is_Some (None : option column_ref))
            by (apply IHex; lia). destruct H; discriminate. }
        rewrite lookup_insert_eq. split; [split; [lia | eauto] |].
        rewrite IHdup. lia.
    + rewrite Nat.add_0_r.
      destruct (ex !! database_column x) as [first_seen |] eqn:Eex; cbn [fst snd].
      * split; [exact IHex |].
        rewrite lookup_alter_is_Some.
        destruct (dup !! database_column x) eqn:Ed; [exact IHdup |].
        rewrite lookup_insert_ne by exact Hne. exact IHdup.
      * rewrite lookup_insert_ne by exact Hne. split; assumption.
Qed.

Lemma update_children_keys (f : sheet -> gmap string (list column_ref))
    (children : list sheet) (c : string) :
  forall init,
    is_Some (fold_left (fun dup child => f child ∪ dup) children init !! c)
    <-> is_Some (init !! c) \/ exists child, In child children /\ is_Some (f child !! c).
Proof.
  induction children as [|x children IH]; intros init; cbn [fold_left].
  - split; [now left | intros [H | (child & [] & _)]; exact H].
  - rewrite IH, lookup_union_is_Some. split.
    + intros [[H | H] | (child & Hin & H)].
      * right. exists x. split; [now left | exact H].
      * now left.
      * right. exists child. split; [now right | exact H].
    + intros [H | (child & [<- | Hin] & H)].
      * left. now right.
      * left. now left.
      * right. now exists child.
Qed.

Lemma find_duplicate_columns_keys (form : sheet) (c : string) :
  is_Some (find_duplicate_columns form !! c)
  <-> exists s, In s (sheets_of form) /\ 2 <= occurrences c s.
Proof.
  induction form as [name file target columns children IH] using sheet_nested_ind.
  cbn [find_duplicate_columns]. rewrite update_children_keys.
  pose proof (note_columns_keys columns c) as [_ Hdup]. rewrite Hdup. clear Hdup.
  cbn [sheets_of]. split.
  - intros [H | (child & Hin & H)].
    + eexists. split; [now left | exact H].
    + rewrite Forall_forall in IH. apply list_elem_of_In in Hin as Hin'.
      apply (IH child Hin') in H as (s & Hs & Hocc).
      exists s. split; [| exact Hocc]. right. apply in_flat_map. now exists child.
  - intros (s & [<- | Hs] & Hocc).
    + left. exact Hocc.
    + right. apply in_flat_map in Hs as (child & Hin & Hs).
      exists child. split; [exact Hin |].
      rewrite Forall_forall in IH. apply IH; [now apply list_elem_of_In |].
      now exists s.
Qed.

Lemma occurrences_NoDup (s : sheet) :
  NoDup (map database_column (sheet_columns s)) <-> forall c, occurrences c s <= 1.
Proof.
  unfold occurrences. rewrite NoDup_ListNoDup.
  apply (NoDup_count_occ string_dec).
Qed.

(** X21. [find_duplicate_columns] reports a name exactly when it occurs twice or
    more among the database columns of the sheet or of one of the sheets
    below it; it reports nothing exactly when the columns of every such
    sheet are distinct. *)
Theorem find_duplicate_columns_reports (form : sheet) :
  (forall c, is_Some (find_duplicate_columns form !! c)
             <-> exists s, In s (sheets_of form) /\ 2 <= occurrences c s)
  /\ (find_duplicate_columns form = ∅
      <-> Forall (fun s => NoDup (map database_column (sheet_columns s)))
                 (sheets_of form)).
Proof.
  split; [apply find_duplicate_columns_keys |].
  rewrite map_empty. split.
  - intros H. apply Forall_forall. intros s Hs. apply occurrences_NoDup. intros c.
    destruct (le_lt_dec (occurrences c s) 1) as [Hle | Hgt]; [exact Hle |].
    assert (Hsome : is_Some (find_duplicate_columns form !! c)).
    { apply find_duplicate_columns_keys. exists s. split; [now apply list_elem_of_In | lia]. }
    rewrite H in Hsome. destruct Hsome; discriminate.
  - intros H c. apply eq_None_not_Some. intros Hsome.
    apply find_duplicate_columns_keys in Hsome as (s & Hs & Hocc).
    rewrite Forall_forall in H. apply list_elem_of_In in Hs.
    pose proof (proj1 (occurrences_NoDup s) (H s Hs) c). lia.
Qed.

(** ** Case tables, column by column *)

(** Dropping columns that are there, each named once, succeeds. *)
Lemma drop_columns_run (t : string) (legacy : list string) :
  forall s tb,
    live s !! t = Some tb ->
    NoDup legacy ->
    (forall c, In c legacy -> is_Some (tb !! c)) ->
    exists s' tb',
      drop_columns t legacy s = (OK tt, s')
      /\ live s' !! t = Some tb'
      /\ (forall x, tb' !! x = if str_in x legacy then None else tb !! x)
      /\ (forall t', t' <> t -> live s' !! t' = live s !! t')
      /\ durable s' = durable s
      /\ issued s' = issued s ++ map (DropColumn t) legacy.
Proof.
  induction legacy as [|c cs IH]; intros s tb Htb Hnd Hin.
  - exists s, tb. cbn [drop_columns map]. rewrite app_nil_r. repeat split; assumption.
  - apply NoDup_cons in Hnd as [Hc Hnd].
    destruct (Hin c (or_introl eq_refl)) as [ty Hty].
    cbn [drop_columns execute]. rewrite Htb, Hty.
    destruct (IH (sent (DropColumn t c) s (<[t := delete c tb]> (live s))) (delete c tb))
      as (s' & tb' & Hrun & Htb' & Hlook & Hother & Hdur & Hiss).
    + cbn [sent live]. apply lookup_insert_eq.
    + exact Hnd.
    + intros x Hx. rewrite lookup_delete_ne; [apply Hin; now right |].
      intros ->. apply Hc. now apply list_elem_of_In.
    + exists s', tb'. split; [exact Hrun |]. split; [exact Htb' |].
      split; [| split; [| split]].
      * intros x. rewrite Hlook. unfold str_in. cbn [existsb].
        destruct (String.eqb x c) eqn:E; cbn [orb].
        -- apply String.eqb_eq in E. subst x. rewrite lookup_delete_eq.
           now destruct (existsb _ cs).
        -- apply String.eqb_neq in E. now rewrite lookup_delete_ne by congruence.
      * intros t' Hne. rewrite Hother by exact Hne. cbn [sent live].
        now rewrite lookup_insert_ne by congruence.
      * rewrite Hdur. reflexivity.
      * rewrite Hiss. cbn [sent issued map]. now rewrite <- app_assoc.
Qed.

Lemma confirm_case_column_run (t c : string) (ex : list string) (s : session)
    (tb : table) :
  live s !! t = Some tb ->
  exists s',
    confirm_case_column t c (ex, s) = (OK (strike c ex), s')
    /\ live s' !! t = Some (ensure_case_column c tb)
    /\ (forall t', t' <> t -> live s' !! t' = live s !! t')
    /\ (is_Some (tb !! c) -> s' = s).
Proof.
  intros Htb. unfold confirm_case_column, ensure_case_column.
  rewrite (column_type_live s t c tb Htb).
  destruct (tb !! c) as [ty |] eqn:Hc.
  - exists s. split; [reflexivity |]. split; [exact Htb |].
    split; [reflexivity | reflexivity].
  - cbn [execute]. rewrite Htb, Hc. eexists. split; [reflexivity |].
    cbn [commit sent live]. split; [apply lookup_insert_eq |].
    split; [| intros [? ?]; discriminate].
    intros t' Hne. now rewrite lookup_insert_ne by congruence.
Qed.

Lemma confirm_case_columns_run (t : string) (columns : list string) :
  forall ex s tb,
    live s !! t = Some tb ->
    exists s',
      confirm_case_columns t columns (ex, s) = (OK (legacy_columns columns ex), s')
      /\ live s' !! t = Some (fold_left (fun tb c => ensure_case_column c tb) columns tb)
      /\ (forall t', t' <> t -> live s' !! t' = live s !! t')
      /\ ((forall c, In c columns -> is_Some (tb !! c)) -> s' = s).
Proof.
  induction columns as [|c cs IH]; intros ex s tb Htb.
  - exists s. cbn [confirm_case_columns legacy_columns fold_left fst snd].
    split; [reflexivity |]. split; [exact Htb |]. split; reflexivity.
  - destruct (confirm_case_column_run t c ex s tb Htb) as (s1 & Hrun & Htb1 & Hother & Hsame).
    destruct (IH (strike c ex) s1 _ Htb1) as (s' & Hrun' & Htb' & Hother' & Hsame').
    exists s'. cbn [confirm_case_columns]. rewrite Hrun.
    split; [exact Hrun' |]. split; [exact Htb' |]. split.
    + intros t' Hne. now rewrite Hother', Hother.
    + intros Hall.
      assert (Hs1 : s1 = s) by (apply Hsame, Hall; now left).
      rewrite Hs1 in *. apply Hsame'.
      intros x Hx. unfold ensure_case_column.
      destruct (Hall c (or_introl eq_refl)) as [ty ->]. apply Hall. now right.
Qed.

Lemma ensure_case_columns_lookup (columns : list string) (x : string) :
  forall tb : table,
    fold_left (fun tb c => ensure_case_column c tb) columns tb !! x
    = match tb !! x with
      | Some ty => Some ty
      | None => if str_in x columns then Some (case_column_type x) else None
      end.
Proof.
  induction columns as [|c cs IH]; intros tb; cbn [fold_left].
  - now destruct (tb !! x).
  - rewrite IH. unfold ensure_case_column, str_in. cbn [existsb].
    destruct (String.eqb x c) eqn:E; cbn [orb].
    + apply String.eqb_eq in E. subst c.
      destruct (tb !! x) eqn:Hx; [now rewrite Hx | now rewrite lookup_insert_eq].
    + apply String.eqb_neq in E.
      destruct (tb !! c) eqn:Hc; [reflexivity |].
      now rewrite lookup_insert_ne by congruence.
Qed.

Lemma legacy_nil (columns existing : list string) :
  NoDup existing ->
  (forall x, In x existing -> In x columns) ->
  legacy_columns columns existing = [].
Proof.
  intros Hnd Hall.
  destruct (legacy_columns_spec columns existing Hnd) as [_ Hleg].
  destruct (legacy_columns columns existing) as [|x l]; [reflexivity |].
  exfalso. destruct (proj1 (Hleg x) (or_introl eq_refl)) as [Hx Hnin].
  apply Hnin, Hall, Hx.
Qed.

(** A pass of [confirm_case_table_columns] over a table that exists: what
    it returns, the session it ends with and the table it leaves. *)
Lemma confirm_case_table_columns_run (t : string) (properties : list string)
    (db : database) (tb : table) :
  db !! t = Some tb ->
  exists s tb',
    confirm_case_table_columns t properties db = finish (OK tt) (commit s)
    /\ live s !! t = Some tb'
    /\ (forall x, tb' !! x = case_table_after properties tb x)
    /\ (forall t', t' <> t -> live s !! t' = db !! t')
    /\ ((forall c, In c (case_columns properties) -> is_Some (tb !! c)) ->
        (forall x, is_Some (tb !! x) -> x = "id" \/ In x (case_columns properties)) ->
        s = connect db).
Proof.
  intros Hdb. unfold confirm_case_table_columns.
  set (existing := column_names (live (connect db)) t ["imported_on"; "id"; "closed"]).
  destruct (confirm_case_columns_run t (case_columns properties) existing (connect db) tb Hdb)
    as (s1 & Hrun & Htb1 & Hother1 & Hsame1).
  rewrite Hrun.
  set (tb1 := fold_left (fun tb c => ensure_case_column c tb) (case_columns properties) tb) in *.
  assert (Hnd : NoDup existing) by apply column_names_NoDup.
  destruct (legacy_columns_spec (case_columns properties) existing Hnd) as [Hndl Hleg].
  assert (Hex : forall x, In x existing
                          <-> is_Some (tb !! x) /\ ~ In x ["imported_on"; "id"; "closed"]).
  { intros x. subst existing. cbn [connect live]. now apply column_names_In. }
  assert (Htb1x : forall x, tb1 !! x
                            = match tb !! x with
                              | Some ty => Some ty
                              | None => if str_in x (case_columns properties)
                                        then Some (case_column_type x) else None
                              end).
  { intros x. subst tb1. apply ensure_case_columns_lookup. }
  destruct (drop_columns_run t (legacy_columns (case_columns properties) existing) s1 tb1 Htb1 Hndl)
    as (s2 & tb2 & Hdrop & Htb2 & Hlook & Hother2 & Hdur & Hiss).
  { intros c Hc. apply Hleg in Hc as [Hc _]. apply Hex in Hc as [[ty Hty] _].
    rewrite Htb1x, Hty. eauto. }
  rewrite Hdrop. exists s2, tb2. split; [reflexivity |]. split; [exact Htb2 |].
  split; [| split].
  - intros x. rewrite Hlook, Htb1x. unfold case_table_after.
    destruct (str_in x (case_columns properties)) eqn:Ein.
    + replace (str_in x (legacy_columns _ _)) with false; [reflexivity |].
      symmetry. apply str_in_false. rewrite Hleg. apply str_in_true in Ein. tauto.
    + apply str_in_false in Ein.
      destruct (String.eqb x "id") eqn:Eid.
      * apply String.eqb_eq in Eid. subst x.
        replace (str_in "id" (legacy_columns _ _)) with false; [now destruct (tb !! "id") |].
        symmetry. apply str_in_false. rewrite Hleg, Hex. simpl. tauto.
      * apply String.eqb_neq in Eid.
        destruct (tb !! x) as [ty |] eqn:Hx; [| now destruct (str_in x _)].
        replace (str_in x (legacy_columns _ _)) with true; [reflexivity |].
        symmetry. apply str_in_true. rewrite Hleg, Hex, Hx.
        split; [| exact Ein]. split; [eauto |].
        unfold case_columns in Ein. rewrite in_app_iff in Ein. simpl in *.
        intros [<- | [<- | [<- | []]]]; tauto.
  - intros t' Hne. rewrite Hother2, Hother1 by exact Hne. reflexivity.
  - intros Hall Hstep.
    assert (Hs1 : s1 = connect db) by (apply Hsame1, Hall).
    assert (Hnil : legacy_columns (case_columns properties) existing = []).
    { apply legacy_nil; [exact Hnd |]. intros x Hx.
      apply Hex in Hx as [Hx Hexcl]. apply Hstep in Hx as [-> | Hx]; [| exact Hx].
      exfalso. apply Hexcl. simpl. tauto. }
    rewrite Hnil in Hdrop. cbn [drop_columns] in Hdrop. congruence.
Qed.



(** ** Tables that do not exist yet *)

Lemma create_statement_columns (t : string) (id_type : sqltype) (c : string)
    (cs : list string) :
  create_statement t id_type (c :: cs)
  = OK (CreateTable t (created_columns id_type (after_first (c :: cs)))).
Proof.
  unfold create_statement, created_columns. do 2 f_equal. cbn [app]. do 2 f_equal.
  rewrite <- List.map_app with (l' := [List.last (c :: cs) ""]), inner_last.
  now destruct cs.
Qed.

Lemma created_columns_names (id_type : sqltype) (rest : list string) :
  map fst (created_columns id_type rest) = "id" :: "imported_on" :: rest.
Proof.
  unfold created_columns. cbn [map fst]. do 2 f_equal.
  rewrite List.map_map. apply List.map_id.
Qed.

(** [confirm_table_schema] and [confirm_case_table_schema] on a database
    without the table: the statement is sent, and accepted when it names no
    column twice. *)
Lemma confirm_schema_fresh (t : string) (id_type : sqltype) (c : string)
    (cs : list string) (db : database) :
  db !! t = None ->
  confirm_schema
    (fun s => let* create_sql := create_statement t id_type (c :: cs) in
              execute create_sql s) t db
  = let cols := created_columns id_type (after_first (c :: cs)) in
    if no_dup_names ("id" :: "imported_on" :: after_first (c :: cs))
    then mkRun (OK tt) (<[t := list_to_map cols]> db) [CreateTable t cols]
    else mkRun (Err DatabaseError) db [].
Proof.
  intros Hdb. unfold confirm_schema. cbn [connect live]. rewrite Hdb.
  rewrite create_statement_columns. cbn [bind execute live connect]. rewrite Hdb.
  rewrite created_columns_names. cbv zeta.
  destruct (no_dup_names _); reflexivity.
Qed.

Section FreshTables.

Variable MAX_CHARVAR_LENGTH : Z.





End FreshTables.

(** On a server that takes names as they are spelled, a case table made
    from scratch: the [CREATE TABLE] statement leaves the
    first property out (the only one apart), the pass over the columns adds
    it, and in the end the table has the key and every column of the case.
    The names in the statement are to be distinct. *)
Lemma case_table_scratch_plain (t name p : string) (ps : list string) (db : database) :
  db !! t = None ->
  NoDup ("id" :: "imported_on" :: after_first (p :: ps)) ->
  let r1 := confirm_case_table_schema t (mkCase name (p :: ps)) db in
  let r2 := confirm_case_table_columns t (p :: ps) (db_after r1) in
  outcome r1 = OK tt
  /\ statements r1
     = [CreateTable t (created_columns (CharacterVarying 255) (after_first (p :: ps)))]
  /\ outcome r2 = OK tt
  /\ (exists tb,
        db_after r2 !! t = Some tb
        /\ forall x, is_Some (tb !! x) <-> x = "id" \/ In x (case_columns (p :: ps)))
  /\ forall t', t' <> t -> db_after r2 !! t' = db !! t'.
Proof.
  intros Hdb Hnd r1 r2.
  assert (Hr1 : r1 = mkRun (OK tt)
                       (<[t := list_to_map (created_columns (CharacterVarying 255)
                                              (after_first (p :: ps)))]> db)
                       [CreateTable t (created_columns (CharacterVarying 255)
                                         (after_first (p :: ps)))]).
  { subst r1. unfold confirm_case_table_schema, create_case_table. cbn [properties].
    rewrite (confirm_schema_fresh t _ p ps db Hdb). cbv zeta.
    unfold no_dup_names. now rewrite bool_decide_eq_true_2. }
  subst r2. rewrite Hr1. cbn [outcome statements db_after].
  split; [reflexivity |]. split; [reflexivity |].
  set (tb0 := list_to_map (created_columns (CharacterVarying 255) (after_first (p :: ps)))
              : table).
  destruct (confirm_case_table_columns_run t (p :: ps) (<[t := tb0]> db) tb0)
    as (s & tb' & -> & Htb' & Hlook & Hother & _); [apply lookup_insert_eq |].
  cbn [finish commit outcome db_after durable live].
  split; [reflexivity |]. split.
  - exists tb'. split; [exact Htb' |]. intros x. rewrite Hlook. unfold case_table_after.
    destruct (str_in x (case_columns (p :: ps))) eqn:Ein.
    + apply str_in_true in Ein. split; [now right | intros _].
      destruct (tb0 !! x); eauto.
    + apply str_in_false in Ein.
      destruct (String.eqb x "id") eqn:Eid.
      * apply String.eqb_eq in Eid. subst x. split; [now left | intros _].
        subst tb0. unfold created_columns. cbn [list_to_map foldr uncurry fst snd].
        rewrite lookup_insert_eq. eauto.
      * apply String.eqb_neq in Eid. split; [intros [? ?]; discriminate |].
        intros [? | ?]; contradiction.
  - intros t' Hne. rewrite Hother by exact Hne. now rewrite lookup_insert_ne by congruence.
Qed.

Section Sheets.

Variable MAX_CHARVAR_LENGTH : Z.

Lemma system_columns_names (is_loop : bool) :
  exists c rest,
    map database_column (system_columns is_loop) = "id" :: c :: rest.
Proof. destruct is_loop; do 2 eexists; reflexivity. Qed.

Lemma occurrences_not_NoDup (c : string) (names : list string) :
  2 <= count_occ string_dec names c -> ~ NoDup names.
Proof.
  intros H Hnd. apply NoDup_ListNoDup in Hnd.
  pose proof (proj1 (NoDup_count_occ string_dec names) Hnd c). lia.
Qed.

Lemma generate_form_spreadsheet_columns node name is_loop parent_name names sh names' :
  generate_form_spreadsheet node name is_loop parent_name names = OK (sh, names') ->
  sheet_columns sh = system_columns is_loop ++ scope_columns node.
Proof.
  rewrite generate_form_spreadsheet_unfold.
  destruct (create_form_spreadsheet _ _ _ _ _) as [[sr names1] |] eqn:Ec;
    cbn [bind]; [| discriminate].
  destruct (create_form_spreadsheet_sheet _ _ _ _ _ _ _ Ec) as (_ & _ & Hcols & _).
  destruct sr as [fname file tgt cols chs].
  destruct (each_loop tgt _ _) as [[chs' names2] |]; cbn [bind]; [| discriminate].
  now intros [= <- <-].
Qed.

(** X26. A sheet that comes out of the flattening with a database column named
    twice is reported by [find_duplicate_columns], and its table cannot be
    created: the statement is refused and nothing is changed. *)
Theorem duplicate_column_blocks_creation node name is_loop parent_name names sh names'
    (c : string) (db : database) :
  generate_form_spreadsheet node name is_loop parent_name names = OK (sh, names') ->
  2 <= occurrences c sh ->
  db !! sheet_target sh = None ->
  is_Some (find_duplicate_columns sh !! c)
  /\ reconcile_sheet MAX_CHARVAR_LENGTH sh db = mkRun (Err DatabaseError) db [].
Proof.
  intros Hgen Hocc Hdb. split.
  { apply find_duplicate_columns_keys. exists sh. split; [| exact Hocc].
    destruct sh. now left. }
  pose proof (generate_form_spreadsheet_columns _ _ _ _ _ _ _ Hgen) as Hcols.
  unfold reconcile_sheet, occurrences in *. rewrite Hcols in *.
  rewrite List.map_app in *.
  destruct (system_columns_names is_loop) as (c1 & rest & Hsys). rewrite Hsys in *.
  cbn [app] in *.
  set (others := rest ++ map database_column (scope_columns node)) in *.
  unfold reconcile, confirm_table_schema, create_table.
  rewrite (confirm_schema_fresh _ _ "id" (c1 :: others) db Hdb).
  cbn [after_first]. cbv zeta.
  unfold no_dup_names. rewrite bool_decide_eq_false_2; [reflexivity |].
  intros Hnd. apply NoDup_cons in Hnd as [Hid Hnd]. apply NoDup_cons in Hnd as [_ Hnd].
  apply (occurrences_not_NoDup c ("id" :: c1 :: others)); [exact Hocc |].
  apply NoDup_cons. split; [| exact Hnd].
  intros Hin. apply Hid. now apply list_elem_of_further.
Qed.

End Sheets.

Lemma duplicate_column_blocks_creation_witness :
  let form :=
    QNode form_obj_question
      [group_node "mother" [] [text_question "mother/name"];
       group_node "child" [] [text_question "child/name"]]
      [] [] in
  exists sh,
    is_Some (find_duplicate_columns sh !! "name")
    /\ reconcile_sheet 255 sh ∅ = mkRun (Err DatabaseError) ∅ [].
Proof.
  intros form.
  destruct (generate_form_spreadsheet form "Visit" false "" []) as [[sh names] |] eqn:E;
    [| vm_compute in E; discriminate E].
  exists sh.
  refine (duplicate_column_blocks_creation 255 form "Visit" false "" [] sh names
            "name" ∅ E _ _).
  - vm_compute in E. injection E as <- _. vm_compute. lia.
  - apply lookup_empty.
Defined.

(** ** Passes that fail, passes that end well *)

Lemma keeps_refl (tb : table) : keeps tb tb.
Proof. intros x ty H. now exists ty. Qed.

Lemma keeps_insert_new (tb tb' : table) (c : string) (ty : sqltype) :
  keeps tb tb' -> tb' !! c = None -> keeps tb (<[c := ty]> tb').
Proof.
  intros Hk Hc x tyx Hx. destruct (Hk x tyx Hx) as (ty' & Hty' & Hsame).
  exists ty'. split; [| exact Hsame].
  rewrite lookup_insert_ne; [exact Hty' |]. intros ->. congruence.
Qed.

Lemma keeps_insert_id (tb tb' : table) (ty : sqltype) :
  keeps tb tb' -> keeps tb (<["id" := ty]> tb').
Proof.
  intros Hk x tyx Hx. destruct (Hk x tyx Hx) as (ty' & Hty' & Hsame).
  destruct (decide (x = "id")) as [-> | Hne].
  - exists ty. split; [apply lookup_insert_eq | congruence].
  - exists ty'. split; [now rewrite lookup_insert_ne by congruence | exact Hsame].
Qed.

Lemma drop_columns_durable (t : string) (legacy : list string) :
  forall s r s', drop_columns t legacy s = (r, s') -> durable s' = durable s.
Proof.
  induction legacy as [|c cs IH]; intros s r s'; cbn [drop_columns].
  - now intros [= _ <-].
  - destruct (execute (DropColumn t c) s) as [s1 |] eqn:E; [| now intros [= _ <-]].
    intros H. rewrite (IH _ _ _ H).
    cbn [execute] in E. destruct (live s !! t) as [tb |]; [| discriminate].
    destruct (tb !! c); [| discriminate]. now injection E as <-.
Qed.

Section Passes.

Variable MAX_CHARVAR_LENGTH : Z.

(** One column of the sheet, however the step ends: what the cursor sees
    and what is committed both keep the columns the table had. *)
Lemma confirm_column_keeps_columns (t c : string) (ex : list string) (s s' : session)
    (r : result (list string)) (tb tbl tbd : table) :
  confirm_column MAX_CHARVAR_LENGTH t c (ex, s) = (r, s') ->
  live s !! t = Some tbl -> durable s !! t = Some tbd ->
  keeps tb tbl -> keeps tb tbd ->
  exists tbl' tbd',
    live s' !! t = Some tbl' /\ durable s' !! t = Some tbd'
    /\ keeps tb tbl' /\ keeps tb tbd'.
Proof.
  intros H Hl Hd Hkl Hkd. unfold confirm_column in H.
  rewrite (column_type_live s t c tbl Hl) in H.
  destruct (tbl !! c) as [ty |] eqn:Hc.
  - destruct (String.eqb c "id") eqn:Eid.
    + destruct (character_maximum_length ty) as [n |];
        [| cbv beta iota in H; injection H as _ <-; now exists tbl, tbd].
      destruct (n <? MAX_CHARVAR_LENGTH)%Z.
      * cbn [execute] in H. rewrite Hl in H.
        destruct (tbl !! "id") eqn:Hid.
        -- unfold column_type in H. cbn [sent live] in H.
           rewrite lookup_insert_eq in H. cbn [mbind option_bind] in H.
           assert (Hs' : s' = sent (AlterIdType t MAX_CHARVAR_LENGTH) s
                               (<[t := <["id" := CharacterVarying MAX_CHARVAR_LENGTH]> tbl]>
                                  (live s))).
           { destruct (<["id" := _]> tbl !! c) as [ty' |];
               [destruct (comparable_with_text ty') |];
               cbv beta iota in H; now injection H as _ <-. }
           subst s'. cbn [sent live durable]. rewrite lookup_insert_eq.
           eexists _, tbd. repeat split; [exact Hd | now apply keeps_insert_id | exact Hkd].
        -- injection H as _ <-. now exists tbl, tbd.
      * assert (Hs' : s' = s).
        { destruct (column_type (live s) t c) as [ty' |];
            [destruct (comparable_with_text ty') |];
            cbv beta iota in H; now injection H as _ <-. }
        subst s'. now exists tbl, tbd.
    + assert (Hs' : s' = s).
      { destruct (column_type (live s) t c) as [ty' |];
          [destruct (comparable_with_text ty') |];
          cbv beta iota in H; now injection H as _ <-. }
      subst s'. now exists tbl, tbd.
  - cbn [execute] in H. rewrite Hl, Hc in H. injection H as _ <-.
    cbn [commit sent live durable]. rewrite lookup_insert_eq.
    eexists _, _. repeat split; now apply keeps_insert_new.
Qed.

Lemma confirm_columns_keep_columns (t : string) (columns : list string) (tb : table) :
  forall ex s r s' tbl tbd,
    confirm_columns MAX_CHARVAR_LENGTH t columns (ex, s) = (r, s') ->
    live s !! t = Some tbl -> durable s !! t = Some tbd ->
    keeps tb tbl -> keeps tb tbd ->
    exists tbd', durable s' !! t = Some tbd' /\ keeps tb tbd'.
Proof.
  induction columns as [|c cs IH]; intros ex s r s' tbl tbd H Hl Hd Hkl Hkd.
  - cbn [confirm_columns fst snd] in H. injection H as _ <-. now exists tbd.
  - cbn [confirm_columns] in H.
    destruct (confirm_column MAX_CHARVAR_LENGTH t c (ex, s)) as [[ex1 | e] s1] eqn:E1.
    + destruct (confirm_column_keeps_columns _ _ _ _ _ _ tb _ _ E1 Hl Hd Hkl Hkd)
        as (tbl1 & tbd1 & Hl1 & Hd1 & Hkl1 & Hkd1).
      apply (IH _ _ _ _ _ _ H Hl1 Hd1 Hkl1 Hkd1).
    + injection H as _ <-.
      destruct (confirm_column_keeps_columns _ _ _ _ _ _ tb _ _ E1 Hl Hd Hkl Hkd)
        as (tbl1 & tbd1 & _ & Hd1 & _ & Hkd1).
      now exists tbd1.
Qed.

(** X27. A pass of [confirm_table_columns] that fails has dropped nothing: every
    column the table had is still there, with its type, the key apart, whose
    type may have been widened. *)
Theorem confirm_table_columns_failure_keeps (t : string) (columns : list string)
    (db : database) (tb : table) (e : error) :
  db !! t = Some tb ->
  outcome (confirm_table_columns MAX_CHARVAR_LENGTH t columns db) = Err e ->
  exists tb',
    db_after (confirm_table_columns MAX_CHARVAR_LENGTH t columns db) !! t = Some tb'
    /\ forall x ty, tb !! x = Some ty ->
         exists ty', tb' !! x = Some ty' /\ (x <> "id" -> ty' = ty).
Proof.
  intros Hdb. unfold confirm_table_columns.
  destruct (confirm_columns _ _ _ _) as [[legacy | e1] s1] eqn:E1.
  - destruct (confirm_columns_keep_columns _ _ tb _ _ _ _ tb tb E1 Hdb Hdb
                (keeps_refl tb) (keeps_refl tb)) as (tbd & Hd & Hk).
    destruct (drop_columns t legacy s1) as [[u | e2] s2] eqn:E2;
      cbn [finish outcome db_after]; [discriminate |].
    intros _. rewrite (drop_columns_durable _ _ _ _ _ E2). now exists tbd.
  - cbn [finish outcome db_after]. intros _.
    destruct (confirm_columns_keep_columns _ _ tb _ _ _ _ tb tb E1 Hdb Hdb
                (keeps_refl tb) (keeps_refl tb)) as (tbd & Hd & Hk).
    now exists tbd.
Qed.

End Passes.

Lemma confirm_table_columns_failure_keeps_witness :
  let tb : table := {[ "id" := Text; "old_field" := Text ]} in
  let db : database := {[ "visit" := tb ]} in
  exists tb',
    db_after (confirm_table_columns 255 "visit" ["weight"; "id"] db) !! "visit" = Some tb'
    /\ forall x ty, tb !! x = Some ty ->
         exists ty', tb' !! x = Some ty' /\ (x <> "id" -> ty' = ty).
Proof.
  intros tb db.
  refine (confirm_table_columns_failure_keeps 255 "visit" ["weight"; "id"] db tb
            TypeError _ _); [apply lookup_singleton_eq | vm_compute; reflexivity].
Defined.

Lemma adds_text_refl (tb : table) : adds_text tb tb.
Proof. intros x ty H _. now left. Qed.

Lemma adds_text_insert_id (tb tb' : table) (ty : sqltype) :
  adds_text tb tb' -> adds_text tb (<["id" := ty]> tb').
Proof.
  intros Ha x tyx Hx Hne. rewrite lookup_insert_ne in Hx by congruence. now apply Ha.
Qed.

Lemma adds_text_insert_new (tb tb' : table) (c : string) :
  keeps tb tb' -> adds_text tb tb' -> tb' !! c = None ->
  adds_text tb (<[c := Text]> tb').
Proof.
  intros Hk Ha Hc x tyx Hx Hne. destruct (decide (c = x)) as [-> | Hcx].
  - rewrite lookup_insert_eq in Hx. injection Hx as <-.
    destruct (tb !! x) as [ty0 |] eqn:E; [| now right].
    destruct (Hk x ty0 E) as (ty' & Hty' & _). congruence.
  - rewrite lookup_insert_ne in Hx by exact Hcx. now apply Ha.
Qed.

Section Types.

Variable MAX_CHARVAR_LENGTH : Z.

(** One column of the sheet, when the step succeeds: the table the cursor
    sees keeps what it had and gains [TEXT] columns only. *)
Lemma confirm_column_follows (t c : string) (ex ex' : list string) (s s' : session)
    (tb tbl : table) :
  confirm_column MAX_CHARVAR_LENGTH t c (ex, s) = (OK ex', s') ->
  live s !! t = Some tbl ->
  keeps tb tbl -> adds_text tb tbl ->
  exists tbl',
    live s' !! t = Some tbl' /\ keeps tb tbl' /\ adds_text tb tbl'
    /\ forall t', t' <> t -> live s' !! t' = live s !! t'.
Proof.
  intros H Hl Hk Ha. unfold confirm_column in H.
  rewrite (column_type_live s t c tbl Hl) in H.
  destruct (tbl !! c) as [ty |] eqn:Hc.
  - assert (Hcases : s' = s
                     \/ s' = sent (AlterIdType t MAX_CHARVAR_LENGTH) s
                               (<[t := <["id" := CharacterVarying MAX_CHARVAR_LENGTH]> tbl]>
                                  (live s))).
    { destruct (String.eqb c "id").
      - destruct (character_maximum_length ty) as [n |]; [| discriminate].
        destruct (n <? MAX_CHARVAR_LENGTH)%Z.
        + cbn [execute] in H. rewrite Hl in H.
          destruct (tbl !! "id"); [| discriminate].
          right. destruct (column_type _ t c) as [ty' |];
            [destruct (comparable_with_text ty') |];
            cbv beta iota in H; now injection H as _ <-.
        + left. destruct (column_type _ t c) as [ty' |];
            [destruct (comparable_with_text ty') |];
            cbv beta iota in H; now injection H as _ <-.
      - left. destruct (column_type _ t c) as [ty' |];
          [destruct (comparable_with_text ty') |];
          cbv beta iota in H; now injection H as _ <-. }
    destruct Hcases as [-> | ->].
    + exists tbl. repeat split; assumption.
    + cbn [sent live]. rewrite lookup_insert_eq. eexists. split; [reflexivity |].
      split; [now apply keeps_insert_id |]. split; [now apply adds_text_insert_id |].
      intros t' Hne. now rewrite lookup_insert_ne by congruence.
  - cbn [execute] in H. rewrite Hl, Hc in H. injection H as _ <-.
    cbn [commit sent live]. rewrite lookup_insert_eq. eexists. split; [reflexivity |].
    split; [now apply keeps_insert_new |]. split; [now apply adds_text_insert_new |].
    intros t' Hne. now rewrite lookup_insert_ne by congruence.
Qed.

Lemma confirm_columns_follow (t : string) (columns : list string) (tb : table) :
  forall ex s legacy s' tbl,
    confirm_columns MAX_CHARVAR_LENGTH t columns (ex, s) = (OK legacy, s') ->
    live s !! t = Some tbl ->
    keeps tb tbl -> adds_text tb tbl ->
    exists tbl',
      live s' !! t = Some tbl' /\ keeps tb tbl' /\ adds_text tb tbl'
      /\ forall t', t' <> t -> live s' !! t' = live s !! t'.
Proof.
  induction columns as [|c cs IH]; intros ex s legacy s' tbl H Hl Hk Ha.
  - cbn [confirm_columns fst snd] in H. injection H as _ <-.
    exists tbl. repeat split; assumption.
  - cbn [confirm_columns] in H.
    destruct (confirm_column MAX_CHARVAR_LENGTH t c (ex, s)) as [[ex1 | e] s1] eqn:E1;
      [| discriminate].
    destruct (confirm_column_follows _ _ _ _ _ _ tb _ E1 Hl Hk Ha)
      as (tbl1 & Hl1 & Hk1 & Ha1 & Ho1).
    destruct (IH _ _ _ _ _ H Hl1 Hk1 Ha1) as (tbl' & Hl' & Hk' & Ha' & Ho').
    exists tbl'. repeat split; try assumption.
    intros t' Hne. now rewrite Ho', Ho1.
Qed.

(** On a server that takes names as they are spelled, a pass of
    [confirm_table_columns] that ends well leaves, the key apart,
    exactly this: a column of the sheet with the type it had, or [TEXT] if
    it is new; [imported_on] as it was; nothing else. No other table is
    touched. *)
Lemma column_pass_types_plain (t : string) (columns : list string)
    (db : database) (tb : table) :
  db !! t = Some tb ->
  outcome (confirm_table_columns MAX_CHARVAR_LENGTH t columns db) = OK tt ->
  (exists tb',
     db_after (confirm_table_columns MAX_CHARVAR_LENGTH t columns db) !! t = Some tb'
     /\ forall x, x <> "id" ->
          tb' !! x = if str_in x columns then Some (default Text (tb !! x))
                     else if String.eqb x "imported_on" then tb !! x
                     else None)
  /\ forall t', t' <> t ->
       db_after (confirm_table_columns MAX_CHARVAR_LENGTH t columns db) !! t' = db !! t'.
Proof.
  intros Hdb. unfold confirm_table_columns.
  set (existing := column_names (live (connect db)) t ["imported_on"]).
  destruct (confirm_columns _ _ _ _) as [[legacy | e] s1] eqn:E1;
    [| cbn [finish outcome]; discriminate].
  destruct (confirm_columns_ok _ _ _ _ _ _ _ _ E1 Hdb)
    as (tb1 & Htb1 & -> & Hcs & _ & Hdom & _).
  destruct (confirm_columns_follow _ _ tb _ _ _ _ tb E1 Hdb (keeps_refl tb) (adds_text_refl tb))
    as (tb1' & Htb1' & Hk & Ha & Ho1).
  rewrite Htb1 in Htb1'. injection Htb1' as <-.
  assert (Hnd : NoDup existing) by apply column_names_NoDup.
  destruct (legacy_columns_spec columns existing Hnd) as [Hndl Hleg].
  assert (Hex : forall x, In x existing <-> is_Some (tb !! x) /\ ~ In x ["imported_on"]).
  { intros x. subst existing. cbn [connect live]. now apply column_names_In. }
  destruct (drop_columns_run t _ s1 tb1 Htb1 Hndl)
    as (s2 & tb2 & -> & Htb2 & Hlook & Ho2 & _ & _).
  { intros c Hc. apply Hleg in Hc as [Hc _]. apply Hex in Hc as [[ty Hty] _].
    destruct (Hk c ty Hty) as (ty' & -> & _). eauto. }
  intros _. cbn [finish commit db_after durable live]. split.
  - exists tb2. split; [exact Htb2 |]. intros x Hid. rewrite Hlook.
    destruct (str_in x columns) eqn:Ein.
    + replace (str_in x (legacy_columns columns existing)) with false
        by (symmetry; apply str_in_false; rewrite Hleg; apply str_in_true in Ein; tauto).
      apply str_in_true in Ein. destruct (Hcs x Ein) as [ty Hty]. rewrite Hty.
      destruct (Ha x ty Hty Hid) as [-> | [-> ->]]; reflexivity.
    + apply str_in_false in Ein.
      assert (Hsame : tb1 !! x = tb !! x).
      { destruct (tb !! x) as [ty |] eqn:Hx.
        - destruct (Hk x ty Hx) as (ty' & -> & Hty'). now rewrite Hty'.
        - apply eq_None_not_Some. intros Hs.
          destruct (Hdom x Hs) as [[? ?] | ?]; [congruence | contradiction]. }
      destruct (String.eqb x "imported_on") eqn:Eimp.
      * apply String.eqb_eq in Eimp.
        replace (str_in x (legacy_columns columns existing)) with false; [exact Hsame |].
        symmetry. apply str_in_false. rewrite Hleg, Hex. simpl. intuition congruence.
      * apply String.eqb_neq in Eimp.
        destruct (tb !! x) as [ty |] eqn:Hx; [| now destruct (str_in x _)].
        replace (str_in x (legacy_columns columns existing)) with true; [reflexivity |].
        symmetry. apply str_in_true. rewrite Hleg, Hex, Hx.
        split; [| exact Ein]. split; [eauto |]. simpl. intros [<- | []]. congruence.
  - intros t' Hne. now rewrite Ho2, Ho1.
Qed.

(** X29. Both column passes need the table: without it they fail at the first
    column, and leave the database as it is. *)
Theorem column_passes_need_table (t c : string) (columns properties : list string)
    (db : database) :
  db !! t = None ->
  confirm_table_columns MAX_CHARVAR_LENGTH t (c :: columns) db
  = mkRun (Err DatabaseError) db []
  /\ confirm_case_table_columns t properties db = mkRun (Err DatabaseError) db [].
Proof.
  intros Hdb. split.
  - unfold confirm_table_columns. cbn [confirm_columns confirm_column].
    unfold column_type. cbn [connect live execute]. rewrite Hdb. reflexivity.
  - unfold confirm_case_table_columns, case_columns.
    assert (Hne : exists p ps,
               properties ++ ["imported_on"; "opened_date"; "closed"; "owner_id"] = p :: ps)
      by (destruct properties; do 2 eexists; reflexivity).
    destruct Hne as (p & ps & ->).
    cbn [confirm_case_columns confirm_case_column].
    unfold column_type. cbn [connect live execute]. rewrite Hdb. reflexivity.
Qed.

End Types.

Lemma column_passes_need_table_witness :
  confirm_table_columns 255 "visit" ["id"; "weight"] ∅ = mkRun (Err DatabaseError) ∅ []
  /\ confirm_case_table_columns "case_patient" ["name"] ∅
     = mkRun (Err DatabaseError) ∅ [].
Proof.
  refine (column_passes_need_table 255 "visit" "id" ["weight"] ["name"] ∅ _).
  apply lookup_empty.
Defined.

(** ** The two servers

    On a table name that no other relation bears and on ordinary column
    names, the server that follows PostgreSQL's identifier rules does what
    the server that takes names as they are spelled does. *)

Lemma substring_all (s : string) :
  forall n, (py_len s <= n)%nat -> String.substring 0 n s = s.
Proof.
  unfold py_len. induction s as [|a s IH]; intros n Hn.
  - now destruct n.
  - destruct n as [|n]; cbn [String.length] in Hn; [lia |].
    cbn [String.substring]. f_equal. apply IH. lia.
Qed.

Lemma substring_length (s : string) :
  forall n, (n <= py_len s)%nat -> py_len (String.substring 0 n s) = n.
Proof.
  unfold py_len. induction s as [|a s IH]; intros n Hn.
  - cbn [String.length] in Hn. now replace n with 0%nat by lia.
  - destruct n as [|n]; [reflexivity |]. cbn [String.length] in Hn.
    cbn [String.substring String.length]. f_equal. apply IH. lia.
Qed.

Lemma ordinary_name_ident (name : string) :
  Pg.ordinary_name name = true -> Pg.ident name = name /\ name <> "".
Proof.
  unfold Pg.ordinary_name. rewrite !andb_true_iff, negb_true_iff.
  intros [[Hne Hlen] _]. apply String.eqb_neq in Hne. apply Nat.leb_le in Hlen.
  split; [now apply substring_all | exact Hne].
Qed.

Lemma ordinary_column_allowed (c : string) :
  Pg.ordinary_column c = true ->
  Pg.ident c = c /\ str_in c Pg.hidden_columns = false
  /\ Pg.column_name_allowed c = true.
Proof.
  unfold Pg.ordinary_column, Pg.column_name_allowed.
  rewrite andb_true_iff, negb_true_iff. intros [Hname Hhid].
  destruct (ordinary_name_ident c Hname) as [Hid Hne].
  unfold str_in in Hhid. cbn [existsb] in Hhid. apply orb_false_iff in Hhid as [_ Hhid].
  apply String.eqb_neq in Hne. unfold str_in. now rewrite Hne, Hhid.
Qed.

Lemma ordinary_columns_In (columns : list string) (c : string) :
  forallb Pg.ordinary_column columns = true -> In c columns ->
  Pg.ordinary_column c = true.
Proof. intros H Hc. rewrite forallb_forall in H. now apply H. Qed.

Section Statements.

Variable MAX_CHARVAR_LENGTH : Z.
Variable others : list Pg.relation.
Variable t : string.
Hypothesis ordinary : Pg.ordinary_table others t = true.
Hypothesis bound : Pg.type_allowed (CharacterVarying MAX_CHARVAR_LENGTH) = true.

Lemma ordinary_table_ident : Pg.ident t = t /\ t <> "".
Proof.
  unfold Pg.ordinary_table in ordinary. apply andb_true_iff in ordinary as [H _].
  now apply ordinary_name_ident.
Qed.

Lemma others_named_none : Pg.others_named others t = [].
Proof.
  unfold Pg.others_named. rewrite (proj1 ordinary_table_ident).
  unfold Pg.ordinary_table in ordinary. apply andb_true_iff in ordinary as [_ H].
  induction others as [|r rs IH]; [reflexivity |].
  cbn [forallb] in H. apply andb_true_iff in H as [Hr Hrs].
  cbn [List.filter]. apply negb_true_iff in Hr. rewrite Hr. now apply IH.
Qed.

Lemma public_table_lookup (db : database) :
  Pg.public_table db t
  = match db !! t with
    | Some tb => [Pg.mkRelation "public" t Pg.OrdinaryTable tb]
    | None => []
    end.
Proof. unfold Pg.public_table. now rewrite (proj1 ordinary_table_ident). Qed.

Lemma attrelid_lookup (db : database) :
  Pg.attrelid others db t
  = OK (Pg.mkRelation "public" t Pg.OrdinaryTable <$> db !! t).
Proof.
  unfold Pg.attrelid, Pg.pg_class.
  rewrite others_named_none, public_table_lookup. now destruct (db !! t).
Qed.

Lemma column_names_agree (db : database) (excluded : list string) :
  Pg.column_names others db t excluded = OK (column_names db t excluded).
Proof.
  unfold Pg.column_names, column_names. rewrite attrelid_lookup.
  now destruct (db !! t).
Qed.

Lemma column_exists_agrees (db : database) (c : string) :
  Pg.ordinary_column c = true ->
  Pg.column_exists others db t c
  = OK (match column_type db t c with Some _ => true | None => false end).
Proof.
  intros Hc. destruct (ordinary_column_allowed c Hc) as (Hid & Hhid & _).
  unfold Pg.column_exists, column_type. rewrite attrelid_lookup.
  destruct (db !! t) as [tb |]; cbn [fmap option_fmap option_map bind mbind option_bind];
    [| reflexivity].
  cbn [Pg.attributes]. rewrite Hid, Hhid, andb_false_r, orb_false_r.
  destruct (tb !! c); reflexivity.
Qed.

Lemma regclass_lookup (db : database) :
  Pg.regclass others db t
  = Pg.mkRelation "public" t Pg.OrdinaryTable <$> db !! t.
Proof.
  unfold Pg.regclass. rewrite others_named_none, public_table_lookup.
  now destruct (db !! t).
Qed.

Lemma alterable_lookup (db : database) : Pg.alterable others db t = db !! t.
Proof.
  unfold Pg.alterable. rewrite regclass_lookup, (proj1 ordinary_table_ident).
  now destruct (db !! t).
Qed.

Lemma count_filled_agrees (db : database) (c : string) :
  Pg.ident c = c ->
  Pg.count_filled others db t c
  = match column_type db t c with
    | Some ty => if comparable_with_text ty then OK tt else Err DatabaseError
    | None => Err DatabaseError
    end.
Proof.
  intros Hid. unfold Pg.count_filled, column_type. rewrite regclass_lookup.
  destruct (db !! t) as [tb |]; cbn [fmap option_fmap option_map mbind option_bind];
    [| reflexivity].
  cbn [Pg.attributes]. rewrite Hid. now destruct (tb !! c).
Qed.

Lemma id_max_length_agrees (db : database) (ty : sqltype) :
  column_type db t "id" = Some ty ->
  Pg.id_max_length others db t
  = match character_maximum_length ty with
    | Some max_length => OK max_length
    | None => Err TypeError
    end.
Proof.
  unfold column_type, Pg.id_max_length, Pg.pg_class.
  rewrite others_named_none, public_table_lookup, app_nil_r.
  destruct (db !! t) as [tb |]; cbn [mbind option_bind]; [| discriminate].
  intros Hty. cbn [List.filter Pg.has_rows Pg.kind Pg.attributes]. rewrite Hty.
  rewrite bool_decide_eq_true_2 by eauto. cbn [mbind option_bind Pg.attributes].
  now rewrite Hty.
Qed.

Lemma execute_add_agrees (c : string) (ty : sqltype) (s : session) :
  Pg.ordinary_column c = true -> Pg.type_allowed ty = true ->
  Pg.execute others (AddColumn t c ty) s = execute (AddColumn t c ty) s.
Proof.
  intros Hc Hty. destruct (ordinary_column_allowed c Hc) as (Hid & _ & Hok).
  cbn [Pg.execute execute]. rewrite alterable_lookup, Hid, Hok, Hty.
  now rewrite (proj1 ordinary_table_ident).
Qed.

Lemma execute_alter_agrees (s : session) :
  Pg.execute others (AlterIdType t MAX_CHARVAR_LENGTH) s
  = execute (AlterIdType t MAX_CHARVAR_LENGTH) s.
Proof.
  cbn [Pg.execute execute]. rewrite alterable_lookup, bound.
  now rewrite (proj1 ordinary_table_ident).
Qed.

Lemma execute_drop_agrees (c : string) (s : session) :
  Pg.ident c = c ->
  Pg.execute others (DropColumn t c) s = execute (DropColumn t c) s.
Proof.
  intros Hid. cbn [Pg.execute execute]. rewrite alterable_lookup, Hid.
  now rewrite (proj1 ordinary_table_ident).
Qed.

Lemma execute_create_agrees (cols : list (string * sqltype)) (s : session) :
  forallb Pg.ordinary_column (map fst cols) = true ->
  forallb Pg.type_allowed (map snd cols) = true ->
  Pg.execute others (CreateTable t cols) s = execute (CreateTable t cols) s.
Proof.
  intros Hcols Htypes. cbn [Pg.execute execute].
  rewrite others_named_none, public_table_lookup. cbn [List.filter]. rewrite app_nil_r.
  destruct ordinary_table_ident as [Hid Hne]. rewrite Hid.
  apply String.eqb_neq in Hne. rewrite Hne. cbn [negb andb].
  assert (Hsame : map (fun col : string * sqltype => (Pg.ident (fst col), snd col)) cols
                  = cols).
  { clear Htypes. induction cols as [|[c ty] cs IH]; [reflexivity |].
    cbn [map fst forallb] in Hcols. apply andb_true_iff in Hcols as [Hc Hcs].
    cbn [map fst snd]. rewrite (proj1 (ordinary_column_allowed c Hc)). f_equal.
    now apply IH. }
  rewrite Hsame, Htypes.
  assert (Hallowed : forallb Pg.column_name_allowed (map fst cols) = true).
  { apply forallb_forall. intros c Hc. rewrite forallb_forall in Hcols.
    now apply ordinary_column_allowed, Hcols. }
  rewrite Hallowed. cbn [andb].
  destruct (live s !! t); [reflexivity |]. now destruct (no_dup_names _).
Qed.

Lemma confirm_column_agrees (c : string) (st : list string * session) :
  Pg.ordinary_column c = true ->
  Pg.confirm_column MAX_CHARVAR_LENGTH others t c st
  = confirm_column MAX_CHARVAR_LENGTH t c st.
Proof.
  intros Hc. destruct st as [ex s]. unfold Pg.confirm_column, confirm_column.
  rewrite (column_exists_agrees _ _ Hc).
  destruct (column_type (live s) t c) as [ty |] eqn:Hty.
  - assert (Hw : (if String.eqb c "id" then
                    match Pg.id_max_length others (live s) t with
                    | Err e => Err e
                    | OK max_length =>
                        if (max_length <? MAX_CHARVAR_LENGTH)%Z
                        then Pg.execute others (AlterIdType t MAX_CHARVAR_LENGTH) s
                        else OK s
                    end
                  else OK s)
                 = (if String.eqb c "id" then
                      match character_maximum_length ty with
                      | None => Err TypeError
                      | Some max_length =>
                          if (max_length <? MAX_CHARVAR_LENGTH)%Z
                          then execute (AlterIdType t MAX_CHARVAR_LENGTH) s
                          else OK s
                      end
                    else OK s)).
    { destruct (String.eqb c "id") eqn:Eid; [| reflexivity].
      apply String.eqb_eq in Eid. subst c.
      rewrite (id_max_length_agrees _ _ Hty), execute_alter_agrees.
      now destruct (character_maximum_length ty). }
    cbv zeta. rewrite Hw. clear Hw.
    destruct (if String.eqb c "id" then _ else _) as [s' | e]; [| reflexivity].
    rewrite (count_filled_agrees _ _ (proj1 (ordinary_column_allowed c Hc))).
    destruct (column_type (live s') t c) as [ty' |]; [| reflexivity].
    now destruct (comparable_with_text ty').
  - now rewrite (execute_add_agrees c Text s Hc eq_refl).
Qed.

Lemma confirm_columns_agree (columns : list string) :
  forallb Pg.ordinary_column columns = true ->
  forall st,
    Pg.confirm_columns MAX_CHARVAR_LENGTH others t columns st
    = confirm_columns MAX_CHARVAR_LENGTH t columns st.
Proof.
  induction columns as [|c cs IH]; intros H st; [reflexivity |].
  cbn [forallb] in H. apply andb_true_iff in H as [Hc Hcs].
  cbn [Pg.confirm_columns confirm_columns]. rewrite (confirm_column_agrees _ _ Hc).
  destruct (confirm_column _ _ _ _) as [[ex | e] s]; [now apply IH | reflexivity].
Qed.

Lemma confirm_case_column_agrees (c : string) (st : list string * session) :
  Pg.ordinary_column c = true ->
  Pg.confirm_case_column others t c st = confirm_case_column t c st.
Proof.
  intros Hc. destruct st as [ex s]. unfold Pg.confirm_case_column, confirm_case_column.
  rewrite (column_exists_agrees _ _ Hc).
  destruct (column_type (live s) t c); [reflexivity |].
  rewrite (execute_add_agrees _ _ _ Hc); [reflexivity |].
  unfold case_column_type. now destruct (String.eqb c "closed").
Qed.

Lemma confirm_case_columns_agree (columns : list string) :
  forallb Pg.ordinary_column columns = true ->
  forall st,
    Pg.confirm_case_columns others t columns st = confirm_case_columns t columns st.
Proof.
  induction columns as [|c cs IH]; intros H st; [reflexivity |].
  cbn [forallb] in H. apply andb_true_iff in H as [Hc Hcs].
  cbn [Pg.confirm_case_columns confirm_case_columns].
  rewrite (confirm_case_column_agrees _ _ Hc).
  destruct (confirm_case_column _ _ _) as [[ex | e] s]; [now apply IH | reflexivity].
Qed.

Lemma drop_columns_agree (legacy : list string) :
  Forall (fun c => Pg.ident c = c) legacy ->
  forall s, Pg.drop_columns others t legacy s = drop_columns t legacy s.
Proof.
  induction 1 as [|c cs Hc _ IH]; intros s; [reflexivity |].
  cbn [Pg.drop_columns drop_columns]. rewrite (execute_drop_agrees _ _ Hc).
  destruct (execute _ s); [apply IH | reflexivity].
Qed.

End Statements.

Lemma confirm_column_strikes (M : Z) (t c : string) (ex ex' : list string)
    (s s' : session) :
  confirm_column M t c (ex, s) = (OK ex', s') -> ex' = strike c ex.
Proof.
  unfold confirm_column.
  repeat match goal with
         | |- context [match ?x with _ => _ end] => destruct x
         end; intros H; now inversion H.
Qed.

Lemma confirm_columns_strike (M : Z) (t : string) (columns : list string) :
  forall ex s legacy s',
    confirm_columns M t columns (ex, s) = (OK legacy, s') ->
    legacy = legacy_columns columns ex.
Proof.
  induction columns as [|c cs IH]; intros ex s legacy s' H.
  - cbn [confirm_columns fst snd] in H. now injection H as <- _.
  - cbn [confirm_columns] in H.
    destruct (confirm_column M t c (ex, s)) as [[ex1 | e] s1] eqn:E1; [| discriminate].
    apply confirm_column_strikes in E1 as ->. now apply IH in H.
Qed.

Lemma confirm_case_columns_strike (t : string) (columns : list string) :
  forall ex s legacy s',
    confirm_case_columns t columns (ex, s) = (OK legacy, s') ->
    legacy = legacy_columns columns ex.
Proof.
  induction columns as [|c cs IH]; intros ex s legacy s' H.
  - cbn [confirm_case_columns fst snd] in H. now injection H as <- _.
  - cbn [confirm_case_columns] in H.
    destruct (confirm_case_column t c (ex, s)) as [[ex1 | e] s1] eqn:E1; [| discriminate].
    assert (ex1 = strike c ex) as ->.
    { unfold confirm_case_column in E1.
      destruct (column_type _ _ _); [now injection E1 as <- _ |].
      destruct (execute _ _); [now injection E1 as <- _ | discriminate]. }
    now apply IH in H.
Qed.

(** What is left for the [DROP COLUMN] loop are names the catalog gave. *)
Lemma legacy_columns_stored (db : database) (t : string) (columns excluded : list string) :
  (forall tb, db !! t = Some tb -> Pg.stored tb) ->
  Forall (fun c => Pg.ident c = c)
    (legacy_columns columns (column_names db t excluded)).
Proof.
  intros Hst. apply List.Forall_forall. intros x Hx.
  apply (legacy_columns_spec columns _ (column_names_NoDup db t excluded)) in Hx as [Hx _].
  destruct (db !! t) as [tb |] eqn:Hdb.
  - apply (column_names_In _ _ _ _ _ Hdb) in Hx as [[ty Hx] _].
    apply substring_all. exact (Hst tb eq_refl x ty Hx).
  - unfold column_names in Hx. rewrite Hdb in Hx. destruct Hx.
Qed.

Lemma created_table_stored (id_type : sqltype) (rest : list string) :
  forallb Pg.ordinary_column rest = true ->
  Pg.stored (list_to_map (created_columns id_type rest)).
Proof.
  intros Hrest x ty Hx. apply elem_of_list_to_map_2 in Hx.
  assert (Hin : In x (map fst (created_columns id_type rest))).
  { apply list_elem_of_In in Hx. now apply (List.in_map fst) in Hx. }
  rewrite created_columns_names in Hin.
  assert (Hord : Pg.ordinary_column x = true).
  { destruct Hin as [<- | [<- | Hin]]; [reflexivity | reflexivity |].
    now apply (ordinary_columns_In rest). }
  unfold Pg.ordinary_column, Pg.ordinary_name in Hord.
  rewrite !andb_true_iff in Hord. destruct Hord as [[[_ Hlen] _] _].
  now apply Nat.leb_le in Hlen.
Qed.

Lemma after_first_ordinary (columns : list string) :
  forallb Pg.ordinary_column columns = true ->
  forallb Pg.ordinary_column (after_first columns) = true.
Proof.
  destruct columns as [|c [|c' cs]]; [reflexivity | now intros H |].
  cbn [after_first forallb]. intros H. now apply andb_true_iff in H as [_ H].
Qed.

Lemma case_columns_ordinary (properties : list string) :
  forallb Pg.ordinary_column properties = true ->
  forallb Pg.ordinary_column (case_columns properties) = true.
Proof.
  intros H. unfold case_columns. rewrite forallb_app, H. reflexivity.
Qed.

Section WholePasses.

Variable MAX_CHARVAR_LENGTH : Z.
Variable others : list Pg.relation.
Variable t : string.
Hypothesis ordinary : Pg.ordinary_table others t = true.
Hypothesis bound : Pg.type_allowed (CharacterVarying MAX_CHARVAR_LENGTH) = true.

Lemma confirm_schema_agrees (id_type : sqltype) (columns : list string) (db : database) :
  Pg.type_allowed id_type = true ->
  forallb Pg.ordinary_column columns = true ->
  Pg.confirm_schema
    (fun s => let* create_sql := create_statement t id_type columns in
              Pg.execute others create_sql s) t db
  = confirm_schema
      (fun s => let* create_sql := create_statement t id_type columns in
                execute create_sql s) t db.
Proof.
  intros Hid Hcols. unfold Pg.confirm_schema, confirm_schema, Pg.table_exists.
  rewrite (proj1 (ordinary_table_ident others t ordinary)).
  destruct (live (connect db) !! t) as [tb |] eqn:Hdb.
  - now rewrite bool_decide_eq_true_2 by eauto.
  - rewrite bool_decide_eq_false_2 by (intros [? ?]; discriminate).
    destruct columns as [|c cs]; [reflexivity |].
    rewrite create_statement_columns. cbn [bind].
    rewrite (execute_create_agrees others t ordinary); [reflexivity | |].
    + rewrite created_columns_names. cbn [forallb].
      now rewrite after_first_ordinary.
    + unfold created_columns. cbn [map snd forallb]. rewrite Hid. cbn [andb].
      rewrite List.map_map. apply forallb_forall. intros ty Hty.
      apply in_map_iff in Hty as (x & <- & _). reflexivity.
Qed.

Lemma confirm_table_schema_agrees (columns : list string) (db : database) :
  forallb Pg.ordinary_column columns = true ->
  Pg.confirm_table_schema MAX_CHARVAR_LENGTH others t columns db
  = confirm_table_schema MAX_CHARVAR_LENGTH t columns db.
Proof. now apply confirm_schema_agrees. Qed.

Lemma confirm_case_table_schema_agrees (case_data : case_spec) (db : database) :
  forallb Pg.ordinary_column (properties case_data) = true ->
  Pg.confirm_case_table_schema others t case_data db
  = confirm_case_table_schema t case_data db.
Proof. now apply confirm_schema_agrees. Qed.

Lemma confirm_table_columns_agrees (columns : list string) (db : database) :
  forallb Pg.ordinary_column columns = true ->
  (forall tb, db !! t = Some tb -> Pg.stored tb) ->
  Pg.confirm_table_columns MAX_CHARVAR_LENGTH others t columns db
  = confirm_table_columns MAX_CHARVAR_LENGTH t columns db.
Proof.
  intros Hcols Hst. unfold Pg.confirm_table_columns, confirm_table_columns.
  rewrite (column_names_agree others t ordinary).
  rewrite (confirm_columns_agree _ others t ordinary bound columns Hcols).
  destruct (confirm_columns _ _ _ _) as [[legacy | e] s] eqn:E; [| reflexivity].
  apply confirm_columns_strike in E as ->.
  now rewrite (drop_columns_agree others t ordinary _
                 (legacy_columns_stored _ _ _ _ Hst)).
Qed.

Lemma confirm_case_table_columns_agrees (properties : list string) (db : database) :
  forallb Pg.ordinary_column properties = true ->
  (forall tb, db !! t = Some tb -> Pg.stored tb) ->
  Pg.confirm_case_table_columns others t properties db
  = confirm_case_table_columns t properties db.
Proof.
  intros Hcols Hst. unfold Pg.confirm_case_table_columns, confirm_case_table_columns.
  rewrite (column_names_agree others t ordinary).
  rewrite (confirm_case_columns_agree others t ordinary _
             (case_columns_ordinary _ Hcols)).
  destruct (confirm_case_columns _ _ _) as [[legacy | e] s] eqn:E; [| reflexivity].
  apply confirm_case_columns_strike in E as ->.
  now rewrite (drop_columns_agree others t ordinary _
                 (legacy_columns_stored _ _ _ _ Hst)).
Qed.

(** What [confirm_table_schema] leaves is a table a server can hold. *)
Lemma confirm_schema_stored (create : session -> result session) (id_type : sqltype)
    (columns : list string) (db : database) :
  create = (fun s => let* create_sql := create_statement t id_type columns in
                     execute create_sql s) ->
  forallb Pg.ordinary_column columns = true ->
  (forall tb, db !! t = Some tb -> Pg.stored tb) ->
  forall tb, db_after (confirm_schema create t db) !! t = Some tb -> Pg.stored tb.
Proof.
  intros -> Hcols Hst tb. unfold confirm_schema. cbn [connect live].
  destruct (db !! t) as [tb0 |] eqn:Hdb.
  - cbn [finish db_after durable connect]. rewrite Hdb. intros [= <-]. now apply Hst.
  - destruct columns as [|c cs].
    + cbn [create_statement bind finish db_after durable connect]. rewrite Hdb.
      discriminate.
    + rewrite create_statement_columns. cbn [bind execute live connect]. rewrite Hdb.
      destruct (no_dup_names _); cbn [finish commit db_after durable sent live connect].
      * rewrite lookup_insert_eq. intros [= <-].
        apply created_table_stored. exact (after_first_ordinary (c :: cs) Hcols).
      * rewrite Hdb. discriminate.
Qed.

Lemma reconcile_agrees (columns : list string) (db : database) :
  forallb Pg.ordinary_column columns = true ->
  (forall tb, db !! t = Some tb -> Pg.stored tb) ->
  Pg.reconcile MAX_CHARVAR_LENGTH others t columns db
  = reconcile MAX_CHARVAR_LENGTH t columns db.
Proof.
  intros Hcols Hst. unfold Pg.reconcile, reconcile.
  rewrite (confirm_table_schema_agrees _ _ Hcols).
  destruct (outcome _); [| reflexivity].
  rewrite confirm_table_columns_agrees; [reflexivity | exact Hcols |].
  now apply (confirm_schema_stored _ (CharacterVarying MAX_CHARVAR_LENGTH) columns).
Qed.

End WholePasses.

(** ** How a second run ends *)

Section SecondRun.

Variable MAX_CHARVAR_LENGTH : Z.

(** A column that a step of the loop has passed can be compared with text
    afterwards, and so can every column that could before. *)
Lemma confirm_column_comparable (t c : string) (ex ex' : list string)
    (s s' : session) (tb : table) :
  confirm_column MAX_CHARVAR_LENGTH t c (ex, s) = (OK ex', s') ->
  live s !! t = Some tb ->
  exists tb',
    live s' !! t = Some tb'
    /\ (exists ty, tb' !! c = Some ty /\ comparable_with_text ty = true)
    /\ forall x ty, tb !! x = Some ty -> comparable_with_text ty = true ->
         exists ty', tb' !! x = Some ty' /\ comparable_with_text ty' = true.
Proof.
  intros H Htb. unfold confirm_column in H.
  rewrite (column_type_live s t c tb Htb) in H.
  destruct (tb !! c) as [ty |] eqn:Hc.
  - destruct (String.eqb c "id") eqn:Eid.
    + apply String.eqb_eq in Eid. subst c.
      destruct ty as [n | | |]; cbn [character_maximum_length] in H;
        try (injection H; discriminate).
      destruct (n <? MAX_CHARVAR_LENGTH)%Z.
      * cbn [execute] in H. rewrite Htb, Hc in H.
        unfold column_type in H. cbn [sent live] in H.
        rewrite lookup_insert_eq in H. cbn [mbind option_bind] in H.
        rewrite lookup_insert_eq in H. cbn [comparable_with_text] in H.
        injection H as _ <-. cbn [sent live]. rewrite lookup_insert_eq.
        eexists. split; [reflexivity |]. split.
        -- rewrite lookup_insert_eq. eauto.
        -- intros x ty Hx Hty. destruct (decide ("id" = x)) as [<- | Hne].
           ++ rewrite lookup_insert_eq. eauto.
           ++ rewrite lookup_insert_ne by exact Hne. eauto.
      * rewrite (column_type_live s t "id" tb Htb), Hc in H.
        cbn [comparable_with_text] in H. injection H as _ <-.
        exists tb. split; [exact Htb |]. split; eauto.
    + rewrite (column_type_live s t c tb Htb), Hc in H.
      destruct (comparable_with_text ty) eqn:Hty; [| injection H; discriminate].
      injection H as _ <-. exists tb. split; [exact Htb |]. split; eauto.
  - cbn [execute] in H. rewrite Htb, Hc in H. injection H as _ <-.
    cbn [commit sent live]. rewrite lookup_insert_eq.
    eexists. split; [reflexivity |]. split.
    + rewrite lookup_insert_eq. eauto.
    + intros x ty Hx Hty. destruct (decide (c = x)) as [<- | Hne]; [congruence |].
      rewrite lookup_insert_ne by exact Hne. eauto.
Qed.

Lemma confirm_columns_comparable (t : string) (columns : list string) :
  forall ex s legacy s' tb,
    confirm_columns MAX_CHARVAR_LENGTH t columns (ex, s) = (OK legacy, s') ->
    live s !! t = Some tb ->
    exists tb',
      live s' !! t = Some tb'
      /\ (forall c, In c columns ->
            exists ty, tb' !! c = Some ty /\ comparable_with_text ty = true)
      /\ forall x ty, tb !! x = Some ty -> comparable_with_text ty = true ->
           exists ty', tb' !! x = Some ty' /\ comparable_with_text ty' = true.
Proof.
  induction columns as [|c cs IH]; intros ex s legacy s' tb H Htb.
  - cbn [confirm_columns fst snd] in H. injection H as _ <-.
    exists tb. split; [exact Htb |]. split; [intros c [] | eauto].
  - cbn [confirm_columns] in H.
    destruct (confirm_column MAX_CHARVAR_LENGTH t c (ex, s)) as [[ex1 | e] s1] eqn:E1;
      [| discriminate].
    destruct (confirm_column_comparable _ _ _ _ _ _ _ E1 Htb)
      as (tb1 & Htb1 & (ty & Hty & Hcmp) & Hkeep).
    destruct (IH _ _ _ _ _ H Htb1) as (tb' & Htb' & Hcs & Hkeep').
    exists tb'. split; [exact Htb' |]. split.
    + intros x [<- | Hx]; [exact (Hkeep' _ _ Hty Hcmp) | now apply Hcs].
    + intros x tyx Hx Hcx. destruct (Hkeep x tyx Hx Hcx) as (ty1 & Hty1 & Hc1).
      exact (Hkeep' _ _ Hty1 Hc1).
Qed.

(** After a pass that ended well the columns of the sheet can be compared
    with text. *)
Lemma confirm_table_columns_comparable (t : string) (columns : list string)
    (db : database) (tb : table) :
  db !! t = Some tb ->
  outcome (confirm_table_columns MAX_CHARVAR_LENGTH t columns db) = OK tt ->
  exists tb',
    db_after (confirm_table_columns MAX_CHARVAR_LENGTH t columns db) !! t = Some tb'
    /\ in_step MAX_CHARVAR_LENGTH columns tb'
    /\ forall c, In c columns ->
         exists ty, tb' !! c = Some ty /\ comparable_with_text ty = true.
Proof.
  intros Hdb Hok.
  destruct (confirm_table_columns_in_step _ _ _ _ _ Hdb Hok) as (tb' & Htb' & Hstep).
  exists tb'. split; [exact Htb' |]. split; [exact Hstep |].
  revert Hok Htb'. unfold confirm_table_columns.
  destruct (confirm_columns _ _ _ _) as [[legacy | e] s1] eqn:E1;
    [| cbn [finish outcome]; discriminate].
  destruct (confirm_columns_comparable _ _ _ _ _ _ _ E1 Hdb) as (tb1 & Htb1 & Hcs & _).
  apply confirm_columns_strike in E1 as Hleg.
  destruct (drop_columns _ _ _) as [[u | e] s2] eqn:E2;
    [| cbn [finish outcome]; discriminate].
  destruct (drop_columns_ok _ _ _ _ _ _ E2 Htb1) as (tb2 & Htb2 & Hlook).
  intros _. cbn [finish commit db_after durable live]. rewrite Htb2. intros [= <-].
  intros c Hc. rewrite Hlook.
  replace (str_in c legacy) with false; [now apply Hcs |].
  symmetry. apply str_in_false. rewrite Hleg.
  pose proof (legacy_columns_spec columns _
                (column_names_NoDup (live (connect db)) t ["imported_on"]))
    as [_ Hspec].
  rewrite Hspec. tauto.
Qed.

(** On a table that is in step with the sheet, with columns that can be
    compared with text, the loop ends well or stops at a key that is not a
    [character varying]. *)
Lemma confirm_columns_outcome (t : string) (columns : list string) :
  forall ex s tb,
    live s !! t = Some tb ->
    (forall c, In c columns ->
       exists ty, tb !! c = Some ty /\ comparable_with_text ty = true) ->
    (In "id" columns -> wide_enough MAX_CHARVAR_LENGTH tb) ->
    (exists legacy,
       confirm_columns MAX_CHARVAR_LENGTH t columns (ex, s) = (OK legacy, s))
    \/ confirm_columns MAX_CHARVAR_LENGTH t columns (ex, s) = (Err TypeError, s).
Proof.
  induction columns as [|c cs IH]; intros ex s tb Htb Hcs Hid.
  - left. now exists ex.
  - cbn [confirm_columns].
    assert (Hstep : confirm_column MAX_CHARVAR_LENGTH t c (ex, s) = (OK (strike c ex), s)
                    \/ confirm_column MAX_CHARVAR_LENGTH t c (ex, s) = (Err TypeError, s)).
    { unfold confirm_column. rewrite (column_type_live s t c tb Htb).
      destruct (Hcs c (or_introl eq_refl)) as (ty & Hty & Hcmp). rewrite Hty.
      destruct (String.eqb c "id") eqn:Eid.
      - apply String.eqb_eq in Eid. subst c.
        destruct ty as [n | | |]; cbn [character_maximum_length]; try (now right).
        assert (Hn : (n <? MAX_CHARVAR_LENGTH)%Z = false).
        { apply Z.ltb_ge. apply (Hid (or_introl eq_refl)). exact Hty. }
        rewrite Hn, (column_type_live s t "id" tb Htb), Hty. now left.
      - rewrite (column_type_live s t c tb Htb), Hty, Hcmp. now left. }
    destruct Hstep as [-> | ->]; [| now right].
    apply (IH (strike c ex) s tb Htb).
    + intros x Hx. apply Hcs. now right.
    + intros Hx. apply Hid. now right.
Qed.

Lemma in_step_no_legacy (t : string) (columns : list string) (db : database)
    (tb : table) :
  db !! t = Some tb ->
  in_step MAX_CHARVAR_LENGTH columns tb ->
  legacy_columns columns (column_names db t ["imported_on"]) = [].
Proof.
  intros Hdb (_ & Hdom & _).
  pose proof (legacy_columns_spec columns _ (column_names_NoDup db t ["imported_on"]))
    as [_ Hleg].
  destruct (legacy_columns _ _) as [|x l]; [reflexivity |].
  exfalso. destruct (proj1 (Hleg x) (or_introl eq_refl)) as [Hx Hnin].
  apply (column_names_In _ _ _ _ _ Hdb) in Hx as [Hx Hex].
  destruct (Hdom x Hx) as [-> | Hin]; [apply Hex; now left | contradiction].
Qed.

(** On a server that takes names as they are spelled: after a run that
    ended well, a second run ends well too, or stops at the width test of a
    key that is not a [character varying]. *)
Lemma reconcile_second_outcome (t : string) (columns : list string) (db : database) :
  outcome (reconcile MAX_CHARVAR_LENGTH t columns db) = OK tt ->
  let db1 := db_after (reconcile MAX_CHARVAR_LENGTH t columns db) in
  outcome (reconcile MAX_CHARVAR_LENGTH t columns db1) = OK tt
  \/ outcome (reconcile MAX_CHARVAR_LENGTH t columns db1) = Err TypeError.
Proof.
  unfold reconcile at 1 2.
  destruct (outcome (confirm_table_schema MAX_CHARVAR_LENGTH t columns db))
    as [[] | e] eqn:E0; [| intros E1; rewrite E0 in E1; discriminate].
  cbn [outcome db_after]. intros E1.
  destruct (confirm_table_schema_exists _ _ _ _ E0) as [tb0 Htb0].
  destruct (confirm_table_columns_comparable _ _ _ _ Htb0 E1)
    as (tb1 & Htb1 & Hstep & Hcmp).
  cbv zeta. set (db1 := db_after (confirm_table_columns _ _ _ _)) in *.
  unfold reconcile.
  rewrite (confirm_table_schema_present _ _ _ _ _ Htb1).
  cbn [outcome db_after statements app].
  unfold confirm_table_columns.
  destruct (confirm_columns_outcome t columns
              (column_names (live (connect db1)) t ["imported_on"]) (connect db1) tb1
              Htb1 Hcmp (proj2 (proj2 Hstep))) as [[legacy Hl] | Hl]; rewrite Hl.
  - apply confirm_columns_strike in Hl as ->. cbn [connect live].
    rewrite (in_step_no_legacy _ _ _ _ Htb1 Hstep). now left.
  - now right.
Qed.

End SecondRun.

(** ** What holds on PostgreSQL *)

Lemma ident_cuts (name : string) :
  (63 < py_len name)%nat ->
  py_len (Pg.ident name) = 63%nat /\ Pg.ident name <> name.
Proof.
  intros H. assert (Hlen : py_len (Pg.ident name) = 63%nat).
  { unfold Pg.ident, Pg.NAMEDATALEN. apply substring_length. cbn. lia. }
  split; [exact Hlen |]. intros E. rewrite E in Hlen. lia.
Qed.

(** C5. Reconciliation is not idempotent: a sheet with a column whose name
    is longer than 63 bytes is never settled. The server keeps 63 bytes of
    such a name, so the name the catalog gives back is not the name the
    sheet has, and [strike] leaves it in the list of columns to drop. The
    table has the key and [imported_on]; the sheet has the key and a column
    of 70 characters. The first run adds the column. The second run, the
    sheet and the table unchanged, reads the stored name from the catalog,
    does not find it among the names of the sheet, and drops the column:
    the database is back where it started, and the third run is the first
    again. *)
Theorem reconcile_long_column_name :
  let tb : table := {[ "id" := CharacterVarying 255; "imported_on" := Timestamp ]} in
  let db : database := {[ "visit" := tb ]} in
  let columns := ["id"; long_column] in
  let r1 := Pg.reconcile 255 information_schema "visit" columns db in
  let r2 := Pg.reconcile 255 information_schema "visit" columns (db_after r1) in
  (forall column existing,
     (63 < py_len column)%nat ->
     strike column (Pg.ident column :: existing)
     = Pg.ident column :: strike column existing)
  /\ py_len long_column = 70%nat
  /\ outcome r1 = OK tt
  /\ statements r1 = [AddColumn "visit" long_column Text]
  /\ db_after r1 = {[ "visit" := <[Pg.ident long_column := Text]> tb ]}
  /\ outcome r2 = OK tt
  /\ statements r2 = [DropColumn "visit" (Pg.ident long_column)]
  /\ db_after r2 = db
  /\ db_after r2 <> db_after r1.
Proof.
  intros tb db columns r1 r2.
  assert (H1 : r1 = mkRun (OK tt) {[ "visit" := <[Pg.ident long_column := Text]> tb ]}
                      [AddColumn "visit" long_column Text])
    by (vm_compute; reflexivity).
  assert (H2 : r2 = mkRun (OK tt) db [DropColumn "visit" (Pg.ident long_column)])
    by (subst r2; rewrite H1; vm_compute; reflexivity).
  rewrite H2, H1. cbn [outcome statements db_after].
  split; [| repeat split].
  - intros column existing Hlong.
    destruct (ident_cuts column Hlong) as [_ Hne].
    unfold strike, str_in. cbn [existsb remove_first].
    replace (String.eqb column (Pg.ident column)) with false
      by (symmetry; apply String.eqb_neq; congruence).
    cbn [orb]. now destruct (existsb _ existing).
  - intros E.
    apply (f_equal (fun d : database => column_type d "visit" (Pg.ident long_column)))
      in E.
    vm_compute in E. discriminate E.
Qed.

(** On a table that does not exist yet the first run already drops the
    column it has just created. *)
Remark long_column_name_from_scratch :
  let columns := ["id"; long_column] in
  let r1 := Pg.reconcile 255 information_schema "visit" columns ∅ in
  let r2 := Pg.reconcile 255 information_schema "visit" columns (db_after r1) in
  outcome r1 = OK tt
  /\ statements r1
     = [CreateTable "visit" (created_columns (CharacterVarying 255) [long_column]);
        DropColumn "visit" (Pg.ident long_column)]
  /\ column_type (db_after r1) "visit" (Pg.ident long_column) = None
  /\ statements r2 = [AddColumn "visit" long_column Text]
  /\ column_type (db_after r2) "visit" (Pg.ident long_column) = Some Text.
Proof. intros columns r1 r2. repeat split; vm_compute; reflexivity. Qed.

(** A table that bears the name of a relation of another schema, here the
    view [information_schema.tables]: the table is created, and the pass
    over the columns fails at its first query, on this run and on every
    later one. *)
Remark relname_in_two_schemas :
  let others := information_schema in
  let r1 := Pg.reconcile 255 others "tables" ["id"; "age"] ∅ in
  let r2 := Pg.reconcile 255 others "tables" ["id"; "age"] (db_after r1) in
  outcome r1 = Err DatabaseError
  /\ statements r1
     = [CreateTable "tables" (created_columns (CharacterVarying 255) ["age"])]
  /\ is_Some (db_after r1 !! "tables")
  /\ r2 = mkRun (Err DatabaseError) (db_after r1) [].
Proof.
  intros others r1 r2. repeat split; try (vm_compute; reflexivity).
  vm_compute. eauto.
Qed.

Lemma in_step_stored (M : Z) (columns : list string) (tb : table) :
  forallb Pg.ordinary_column columns = true ->
  in_step M columns tb -> Pg.stored tb.
Proof.
  intros Hcols (_ & Hdom & _) x ty Hx.
  assert (Hord : Pg.ordinary_column x = true).
  { destruct (Hdom x (ex_intro _ ty Hx)) as [-> | Hin]; [reflexivity |].
    now apply (ordinary_columns_In columns). }
  unfold Pg.ordinary_column, Pg.ordinary_name in Hord.
  rewrite !andb_true_iff in Hord. destruct Hord as [[[_ Hlen] _] _].
  now apply Nat.leb_le in Hlen.
Qed.

Lemma reconcile_in_step (M : Z) (t : string) (columns : list string) (db : database) :
  outcome (reconcile M t columns db) = OK tt ->
  exists tb,
    db_after (reconcile M t columns db) !! t = Some tb /\ in_step M columns tb.
Proof.
  unfold reconcile.
  destruct (outcome (confirm_table_schema M t columns db)) as [[] | e] eqn:E0.
  - cbn [outcome db_after]. intros E1.
    destruct (confirm_table_schema_exists _ _ _ _ E0) as [tb0 Htb0].
    exact (confirm_table_columns_in_step _ _ _ _ _ Htb0 E1).
  - intros E1. rewrite E0 in E1. discriminate.
Qed.

Lemma bound_allowed (M : Z) :
  (1 <= M <= 10485760)%Z -> Pg.type_allowed (CharacterVarying M) = true.
Proof. intros H. cbn [Pg.type_allowed]. apply andb_true_iff. split; lia. Qed.

(** X30. On ordinary names reconciliation is idempotent: the bound one
    PostgreSQL takes, the table's name borne by no other relation, the
    names of the columns ordinary, the table, if it exists, one a server
    can hold, and the first run ended well. Then a
    second run, the sheet and the table unchanged, sends no schema-changing
    statement and leaves the database as the first run left it; it ends
    well, or raises [TypeError] at the width test of a key that is not a
    [character varying]. *)
Theorem reconcile_idempotent_ordinary (MAX_CHARVAR_LENGTH : Z)
    (others : list Pg.relation) (t : string) (columns : list string)
    (db : database) :
  (1 <= MAX_CHARVAR_LENGTH <= 10485760)%Z ->
  Pg.ordinary_table others t = true ->
  forallb Pg.ordinary_column columns = true ->
  (forall tb, db !! t = Some tb -> Pg.stored tb) ->
  outcome (Pg.reconcile MAX_CHARVAR_LENGTH others t columns db) = OK tt ->
  let db1 := db_after (Pg.reconcile MAX_CHARVAR_LENGTH others t columns db) in
  statements (Pg.reconcile MAX_CHARVAR_LENGTH others t columns db1) = []
  /\ db_after (Pg.reconcile MAX_CHARVAR_LENGTH others t columns db1) = db1
  /\ (outcome (Pg.reconcile MAX_CHARVAR_LENGTH others t columns db1) = OK tt
      \/ outcome (Pg.reconcile MAX_CHARVAR_LENGTH others t columns db1)
         = Err TypeError).
Proof.
  intros HM Ht Hcols Hst. apply bound_allowed in HM.
  rewrite (reconcile_agrees _ _ _ Ht HM _ _ Hcols Hst). intros Hok db1.
  destruct (reconcile_in_step _ _ _ _ Hok) as (tb1 & Htb1 & Hstep).
  subst db1. rewrite (reconcile_agrees _ _ _ Ht HM _ _ Hcols).
  - destruct (reconcile_twice_plain _ _ _ _ Hok) as [Hsent Hsame].
    split; [exact Hsent |]. split; [exact Hsame |].
    exact (reconcile_second_outcome _ _ _ _ Hok).
  - intros tb Htb. rewrite Htb1 in Htb. injection Htb as <-.
    exact (in_step_stored _ _ _ Hcols Hstep).
Qed.

Lemma reconcile_idempotent_ordinary_witness :
  let others := information_schema in
  let db : database :=
    {[ "visit" := {[ "id" := CharacterVarying 50; "imported_on" := Timestamp;
                     "old_field" := Text ]} ]} in
  let columns := ["id"; "received_on"; "new_field"] in
  let db1 := db_after (Pg.reconcile 255 others "visit" columns db) in
  statements (Pg.reconcile 255 others "visit" columns db1) = []
  /\ db_after (Pg.reconcile 255 others "visit" columns db1) = db1
  /\ (outcome (Pg.reconcile 255 others "visit" columns db1) = OK tt
      \/ outcome (Pg.reconcile 255 others "visit" columns db1) = Err TypeError).
Proof.
  intros others db columns.
  refine (reconcile_idempotent_ordinary 255 others "visit" columns db _ _ _ _ _).
  - lia.
  - reflexivity.
  - reflexivity.
  - intros tb Htb. apply lookup_singleton_Some in Htb as [_ <-].
    unfold Pg.stored. refine (bool_decide_unpack _ _). vm_compute. exact I.
  - vm_compute. reflexivity.
Defined.








(** X25. A case table made from scratch, its name borne by no other relation
    and the properties with ordinary names: the [CREATE TABLE] statement
    leaves the first property out (the only one apart), the pass over the
    columns adds it, and in the end the table has the key and every column
    of the case. The names in the statement are to be distinct. *)
Theorem case_table_from_scratch (others : list Pg.relation) (t name p : string)
    (ps : list string) (db : database) :
  Pg.ordinary_table others t = true ->
  forallb Pg.ordinary_column (p :: ps) = true ->
  db !! t = None ->
  NoDup ("id" :: "imported_on" :: after_first (p :: ps)) ->
  let r1 := Pg.confirm_case_table_schema others t (mkCase name (p :: ps)) db in
  let r2 := Pg.confirm_case_table_columns others t (p :: ps) (db_after r1) in
  outcome r1 = OK tt
  /\ statements r1
     = [CreateTable t (created_columns (CharacterVarying 255) (after_first (p :: ps)))]
  /\ outcome r2 = OK tt
  /\ (exists tb,
        db_after r2 !! t = Some tb
        /\ forall x, is_Some (tb !! x) <-> x = "id" \/ In x (case_columns (p :: ps)))
  /\ forall t', t' <> t -> db_after r2 !! t' = db !! t'.
Proof.
  intros Ht Hprops Hdb Hnd. cbv zeta.
  rewrite (confirm_case_table_schema_agrees _ _ Ht (mkCase name (p :: ps)) db Hprops).
  rewrite (confirm_case_table_columns_agrees _ _ Ht _ _ Hprops).
  - exact (case_table_scratch_plain t name p ps db Hdb Hnd).
  - unfold confirm_case_table_schema, create_case_table. cbn [properties].
    now apply (confirm_schema_stored _ _ (CharacterVarying 255) (p :: ps));
      [| | intros tb Htb; rewrite Hdb in Htb; discriminate].
Qed.

Lemma case_table_from_scratch_witness :
  let others := information_schema in
  let r1 := Pg.confirm_case_table_schema others "case_patient"
              (mkCase "patient" ["name"; "village"; "age"]) ∅ in
  let r2 := Pg.confirm_case_table_columns others "case_patient"
              ["name"; "village"; "age"] (db_after r1) in
  outcome r1 = OK tt
  /\ statements r1
     = [CreateTable "case_patient"
          (created_columns (CharacterVarying 255) ["village"; "age"])]
  /\ outcome r2 = OK tt
  /\ (exists tb,
        db_after r2 !! "case_patient" = Some tb
        /\ forall x, is_Some (tb !! x)
                     <-> x = "id" \/ In x (case_columns ["name"; "village"; "age"]))
  /\ forall t', t' <> "case_patient" -> db_after r2 !! t' = (∅ : database) !! t'.
Proof.
  intros others.
  refine (case_table_from_scratch others "case_patient" "patient" "name"
            ["village"; "age"] ∅ _ _ _ _).
  - reflexivity.
  - reflexivity.
  - apply lookup_empty.
  - refine (bool_decide_unpack _ _). vm_compute. exact I.
Defined.

(** X28. A pass of [confirm_table_columns] that ends well, over a table (one
    a server can hold) whose name no other relation bears and a sheet whose
    columns have ordinary names, leaves, the key apart, exactly this: a column of the sheet with
    the type it had, or [TEXT] if it is new; [imported_on] as it was;
    nothing else. No other table is touched. *)
Theorem confirm_table_columns_types (MAX_CHARVAR_LENGTH : Z) (others : list Pg.relation)
    (t : string) (columns : list string) (db : database) (tb : table) :
  (1 <= MAX_CHARVAR_LENGTH <= 10485760)%Z ->
  Pg.ordinary_table others t = true ->
  forallb Pg.ordinary_column columns = true ->
  db !! t = Some tb ->
  Pg.stored tb ->
  outcome (Pg.confirm_table_columns MAX_CHARVAR_LENGTH others t columns db) = OK tt ->
  (exists tb',
     db_after (Pg.confirm_table_columns MAX_CHARVAR_LENGTH others t columns db) !! t
     = Some tb'
     /\ forall x, x <> "id" ->
          tb' !! x = if str_in x columns then Some (default Text (tb !! x))
                     else if String.eqb x "imported_on" then tb !! x
                     else None)
  /\ forall t', t' <> t ->
       db_after (Pg.confirm_table_columns MAX_CHARVAR_LENGTH others t columns db) !! t'
       = db !! t'.
Proof.
  intros HM Ht Hcols Hdb Hst. apply bound_allowed in HM.
  rewrite (confirm_table_columns_agrees _ _ _ Ht HM _ _ Hcols).
  - now apply column_pass_types_plain.
  - intros tb0 Htb0. rewrite Hdb in Htb0. now injection Htb0 as <-.
Qed.

Lemma confirm_table_columns_types_witness :
  let others := information_schema in
  let tb : table :=
    {[ "id" := CharacterVarying 50; "imported_on" := Timestamp; "old_field" := Text ]} in
  let db : database := {[ "visit" := tb ]} in
  let r := Pg.confirm_table_columns 255 others "visit" ["id"; "received_on"] db in
  (exists tb',
     db_after r !! "visit" = Some tb'
     /\ forall x, x <> "id" ->
          tb' !! x = if str_in x ["id"; "received_on"]
                     then Some (default Text (tb !! x))
                     else if String.eqb x "imported_on" then tb !! x
                     else None)
  /\ forall t', t' <> "visit" -> db_after r !! t' = db !! t'.
Proof.
  intros others tb db.
  refine (confirm_table_columns_types 255 others "visit" ["id"; "received_on"] db tb
            _ _ _ _ _ _).
  - lia.
  - reflexivity.
  - reflexivity.
  - apply lookup_singleton_eq.
  - unfold Pg.stored. refine (bool_decide_unpack _ _). vm_compute. exact I.
  - vm_compute. reflexivity.
Defined.
